(** * xtemplate: capability-gated template functions

    A shallow embedding of the Go package [github.com/Eun/xtemplate]:
    the allow-list ([createAllowedFunctionSet], [FuncMap]), the execution
    wrappers ([finishExecute], [Execute], [Tmpl.Exec]), the conversion
    engine of [fn_conv.go] and the slice helpers ([Slice.Sort],
    [Slice.Unique]).

    Conventions.
    - Go's [any] is the inductive [value]; fixed-width integers are [Z]
      with their range written out; [float64] is [spec_float] at
      precision 53 and maximal exponent 1024.
    - A Go function returning [(T, error)] returns [result T].
    - Maps used as sets are [gset]; the function map is a [gmap].
    - Backing arrays of slices live in a [heap]; a slice is a header
      pointing into it, so that aliasing is visible. *)

From Stdlib Require Import ZArith Strings.Ascii Floats.SpecFloat.
From stdpp Require Import gmap strings list sorting.

Open Scope Z_scope.

(** ** Package [funcs]: function identifiers *)

Module funcs.

Record Func := mkFunc { Namespace : string; Name : string }.

#[global] Instance Func_eq_dec : EqDecision Func.
Proof. solve_decision. Defined.

#[global] Instance Func_countable : Countable Func.
Proof.
  refine (inj_countable' (fun f => (Namespace f, Name f))
                         (fun p => mkFunc p.1 p.2) _).
  by intros [].
Defined.

(** [type Funcs []Func] *)
Definition Funcs := list Func.

(** The interface [AllowedFunctions] of the root package, with its two
    implementations [Func.Functions] and [Funcs.Functions]. *)
Class AllowedFunctions (A : Type) := Functions : A -> list Func.

#[global] Instance Func_Functions : AllowedFunctions Func :=
  fun f => [f].

#[global] Instance Funcs_Functions : AllowedFunctions Funcs :=
  fun f => f.

(** An interface value: a receiver packed with its method table. *)
Inductive allowed : Type :=
| Allowed {A : Type} `{AllowedFunctions A} (a : A).

Definition allowed_Functions (x : allowed) : list Func :=
  match x with
  | @Allowed _ impl a => @Functions _ impl a
  end.

(** Identifiers the sources refer to. *)
Definition ConvToBool := mkFunc "conv" "ToBool".
Definition ConvToString := mkFunc "conv" "ToString".
Definition ConvToInt := mkFunc "conv" "ToInt".
Definition ConvToInt8 := mkFunc "conv" "ToInt8".
Definition ConvToInt16 := mkFunc "conv" "ToInt16".
Definition ConvToInt32 := mkFunc "conv" "ToInt32".
Definition ConvToInt64 := mkFunc "conv" "ToInt64".
Definition ConvToUint := mkFunc "conv" "ToUint".
Definition ConvToUint8 := mkFunc "conv" "ToUint8".
Definition ConvToUint16 := mkFunc "conv" "ToUint16".
Definition ConvToUint32 := mkFunc "conv" "ToUint32".
Definition ConvToUint64 := mkFunc "conv" "ToUint64".
Definition ConvToFloat32 := mkFunc "conv" "ToFloat32".
Definition ConvToFloat64 := mkFunc "conv" "ToFloat64".
Definition JSONMarshal := mkFunc "json" "Marshal".
Definition JSONValid := mkFunc "json" "Valid".
Definition OSGetenv := mkFunc "os" "Getenv".
Definition OSSetenv := mkFunc "os" "Setenv".
Definition RegexpFindAllString := mkFunc "regexp" "FindAllString".
Definition RegexpFindAllStringIndex := mkFunc "regexp" "FindAllStringIndex".
Definition SliceSort := mkFunc "slice" "Sort".
Definition SliceUnique := mkFunc "slice" "Unique".
Definition StringsIndexAny := mkFunc "strings" "IndexAny".
Definition StringsIndexByte := mkFunc "strings" "IndexByte".
Definition StringsToLower := mkFunc "strings" "ToLower".
Definition TmplExec := mkFunc "tmpl" "Exec".
Definition URLJoinPath := mkFunc "url" "JoinPath".

End funcs.

Import funcs.

(** ** Dynamic values *)

Inductive ikind := KInt8 | KInt16 | KInt32 | KInt64 | KInt.
Inductive ukind := KUint8 | KUint16 | KUint32 | KUint64 | KUint.
Inductive fkind := KFloat32 | KFloat64.

(** Element types of the slices the package handles. *)
Inductive elemtype :=
| TAny | TBool | TString
| TFloat (k : fkind) | TInt (k : ikind) | TUint (k : ukind).

(** [reflect.Kind] of the values that are none of the scalar kinds. *)
Inductive okind :=
| KMap | KStruct | KFunc | KChan | KArray | KComplex | KUnsafePointer.

(** A slice header: backing array, first index, length. *)
Record slice := mkSlice { s_ptr : positive; s_off : nat; s_len : nat }.

(** A value of another kind is opaque: [o_id] stands for its contents
    (two such values are equal in Go exactly when kind and [o_id]
    agree), [o_hashable] says whether Go can compare and hash it (maps
    and functions cannot be, structs with such fields neither) and
    [o_stringer] is the result of its [String] method when it implements
    [fmt.Stringer]. *)
Record opaque := mkOpaque {
  o_kind : okind;
  o_hashable : bool;
  o_stringer : option string;
  o_id : N
}.

Inductive value :=
| VNil
| VBool (b : bool)
| VString (s : string)
| VInt (k : ikind) (i : Z)
| VUint (k : ukind) (u : Z)
| VFloat (k : fkind) (f : spec_float)
| VBytes (b : string)
| VPtr (addr : N) (target : value)
| VSlice (t : elemtype) (s : slice)
| VOther (o : opaque).

#[global] Instance ikind_eq_dec : EqDecision ikind.
Proof. solve_decision. Defined.
#[global] Instance ukind_eq_dec : EqDecision ukind.
Proof. solve_decision. Defined.
#[global] Instance fkind_eq_dec : EqDecision fkind.
Proof. solve_decision. Defined.
#[global] Instance elemtype_eq_dec : EqDecision elemtype.
Proof. solve_decision. Defined.
#[global] Instance okind_eq_dec : EqDecision okind.
Proof. solve_decision. Defined.
#[global] Instance slice_eq_dec : EqDecision slice.
Proof. solve_decision. Defined.

(** ** Errors *)

(** The cause carried by a [*strconv.NumError]. *)
Inductive numerr := ErrSyntax | ErrRange.

Inductive error :=
| ReturnError (Value : value)
| FuncNotAllowedError (f : Func)
| NumError (fn : string) (num : string) (cause : numerr)
| ErrorString (msg : string)
| CouldNotConvert (v : value) (target : string)
| WouldOverflowInt (i : Z)
| WouldOverflowInt64 (u : Z)
| WouldOverflowFloat32 (f : spec_float)
| MapKeyNotString (k : value)
| OnlyOneArgumentIsAllowedError
| Wrapped (format : string) (args : list string) (err : error).

(** A Go result [(T, error)]; [Panic] is a run-time panic. *)
Inductive result (A : Type) :=
| Ok (a : A)
| Err (e : error)
| Panic (msg : string).
Arguments Ok {A} a.
Arguments Err {A} e.
Arguments Panic {A} msg.

(** [errors.As(err, &retErr)] with [retErr] of type [ReturnError]: the
    first [ReturnError] on the chain of wrapped errors. *)
Fixpoint errors_As_ReturnError (err : error) : option value :=
  match err with
  | ReturnError v => Some v
  | Wrapped _ _ e => errors_As_ReturnError e
  | _ => None
  end.

(** [errors.As(err, &e)] with [e] of type [*FuncNotAllowedError]. *)
Fixpoint errors_As_FuncNotAllowed (err : error) : option Func :=
  match err with
  | FuncNotAllowedError f => Some f
  | Wrapped _ _ e => errors_As_FuncNotAllowed e
  | _ => None
  end.

(** ** Templates and the root context *)

(** [*template.Template] belongs to the host evaluator [text/template].
    A template is represented by what its two entry points do: the text
    they write to the writer before they stop, and the error they stop
    with ([None] for [nil]). *)
Record Template := mkTemplate {
  tmpl_Execute : value -> string * option error;
  tmpl_ExecuteTemplate : string -> value -> string * option error
}.

Record rootContext := mkRootContext {
  template : Template;
  allowedFunctionSet : gset Func
}.

(** ** Package [strconv] (Go standard library)

    [ParseInt] and [ParseUint] are used by the package with base 0 and
    bit size 64 only, and are given for these arguments; [ParseFloat] for
    bit size 64.  Strings are byte strings. *)

Module strconv.

Definition byte (c : ascii) : Z := Z.of_N (N_of_ascii c).

Definition is_digit (c : ascii) : bool := (48 <=? byte c) && (byte c <=? 57).

(** [lower(c) = c | ('x' - 'X')] *)
Definition lower (c : ascii) : Z := Z.lor (byte c) 32.

Definition maxUint64 : Z := 2 ^ 64 - 1.

(** [underscoreOK]: underscores only between digits, or between a base
    prefix and a digit.  [saw] is the last character class seen. *)
Inductive saw_t := SawStart | SawDigit | SawUnderscore | SawOther.

Fixpoint underscoreOK_loop (hex : bool) (saw : saw_t) (s : string) : bool :=
  match s with
  | EmptyString => match saw with SawUnderscore => false | _ => true end
  | String c s' =>
      if is_digit c || (hex && (97 <=? lower c) && (lower c <=? 102)) then
        underscoreOK_loop hex SawDigit s'
      else if Ascii.eqb c "_" then
        match saw with
        | SawDigit => underscoreOK_loop hex SawUnderscore s'
        | _ => false
        end
      else
        match saw with
        | SawUnderscore => false
        | _ => underscoreOK_loop hex SawOther s'
        end
  end.

Definition underscoreOK (s : string) : bool :=
  let s :=
    match s with
    | String c s' => if Ascii.eqb c "-" || Ascii.eqb c "+" then s' else s
    | EmptyString => s
    end in
  match s with
  | String c0 (String c1 s') =>
      if Ascii.eqb c0 "0" &&
         ((lower c1 =? 98) || (lower c1 =? 111) || (lower c1 =? 120)) then
        underscoreOK_loop (lower c1 =? 120) SawDigit s'
      else underscoreOK_loop false SawStart s
  | _ => underscoreOK_loop false SawStart s
  end.

(** The digit loop of [ParseUint]; [inr (n, underscores)] when it runs
    to the end of the string. *)
Fixpoint ParseUint_loop (base cutoff : Z) (s : string) (n : Z)
  (underscores : bool) : numerr + Z * bool :=
  match s with
  | EmptyString => inr (n, underscores)
  | String c s' =>
      if Ascii.eqb c "_" then ParseUint_loop base cutoff s' n true
      else
        let d :=
          if is_digit c then Some (byte c - 48)
          else if (97 <=? lower c) && (lower c <=? 122) then
                 Some (lower c - 97 + 10)
          else None in
        match d with
        | None => inl ErrSyntax
        | Some d =>
            if base <=? d then inl ErrSyntax
            else if cutoff <=? n then inl ErrRange
            else
              let n1 := n * base + d in
              if maxUint64 <? n1 then inl ErrRange
              else ParseUint_loop base cutoff s' n1 underscores
        end
  end.

(** [ParseUint(s, 0, 64)] *)
Definition ParseUint (s : string) : Z * option numerr :=
  match s with
  | EmptyString => (0, Some ErrSyntax)
  | String c0 rest =>
      let '(base, digits) :=
        if Ascii.eqb c0 "0" then
          match rest with
          | String c1 (String c2 r) =>
              if lower c1 =? 98 then (2, String c2 r)
              else if lower c1 =? 111 then (8, String c2 r)
              else if lower c1 =? 120 then (16, String c2 r)
              else (8, rest)
          | _ => (8, rest)
          end
        else (10, s) in
      let cutoff := maxUint64 / base + 1 in
      match ParseUint_loop base cutoff digits 0 false with
      | inl ErrSyntax => (0, Some ErrSyntax)
      | inl ErrRange => (maxUint64, Some ErrRange)
      | inr (n, underscores) =>
          if underscores && negb (underscoreOK s) then (0, Some ErrSyntax)
          else (n, None)
      end
  end.

(** [ParseInt(s, 0, 64)] *)
Definition ParseInt (s : string) : Z * option numerr :=
  match s with
  | EmptyString => (0, Some ErrSyntax)
  | String c0 rest =>
      let '(neg, s1) :=
        if Ascii.eqb c0 "+" then (false, rest)
        else if Ascii.eqb c0 "-" then (true, rest)
        else (false, s) in
      match ParseUint s1 with
      | (_, Some ErrSyntax) => (0, Some ErrSyntax)
      | (un, _) =>
          let cutoff := 2 ^ 63 in
          if negb neg && (cutoff <=? un) then (cutoff - 1, Some ErrRange)
          else if neg && (cutoff <? un) then (- cutoff, Some ErrRange)
          else (if neg then - un else un, None)
      end
  end.

(** [FormatInt(i, 10)] and [FormatUint(u, 10)]: the digits are produced
    from the least significant one, as in [formatBits]. *)
Fixpoint formatBits (fuel : nat) (u : Z) (acc : string) : string :=
  let acc' := String (ascii_of_N (Z.to_N (48 + u mod 10))) acc in
  match fuel with
  | O => acc'
  | S fuel' => if u / 10 =? 0 then acc' else formatBits fuel' (u / 10) acc'
  end.

Definition FormatUint (u : Z) : string :=
  formatBits (Z.to_nat (Z.log2 u)) u EmptyString.

Definition FormatInt (i : Z) : string :=
  if i <? 0 then String "-" (FormatUint (- i)) else FormatUint i.

End strconv.

(** ** Floating point: [float64] and [float32] as [spec_float] *)

Module float.

Definition prec64 : Z := 53.
Definition emax64 : Z := 1024.
Definition prec32 : Z := 24.
Definition emax32 : Z := 128.

(** The nearest [float64] (ties to even) to [m * 2^e]. *)
Definition of_Z_exp (m e : Z) : spec_float :=
  binary_normalize prec64 emax64 m e false.

(** [float64(i)] for an integer [i]. *)
Definition of_Z (i : Z) : spec_float := of_Z_exp i 0.

(** The nearest [float64] to [num / den], for [num, den > 0]. *)
Definition of_ratio (neg : bool) (num den : Z) : spec_float :=
  let '(q, e, l) := SFdiv_core_binary prec64 emax64 num 0 den 0 in
  binary_round_aux prec64 emax64 neg q e l.

(** The nearest [float64] to [(-1)^neg * d * 10^e]. *)
Definition of_decimal (neg : bool) (d e : Z) : spec_float :=
  match d with
  | Z0 => S754_zero neg
  | Zneg _ => S754_nan
  | Zpos p =>
      if 0 <=? e then
        match d * 10 ^ e with
        | Zpos m => binary_round prec64 emax64 neg m 0
        | _ => S754_nan
        end
      else of_ratio neg d (10 ^ (- e))
  end.

(** The nearest [float64] to [(-1)^neg * d * 2^e]. *)
Definition of_binary (neg : bool) (d e : Z) : spec_float :=
  match d with
  | Z0 => S754_zero neg
  | Zneg _ => S754_nan
  | Zpos p => binary_round prec64 emax64 neg p e
  end.

(** A [float32] value seen as a [float64] (exact). *)
Definition widen (f : spec_float) : spec_float :=
  match f with
  | S754_finite s m e => binary_round prec64 emax64 s m e
  | _ => f
  end.

(** [float32(f)] for a [float64] [f]: rounding to nearest, ties to even. *)
Definition narrow (f : spec_float) : spec_float :=
  match f with
  | S754_finite s m e => binary_round prec32 emax32 s m e
  | _ => f
  end.

Definition one : spec_float := of_Z 1.

(** [math.MaxFloat32] *)
Definition MaxFloat32 : spec_float := of_Z ((2 ^ 24 - 1) * 2 ^ 104).

Definition eqb (x y : spec_float) : bool := SFeqb x y.
Definition ltb (x y : spec_float) : bool := SFltb x y.

Definition isNaN (x : spec_float) : bool :=
  match x with S754_nan => true | _ => false end.

Definition isInf (x : spec_float) : bool :=
  match x with S754_infinity _ => true | _ => false end.

(** The integer part of a finite float (rounding toward zero). *)
Definition trunc (f : spec_float) : option Z :=
  match f with
  | S754_zero _ => Some 0
  | S754_finite s m e =>
      let a := if 0 <=? e then Zpos m * 2 ^ e else Zpos m / 2 ^ (- e) in
      Some (if s then - a else a)
  | _ => None
  end.

End float.

(** ** [strconv.ParseFloat(s, 64)] (Go standard library, file [atof.go])

    The accepted syntax follows [special] and [readFloat]; the value is
    the [float64] nearest to the number written, which is what
    [ParseFloat] returns. *)

Module atof.

Import strconv.

(** ASCII letters of [s] folded to lower case, as [commonPrefixLenIgnoreCase]
    compares them. *)
Definition fold_case (c : ascii) : ascii :=
  if (65 <=? byte c) && (byte c <=? 90) then ascii_of_N (Z.to_N (byte c + 32))
  else c.

Fixpoint commonPrefixLenIgnoreCase (s prefix : string) : nat :=
  match s, prefix with
  | String c s', String p prefix' =>
      if Ascii.eqb (fold_case c) p then S (commonPrefixLenIgnoreCase s' prefix')
      else O
  | _, _ => O
  end.

(** [special]: the value and the number of bytes read. *)
Definition special (s : string) : option (spec_float * nat) :=
  let inf (neg : bool) (nsign : nat) (s : string) :=
    let n := commonPrefixLenIgnoreCase s "infinity" in
    let n := if (3 <? n)%nat && (n <? 8)%nat then 3%nat else n in
    if (n =? 3)%nat || (n =? 8)%nat then Some (S754_infinity neg, (nsign + n)%nat)
    else None in
  match s with
  | EmptyString => None
  | String c s' =>
      if Ascii.eqb c "+" then inf false 1%nat s'
      else if Ascii.eqb c "-" then inf true 1%nat s'
      else if Ascii.eqb c "i" || Ascii.eqb c "I" then inf false 0%nat s
      else if Ascii.eqb c "n" || Ascii.eqb c "N" then
        if (commonPrefixLenIgnoreCase s "nan" =? 3)%nat then Some (S754_nan, 3%nat)
        else None
      else None
  end.

(** The mantissa loop of [readFloat]: the digits read as one integer
    [d], the number [frac] of digits after the point, and what is left
    of the string. *)
Fixpoint read_mantissa (hex : bool) (s : string) (d frac : Z)
  (sawdot sawdigits underscores : bool)
  : Z * Z * bool * bool * string :=
  match s with
  | EmptyString => (d, frac, sawdigits, underscores, s)
  | String c s' =>
      if Ascii.eqb c "_" then
        read_mantissa hex s' d frac sawdot sawdigits true
      else if Ascii.eqb c "." then
        if sawdot then (d, frac, sawdigits, underscores, s)
        else read_mantissa hex s' d frac true sawdigits underscores
      else if is_digit c then
        read_mantissa hex s' (d * (if hex then 16 else 10) + (byte c - 48))
          (if sawdot then frac + 1 else frac) sawdot true underscores
      else if hex && (97 <=? lower c) && (lower c <=? 102) then
        read_mantissa hex s' (d * 16 + (lower c - 97 + 10))
          (if sawdot then frac + 1 else frac) sawdot true underscores
      else (d, frac, sawdigits, underscores, s)
  end.

(** The digits of the exponent: [e] stops growing at 10000. *)
Fixpoint read_exp_digits (s : string) (e : Z) (underscores : bool)
  : Z * bool * string :=
  match s with
  | EmptyString => (e, underscores, s)
  | String c s' =>
      if Ascii.eqb c "_" then read_exp_digits s' e true
      else if is_digit c then
        read_exp_digits s' (if e <? 10000 then e * 10 + (byte c - 48) else e)
          underscores
      else (e, underscores, s)
  end.

(** The optional exponent: [None] when it is malformed, else the signed
    exponent, the underscore flag and the rest. *)
Definition read_exponent (hex : bool) (s : string) (underscores : bool)
  : option (Z * bool * string) :=
  match s with
  | String c s' =>
      if lower c =? (if hex then 112 else 101) then
        let '(esign, s1) :=
          match s' with
          | String c1 r =>
              if Ascii.eqb c1 "+" then (1, r)
              else if Ascii.eqb c1 "-" then (-1, r)
              else (1, s')
          | EmptyString => (1, s')
          end in
        match s1 with
        | String c2 _ =>
            if is_digit c2 then
              let '(e, us, rest) := read_exp_digits s1 0 underscores in
              Some (e * esign, us, rest)
            else None
        | EmptyString => None
        end
      else if hex then None
      else Some (0, underscores, s)
  | EmptyString => if hex then None else Some (0, underscores, s)
  end.

(** [readFloat] followed by the conversion: [None] is a syntax error. *)
Definition readFloat (s : string) : option spec_float :=
  match s with
  | EmptyString => None
  | String c0 r0 =>
      let '(neg, s1) :=
        if Ascii.eqb c0 "+" then (false, r0)
        else if Ascii.eqb c0 "-" then (true, r0)
        else (false, s) in
      let '(hex, s2) :=
        match s1 with
        | String a (String b (String c r)) =>
            if Ascii.eqb a "0" && (lower b =? 120) then (true, String c r)
            else (false, s1)
        | _ => (false, s1)
        end in
      let '(d, frac, sawdigits, us, s3) :=
        read_mantissa hex s2 0 0 false false false in
      if negb sawdigits then None
      else
        match read_exponent hex s3 us with
        | Some (e, us, EmptyString) =>
            if us && negb (underscoreOK s) then None
            else if hex then Some (float.of_binary neg d (e - 4 * frac))
            else Some (float.of_decimal neg d (e - frac))
        | _ => None
        end
  end.

Definition ParseFloat (s : string) : spec_float * option numerr :=
  match special s with
  | Some (val, n) =>
      if (n =? String.length s)%nat then (val, None)
      else (S754_zero false, Some ErrSyntax)
  | None =>
      match readFloat s with
      | None => (S754_zero false, Some ErrSyntax)
      | Some f => if float.isInf f then (f, Some ErrRange) else (f, None)
      end
  end.

End atof.

(** ** The allow-list *)

Section Package.

(** The generated table [funcs.NamespacesAndTheirFunctions]: for each
    namespace, the names of its functions. *)
Variable NamespacesAndTheirFunctions : gmap string (gset string).

(** The gate: [_, ok := ctx.allowedFunctionSet[f]]. *)
Definition IsPermitted (set : gset Func) (f : Func) : bool :=
  bool_decide (f ∈ set).

(** One turn of the second loop of [createAllowedFunctionSet]. *)
Definition allow_step (acc : gset string * gset Func) (allowedFunction : Func)
  : gset string * gset Func :=
  let namespace := Namespace allowedFunction in
  let functionName := Name allowedFunction in
  match NamespacesAndTheirFunctions !! namespace with
  | None => acc
  | Some nsSet =>
      if bool_decide (functionName ∈ nsSet) then
        ({[ namespace ]} ∪ acc.1,
         {[ mkFunc (Namespace allowedFunction) (Name allowedFunction) ]} ∪ acc.2)
      else acc
  end.

Definition createAllowedFunctionSet (allowedFunctions : list allowed)
  : gset string * gset Func :=
  let allFunctions :=
    foldl (fun all f => all ++ allowed_Functions f) [] allowedFunctions in
  foldl allow_step (∅, ∅) allFunctions.

(** A descriptor the table knows: its namespace is listed and its name
    is one of the functions of that namespace. *)
Definition recognized (f : Func) : Prop :=
  ∃ nsSet, NamespacesAndTheirFunctions !! Namespace f = Some nsSet
           ∧ Name f ∈ nsSet.

(** The namespace handles: [type Conv rootContext] and its siblings. *)
Inductive handle :=
| Conv (ctx : rootContext) | Cmp (ctx : rootContext)
| Dict (ctx : rootContext) | FilePath (ctx : rootContext)
| JSON (ctx : rootContext) | OS (ctx : rootContext)
| Path (ctx : rootContext) | Regexp (ctx : rootContext)
| Slice (ctx : rootContext) | Strings (ctx : rootContext)
| Tmpl (ctx : rootContext) | URL (ctx : rootContext).

(** An entry of the [template.FuncMap]: the ["return"] closure, or a
    closure that ignores its arguments and yields a namespace handle. *)
Inductive tfunc :=
| Fn1 (f : value -> value * option error)
| FnNamespace (h : handle).

(** The body of the ["return"] entry:
    [func(value any) (any, error) { return nil, ReturnError{Value: value} }] *)
Definition return_fn (v : value) : value * option error :=
  (VNil, Some (ReturnError v)).

(** [if _, ok := allowedNamespaceSet[name]; ok { m[name] = ... }] *)
Definition expose (allowedNamespaceSet : gset string) (name : string)
  (h : handle) (m : gmap string tfunc) : gmap string tfunc :=
  if bool_decide (name ∈ allowedNamespaceSet) then <[name := FnNamespace h]> m
  else m.

Definition FuncMap (t : Template) (allowedFunctions : list allowed)
  : gmap string tfunc :=
  let '(allowedNamespaceSet, allowedFunctionSet) :=
    createAllowedFunctionSet allowedFunctions in
  let m : gmap string tfunc := {[ "return" := Fn1 return_fn ]} in
  let rootCtx := mkRootContext t allowedFunctionSet in
  let m := expose allowedNamespaceSet "conv" (Conv rootCtx) m in
  let m := expose allowedNamespaceSet "cmp" (Cmp rootCtx) m in
  let m := expose allowedNamespaceSet "dict" (Dict rootCtx) m in
  let m := expose allowedNamespaceSet "filepath" (FilePath rootCtx) m in
  let m := expose allowedNamespaceSet "json" (JSON rootCtx) m in
  let m := expose allowedNamespaceSet "os" (OS rootCtx) m in
  let m := expose allowedNamespaceSet "path" (Path rootCtx) m in
  let m := expose allowedNamespaceSet "regexp" (Regexp rootCtx) m in
  let m := expose allowedNamespaceSet "slice" (Slice rootCtx) m in
  let m := expose allowedNamespaceSet "strings" (Strings rootCtx) m in
  let m := expose allowedNamespaceSet "tmpl" (Tmpl rootCtx) m in
  let m := expose allowedNamespaceSet "url" (URL rootCtx) m in
  m.

(** The identifiers [FuncMap] can register as namespaces. *)
Definition namespaces : list string :=
  ["conv"; "cmp"; "dict"; "filepath"; "json"; "os"; "path"; "regexp";
   "slice"; "strings"; "tmpl"; "url"].

(** ** Package [fmt] *)

(** [fmt.Sprint] of one operand.  Booleans, strings and integers are
    printed here; how floats, pointers, slices and the other kinds print
    is left to [Sprint_other]. *)
Variable Sprint_other : value -> string.

Definition fmt_Sprint (v : value) : string :=
  match v with
  | VNil => "<nil>"
  | VBool b => if b then "true" else "false"
  | VString s => s
  | VInt _ i => strconv.FormatInt i
  | VUint _ u => strconv.FormatUint u
  | _ => Sprint_other v
  end.

(** ** [execute.go] *)

(** A writer is the text written to it so far; [fmt.Fprint(wr, v)]
    appends.  The result of the write is discarded by the source. *)
Definition fmt_Fprint (wr : string) (v : value) : string :=
  wr +:+ fmt_Sprint v.

Definition finishExecute (err : option error) (wr : string)
  : option error * string :=
  match err with
  | Some e =>
      match errors_As_ReturnError e with
      | Some Value => (None, fmt_Fprint wr Value)
      | None => (Some (Wrapped "failed to execute template: %w" [] e), wr)
      end
  | None => (None, wr)
  end.

Definition ExecuteTemplate (t : Template) (wr : string) (name : string)
  (data : value) : option error * string :=
  let '(out, err) := tmpl_ExecuteTemplate t name data in
  finishExecute err (wr +:+ out).

Definition Execute (t : Template) (wr : string) (data : value)
  : option error * string :=
  let '(out, err) := tmpl_Execute t data in
  finishExecute err (wr +:+ out).

(** ** [fn_tmpl.go] *)

Definition Tmpl_Exec (ctx : rootContext) (name : string) (data : value)
  : result string :=
  let '(buf, err) := tmpl_ExecuteTemplate (template ctx) name data in
  match err with
  | Some e =>
      match errors_As_ReturnError e with
      | Some Value => Ok (fmt_Sprint Value)
      | None =>
          Err (Wrapped "failed to execute partial template %q: %w" [name] e)
      end
  | None => Ok buf
  end.

(** A later state of the same file makes the data optional and returns
    the value of the signal as it is, leaving the printing to the
    template that uses it:
    [func (ctx Tmpl) Exec(name string, data ...any) (any, error)]. *)
Definition Tmpl_Exec_variadic (ctx : rootContext) (name : string)
  (data : list value) : result value :=
  match data with
  | _ :: _ :: _ => Err OnlyOneArgumentIsAllowedError
  | _ =>
      let arg := match data with [d] => d | _ => VNil end in
      let '(buf, err) := tmpl_ExecuteTemplate (template ctx) name arg in
      match err with
      | Some e =>
          match errors_As_ReturnError e with
          | Some Value => Ok Value
          | None =>
              Err (Wrapped "failed to execute partial template %q: %w"
                     [name] e)
          end
      | None => Ok (VString buf)
      end
  end.

(** ** [fn_conv.go] *)

Definition MinInt8 : Z := - 2 ^ 7.
Definition MaxInt8 : Z := 2 ^ 7 - 1.
Definition MinInt16 : Z := - 2 ^ 15.
Definition MaxInt16 : Z := 2 ^ 15 - 1.
Definition MinInt32 : Z := - 2 ^ 31.
Definition MaxInt32 : Z := 2 ^ 31 - 1.
Definition MinInt64 : Z := - 2 ^ 63.
Definition MaxInt64 : Z := 2 ^ 63 - 1.
Definition MaxUint8 : Z := 2 ^ 8 - 1.
Definition MaxUint16 : Z := 2 ^ 16 - 1.
Definition MaxUint32 : Z := 2 ^ 32 - 1.
Definition MaxUint64 : Z := 2 ^ 64 - 1.

(** [int] and [uint] are 64 bits wide (amd64, arm64). *)
Definition MinInt : Z := MinInt64.
Definition MaxInt : Z := MaxInt64.
Definition MaxUint : Z := MaxUint64.

(** Go leaves the result of converting a float to an integer type that
    cannot represent it to the implementation.  These are the results
    of [int64(f)] and [uint64(f)] in that case. *)
Variable int64_unrepresentable : spec_float -> Z.
Variable uint64_unrepresentable : spec_float -> Z.

(** [int64(f)] *)
Definition int64_of_float (f : spec_float) : Z :=
  match float.trunc f with
  | Some z =>
      if (MinInt64 <=? z) && (z <=? MaxInt64) then z
      else int64_unrepresentable f
  | None => int64_unrepresentable f
  end.

(** [uint64(f)] *)
Definition uint64_of_float (f : spec_float) : Z :=
  match float.trunc f with
  | Some z =>
      if (0 <=? z) && (z <=? MaxUint64) then z
      else uint64_unrepresentable f
  | None => uint64_unrepresentable f
  end.

(** [strings.Contains(str, ",")] *)
Fixpoint contains_comma (str : string) : bool :=
  match str with
  | EmptyString => false
  | String c s => Ascii.eqb c "," || contains_comma s
  end.

(** [strings.ReplaceAll] of the comma by the empty string *)
Fixpoint remove_commas (str : string) : string :=
  match str with
  | EmptyString => EmptyString
  | String c s =>
      if Ascii.eqb c "," then remove_commas s else String c (remove_commas s)
  end.

(** [strings.ToLower] on ASCII letters; other bytes are kept. *)
Fixpoint strings_ToLower (str : string) : string :=
  match str with
  | EmptyString => EmptyString
  | String c s => String (atof.fold_case c) (strings_ToLower s)
  end.

(** [reflect.Indirect(reflect.ValueOf(v))]: a pointer is followed once.
    The nil interface gives the invalid [reflect.Value], whose kind is
    none of those the switches name. *)
Definition reflect_Indirect (v : value) : value :=
  match v with
  | VPtr _ target => target
  | _ => v
  end.

(** [val.Float()]: a [float32] is widened. *)
Definition val_Float (k : fkind) (f : spec_float) : spec_float :=
  match k with
  | KFloat32 => float.widen f
  | KFloat64 => f
  end.

Definition strToFloat64 (str : string) : result spec_float :=
  let str := if contains_comma str then remove_commas str else str in
  match strconv.ParseInt str with
  | (iv, None) => Ok (float.of_Z iv)
  | (_, Some _) =>
      match atof.ParseFloat str with
      | (fv, None) => Ok fv
      | (_, Some cause) =>
          Err (Wrapped "could not convert %q to float64: %w" [str]
                 (NumError "ParseFloat" str cause))
      end
  end.

Definition toBool (in_ : value) : bool :=
  match in_ with
  | VBool b => b
  | VString str =>
      let str := strings_ToLower str in
      if bool_decide (str ∈ ["1"; "t"; "true"; "yes"]) then true
      else
        match strToFloat64 str with
        | Ok f => float.eqb f float.one
        | _ => false
        end
  | _ =>
      match reflect_Indirect in_ with
      | VInt _ i => i =? 1
      | VUint _ u => u =? 1
      | VFloat k f => float.eqb (val_Float k f) float.one
      | _ => false
      end
  end.

Definition toString (in_ : value) : string :=
  match in_ with
  | VNil => EmptyString
  | VString s => s
  | VBytes s => s
  | VOther o =>
      match o_stringer o with
      | Some s => s
      | None => fmt_Sprint in_
      end
  | _ => fmt_Sprint in_
  end.

Definition toFloat64 (v : value) : result spec_float :=
  match v with
  | VString str => strToFloat64 str
  | _ =>
      match reflect_Indirect v with
      | VInt _ i => Ok (float.of_Z i)
      | VUint _ u => Ok (float.of_Z u)
      | VFloat k f => Ok (val_Float k f)
      | VBool b => Ok (if b then float.of_Z 1 else float.of_Z 0)
      | _ => Err (CouldNotConvert v "float64")
      end
  end.

Definition toFloat32 (v : value) : result spec_float :=
  match toFloat64 v with
  | Ok f =>
      if float.ltb float.MaxFloat32 f || float.ltb f (SFopp float.MaxFloat32)
      then Err (WouldOverflowFloat32 f)
      else Ok (float.narrow f)
  | Err e => Err e
  | Panic m => Panic m
  end.

Definition strToInt64 (str : string) : result Z :=
  let str := if contains_comma str then remove_commas str else str in
  match strconv.ParseInt str with
  | (iv, None) => Ok iv
  | (_, Some _) =>
      match atof.ParseFloat str with
      | (fv, None) => Ok (int64_of_float fv)
      | (_, Some cause) =>
          Err (Wrapped "could not convert %q to int64: %w" [str]
                 (NumError "ParseFloat" str cause))
      end
  end.

Definition toInt64 (v : value) : result Z :=
  match v with
  | VString str => strToInt64 str
  | _ =>
      match reflect_Indirect v with
      | VInt _ i => Ok i
      | VUint (KUint8 | KUint16 | KUint32) u => Ok u
      | VUint (KUint | KUint64) tv =>
          if MaxInt64 <? tv then Err (WouldOverflowInt64 tv) else Ok tv
      | VFloat k f => Ok (int64_of_float (val_Float k f))
      | VBool b => Ok (if b then 1 else 0)
      | _ => Err (CouldNotConvert v "int64")
      end
  end.

(** [toInt[T]]: the type parameter only fixes the result type, the
    bounds are arguments. *)
Definition toInt (v : value) (minValue maxValue : Z) : result Z :=
  match toInt64 v with
  | Ok i64 =>
      if (i64 <? minValue) || (maxValue <? i64) then Err (WouldOverflowInt i64)
      else Ok i64
  | Err e => Err e
  | Panic m => Panic m
  end.

Definition strToUint64 (str : string) : result Z :=
  let str := if contains_comma str then remove_commas str else str in
  match strconv.ParseUint str with
  | (iv, None) => Ok iv
  | (_, Some _) =>
      match atof.ParseFloat str with
      | (fv, None) => Ok (uint64_of_float fv)
      | (_, Some cause) =>
          Err (Wrapped "could not convert %q to uint64: %w" [str]
                 (NumError "ParseFloat" str cause))
      end
  end.

Definition toUint64 (v : value) : result Z :=
  match v with
  | VString str => strToUint64 str
  | _ =>
      match reflect_Indirect v with
      | VUint _ u => Ok u
      | VInt (KInt8 | KInt16 | KInt32) i => Ok (i mod 2 ^ 64)
      | VInt (KInt | KInt64) tv =>
          if tv <? 0 then Err (WouldOverflowInt64 tv) else Ok tv
      | VFloat k f => Ok (uint64_of_float (val_Float k f))
      | VBool b => Ok (if b then 1 else 0)
      | _ => Err (CouldNotConvert v "int64")
      end
  end.

Definition toUint (v : value) (maxValue : Z) : result Z :=
  match toUint64 v with
  | Ok i64 =>
      if maxValue <? i64 then Err (WouldOverflowInt i64) else Ok i64
  | Err e => Err e
  | Panic m => Panic m
  end.

(** The methods of [Conv].  Each starts with the gate. *)

Definition Conv_ToBool (ctx : rootContext) (in_ : value) : result bool :=
  if negb (IsPermitted (allowedFunctionSet ctx) ConvToBool) then
    Err (FuncNotAllowedError ConvToBool)
  else Ok (toBool in_).

Definition Conv_ToString (ctx : rootContext) (in_ : value) : result string :=
  if negb (IsPermitted (allowedFunctionSet ctx) ConvToString) then
    Err (FuncNotAllowedError ConvToString)
  else Ok (toString in_).

Definition Conv_ToFloat64 (ctx : rootContext) (v : value) : result spec_float :=
  if negb (IsPermitted (allowedFunctionSet ctx) ConvToFloat64) then
    Err (FuncNotAllowedError ConvToFloat64)
  else toFloat64 v.

Definition Conv_ToFloat32 (ctx : rootContext) (v : value) : result spec_float :=
  if negb (IsPermitted (allowedFunctionSet ctx) ConvToFloat32) then
    Err (FuncNotAllowedError ConvToFloat32)
  else toFloat32 v.

Definition Conv_ToInt64 (ctx : rootContext) (v : value) : result Z :=
  if negb (IsPermitted (allowedFunctionSet ctx) ConvToInt64) then
    Err (FuncNotAllowedError ConvToInt64)
  else
    match toInt64 v with
    | Ok i => Ok i
    | Err err => Err err
    | Panic m => Panic m
    end.

Definition Conv_ToInt8 (ctx : rootContext) (v : value) : result Z :=
  if negb (IsPermitted (allowedFunctionSet ctx) ConvToInt8) then
    Err (FuncNotAllowedError ConvToInt8)
  else
    match toInt v MinInt8 MaxInt8 with
    | Ok i => Ok i
    | Err err => Err err
    | Panic m => Panic m
    end.

Definition Conv_ToInt16 (ctx : rootContext) (v : value) : result Z :=
  if negb (IsPermitted (allowedFunctionSet ctx) ConvToInt16) then
    Err (FuncNotAllowedError ConvToInt16)
  else
    match toInt v MinInt16 MaxInt16 with
    | Ok i => Ok i
    | Err err => Err err
    | Panic m => Panic m
    end.

Definition Conv_ToInt32 (ctx : rootContext) (v : value) : result Z :=
  if negb (IsPermitted (allowedFunctionSet ctx) ConvToInt32) then
    Err (FuncNotAllowedError ConvToInt32)
  else
    match toInt v MinInt32 MaxInt32 with
    | Ok i => Ok i
    | Err err => Err err
    | Panic m => Panic m
    end.

Definition Conv_ToInt (ctx : rootContext) (v : value) : result Z :=
  if negb (IsPermitted (allowedFunctionSet ctx) ConvToInt) then
    Err (FuncNotAllowedError ConvToInt)
  else
    match toInt v MinInt MaxInt with
    | Ok i => Ok i
    | Err err => Err err
    | Panic m => Panic m
    end.

Definition Conv_ToUint64 (ctx : rootContext) (v : value) : result Z :=
  if negb (IsPermitted (allowedFunctionSet ctx) ConvToUint64) then
    Err (FuncNotAllowedError ConvToUint64)
  else
    match toUint64 v with
    | Ok i => Ok i
    | Err err => Err err
    | Panic m => Panic m
    end.

Definition Conv_ToUint8 (ctx : rootContext) (v : value) : result Z :=
  if negb (IsPermitted (allowedFunctionSet ctx) ConvToUint8) then
    Err (FuncNotAllowedError ConvToUint8)
  else
    match toUint v MaxUint8 with
    | Ok i => Ok i
    | Err err => Err err
    | Panic m => Panic m
    end.

Definition Conv_ToUint16 (ctx : rootContext) (v : value) : result Z :=
  if negb (IsPermitted (allowedFunctionSet ctx) ConvToUint16) then
    Err (FuncNotAllowedError ConvToUint16)
  else
    match toUint v MaxUint16 with
    | Ok i => Ok i
    | Err err => Err err
    | Panic m => Panic m
    end.

Definition Conv_ToUint32 (ctx : rootContext) (v : value) : result Z :=
  if negb (IsPermitted (allowedFunctionSet ctx) ConvToUint32) then
    Err (FuncNotAllowedError ConvToUint32)
  else
    match toUint v MaxUint32 with
    | Ok i => Ok i
    | Err err => Err err
    | Panic m => Panic m
    end.

Definition Conv_ToUint (ctx : rootContext) (v : value) : result Z :=
  if negb (IsPermitted (allowedFunctionSet ctx) ConvToUint) then
    Err (FuncNotAllowedError ConvToUint)
  else
    match toUint v MaxUint with
    | Ok i => Ok i
    | Err err => Err err
    | Panic m => Panic m
    end.

(** The targets of the conversions and the method of [Conv] for each. *)
Inductive target :=
| ToBool | ToString
| ToIntOf (k : ikind) | ToUintOf (k : ukind) | ToFloatOf (k : fkind).

Definition target_func (tg : target) : Func :=
  match tg with
  | ToBool => ConvToBool
  | ToString => ConvToString
  | ToIntOf KInt8 => ConvToInt8
  | ToIntOf KInt16 => ConvToInt16
  | ToIntOf KInt32 => ConvToInt32
  | ToIntOf KInt64 => ConvToInt64
  | ToIntOf KInt => ConvToInt
  | ToUintOf KUint8 => ConvToUint8
  | ToUintOf KUint16 => ConvToUint16
  | ToUintOf KUint32 => ConvToUint32
  | ToUintOf KUint64 => ConvToUint64
  | ToUintOf KUint => ConvToUint
  | ToFloatOf KFloat32 => ConvToFloat32
  | ToFloatOf KFloat64 => ConvToFloat64
  end.

Definition result_map {A B : Type} (f : A → B) (r : result A) : result B :=
  match r with
  | Ok a => Ok (f a)
  | Err e => Err e
  | Panic m => Panic m
  end.

Definition Conv_call (ctx : rootContext) (tg : target) (v : value)
  : result value :=
  match tg with
  | ToBool => result_map VBool (Conv_ToBool ctx v)
  | ToString => result_map VString (Conv_ToString ctx v)
  | ToIntOf KInt8 => result_map (VInt KInt8) (Conv_ToInt8 ctx v)
  | ToIntOf KInt16 => result_map (VInt KInt16) (Conv_ToInt16 ctx v)
  | ToIntOf KInt32 => result_map (VInt KInt32) (Conv_ToInt32 ctx v)
  | ToIntOf KInt64 => result_map (VInt KInt64) (Conv_ToInt64 ctx v)
  | ToIntOf KInt => result_map (VInt KInt) (Conv_ToInt ctx v)
  | ToUintOf KUint8 => result_map (VUint KUint8) (Conv_ToUint8 ctx v)
  | ToUintOf KUint16 => result_map (VUint KUint16) (Conv_ToUint16 ctx v)
  | ToUintOf KUint32 => result_map (VUint KUint32) (Conv_ToUint32 ctx v)
  | ToUintOf KUint64 => result_map (VUint KUint64) (Conv_ToUint64 ctx v)
  | ToUintOf KUint => result_map (VUint KUint) (Conv_ToUint ctx v)
  | ToFloatOf KFloat32 => result_map (VFloat KFloat32) (Conv_ToFloat32 ctx v)
  | ToFloatOf KFloat64 => result_map (VFloat KFloat64) (Conv_ToFloat64 ctx v)
  end.


(** The bounds each [Conv.ToIntN] passes to [toInt]; [ToInt64] has no
    check of its own. *)
Definition int_min (k : ikind) : Z :=
  match k with
  | KInt8 => MinInt8 | KInt16 => MinInt16 | KInt32 => MinInt32
  | KInt64 => MinInt64 | KInt => MinInt
  end.

Definition int_max (k : ikind) : Z :=
  match k with
  | KInt8 => MaxInt8 | KInt16 => MaxInt16 | KInt32 => MaxInt32
  | KInt64 => MaxInt64 | KInt => MaxInt
  end.

(** The number a string of decimal digits denotes, read after [n]. *)
Fixpoint decode (s : string) (n : Z) : Z :=
  match s with
  | EmptyString => n
  | String c s' => decode s' (n * 10 + (strconv.byte c - 48))
  end.

Fixpoint all_digits (s : string) : bool :=
  match s with
  | EmptyString => true
  | String c s' => strconv.is_digit c && all_digits s'
  end.

(** ** Pass-through methods

    A pass-through method hands its arguments to a function of the Go
    standard library.  Such a call is recorded as a [host_call]; [host]
    gives what the library returns.  A method yields its result and the
    calls it made, in order. *)

Inductive host_call := Call (pkg fn : string) (args : list value).

Variable host : host_call -> value * option error.

Definition traced (A : Type) : Type := A * list host_call.

(** [fn_strings.go] *)
Definition Strings_IndexAny (ctx : rootContext) (s1 chars : string)
  : traced (result value) :=
  let c := Call "strings" "IndexAny" [VString s1; VString chars] in
  (Ok (host c).1, [c]).

Definition Strings_IndexByte (ctx : rootContext) (s : string) (c : Z)
  : traced (result value) :=
  if negb (IsPermitted (allowedFunctionSet ctx) StringsIndexByte) then
    (Err (FuncNotAllowedError StringsIndexByte), [])
  else
    let c := Call "strings" "IndexByte" [VString s; VUint KUint8 c] in
    (Ok (host c).1, [c]).

(** [os.Setenv] in the file of the [OS] methods *)
Definition OS_Setenv (ctx : rootContext) (key value_ : string)
  : traced (option error) :=
  if negb (IsPermitted (allowedFunctionSet ctx) OSSetenv) then
    (Some (FuncNotAllowedError OSSetenv), [])
  else
    let c := Call "os" "Setenv" [VString key; VString value_] in
    ((host c).2, [c]).

(** [fn_json.go].  The argument of [JSON.Marshal] is a [map[any]any],
    given by its entries in the order the loop meets them, or some other
    value. *)
Inductive marshal_arg :=
| MapAnyAny (entries : list (value * value))
| NotMapAnyAny (v : value).

(** The [map[string]any] with the given entries, as a dynamic value. *)
Variable map_string_any : list (string * value) → value.

(** The loop that turns the keys into strings; it stops at the first
    key that is no string. *)
Fixpoint string_keys (m : list (value * value))
  : result (list (string * value)) :=
  match m with
  | [] => Ok []
  | (k, v) :: rest =>
      match k with
      | VString s =>
          match string_keys rest with
          | Ok m2 => Ok ((s, v) :: m2)
          | other => other
          end
      | _ => Err (MapKeyNotString k)
      end
  end.

Definition JSON_Marshal (ctx : rootContext) (v : marshal_arg)
  : traced (result value) :=
  let converted :=
    match v with
    | MapAnyAny m => result_map map_string_any (string_keys m)
    | NotMapAnyAny v => Ok v
    end in
  match converted with
  | Ok v =>
      if negb (IsPermitted (allowedFunctionSet ctx) JSONMarshal) then
        (Err (FuncNotAllowedError JSONMarshal), [])
      else
        let c := Call "json" "Marshal" [v] in
        match (host c).2 with
        | Some err => (Err err, [c])
        | None => (Ok (host c).1, [c])
        end
  | Err e => (Err e, [])
  | Panic m => (Panic m, [])
  end.

(** [Regexp.FindAllStringIndex].  Its gate looks
    [funcs.RegexpFindAllString] up, as the method before it does. *)
Definition Regexp_FindAllStringIndex (ctx : rootContext)
  (pattern s : string) (n : Z) : traced (result value) :=
  if negb (IsPermitted (allowedFunctionSet ctx) RegexpFindAllString) then
    (Err (FuncNotAllowedError RegexpFindAllString), [])
  else
    let c1 := Call "regexp" "Compile" [VString pattern] in
    match (host c1).2 with
    | Some err => (Err err, [c1])
    | None =>
        let c2 :=
          Call "regexp" "FindAllStringIndex"
            [VString pattern; VString s; VInt KInt n] in
        (Ok (host c2).1, [c1; c2])
    end.

(** ** Slices and their backing arrays *)

(** The heap: backing arrays by address. *)
Abbreviation heap := (gmap positive (list value)).

(** The elements a slice header denotes. *)
Definition load (h : heap) (s : slice) : list value :=
  take (s_len s) (drop (s_off s) (default [] (h !! s_ptr s))).

(** Writing [xs] over the elements of [s], in place. *)
Definition store (h : heap) (s : slice) (xs : list value) : heap :=
  match h !! s_ptr s with
  | Some a =>
      <[s_ptr s := take (s_off s) a ++ xs ++ drop (s_off s + s_len s) a]> h
  | None => h
  end.

(** A new backing array. *)
Definition alloc (h : heap) (a : list value) : positive * heap :=
  let p := fresh (dom h) in (p, <[p := a]> h).

(** [slices.Clone(s)], that is [append(s[:0:0], s...)]: with nothing to
    append the empty slice [s[:0:0]] is returned, otherwise the elements
    go to a new array. *)
Definition slices_Clone (h : heap) (s : slice) : slice * heap :=
  if (s_len s =? 0)%nat then (mkSlice (s_ptr s) (s_off s) 0, h)
  else
    let '(p, h') := alloc h (load h s) in
    (mkSlice p 0 (s_len s), h').

(** Insertion sort as [slices.Sort] and [slices.SortFunc] run it (on
    slices of at most 12 elements; longer ones go through pattern
    defeating quicksort, which sorts as well and may only order elements
    that compare equal differently).  [insert_back] moves [x] from the
    right end of the sorted prefix to its place; the prefix is held in
    reverse. *)
Fixpoint insert_back (less : value -> value -> bool) (x : value)
  (prefix_rev : list value) : list value :=
  match prefix_rev with
  | [] => [x]
  | y :: r => if less x y then y :: insert_back less x r else x :: y :: r
  end.

Definition insertionSort (less : value -> value -> bool) (data : list value)
  : list value :=
  rev (foldl (fun prefix_rev x => insert_back less x prefix_rev) [] data).

(** [cmp.Less] on floats: NaN sorts before every other value. *)
Definition cmpLess_float (x y : spec_float) : bool :=
  (float.isNaN x && negb (float.isNaN y)) || float.ltb x y.

(** Go's [<] on strings: byte-wise lexicographic. *)
Definition string_ltb (a b : string) : bool :=
  match String.compare a b with Lt => true | _ => false end.

(** The comparison function of [sortBool]. *)
Definition sortBool_cmp (a b : bool) : Z :=
  if Bool.eqb a b then 0
  else if negb a && b then -1
  else 1.

(** The order [slices.Sort] uses on each element type ([cmp.Less]), and
    this of [sortBool] on booleans. *)
Definition less (t : elemtype) (x y : value) : bool :=
  match t, x, y with
  | TBool, VBool a, VBool b => sortBool_cmp a b <? 0
  | TString, VString a, VString b => string_ltb a b
  | TFloat _, VFloat _ a, VFloat _ b => cmpLess_float a b
  | TInt _, VInt _ a, VInt _ b => a <? b
  | TUint _, VUint _ a, VUint _ b => a <? b
  | _, _, _ => false
  end.

(** [slices.Sort(sl)], in place. *)
Definition slices_Sort (t : elemtype) (h : heap) (sl : slice) : heap :=
  store h sl (insertionSort (less t) (load h sl)).

(** [sortBool(sl)], in place. *)
Definition sortBool (h : heap) (sl : slice) : heap :=
  store h sl
    (insertionSort
       (fun a b => match a, b with
                   | VBool a, VBool b => sortBool_cmp a b <? 0
                   | _, _ => false
                   end)
       (load h sl)).

(** A [[]byte] is a [[]uint8].  [VBytes] holds one by its contents, not
    by a header into the heap: its elements are these, and a method that
    returns a new [[]uint8] for one returns a [VBytes]. *)
Definition bytes_elems (b : string) : list value :=
  map (fun c => VUint KUint8 (strconv.byte c)) (String.list_ascii_of_string b).

(** The [[]byte] holding given elements. *)
Definition elems_bytes (l : list value) : string :=
  String.string_of_list_ascii
    (omap (fun v => match v with
                    | VUint _ u => Some (ascii_of_N (Z.to_N u))
                    | _ => None
                    end) l).

(** The values an element type holds. *)
Definition has_type (t : elemtype) (v : value) : Prop :=
  match t, v with
  | TAny, _ => True
  | TBool, VBool _ => True
  | TString, VString _ => True
  | TFloat k, VFloat k' _ => k = k'
  | TInt k, VInt k' _ => k = k'
  | TUint k, VUint k' _ => k = k'
  | _, _ => False
  end.

Definition ErrCannotSortAnySlice : error :=
  ErrorString "cannot sort []any slices".
Definition ErrArgNotSlice : error :=
  ErrorString "argument must be a slice".

(** The element types the type switches of the [Slice] methods name:
    [[]uint] is not among them. *)
Definition in_switch (t : elemtype) : bool :=
  match t with
  | TUint KUint => false
  | _ => true
  end.

Definition Slice_Sort (ctx : rootContext) (s : value) (h : heap)
  : result value * heap :=
  if negb (IsPermitted (allowedFunctionSet ctx) SliceSort) then
    (Err (FuncNotAllowedError SliceSort), h)
  else
    match s with
    | VSlice TAny _ => (Err ErrCannotSortAnySlice, h)
    | VSlice TBool sl =>
        let '(sl, h) := slices_Clone h sl in
        let h := sortBool h sl in
        (Ok (VSlice TBool sl), h)
    | VSlice t sl =>
        if in_switch t then
          let '(sl, h) := slices_Clone h sl in
          let h := slices_Sort t h sl in
          (Ok (VSlice t sl), h)
        else (Err ErrArgNotSlice, h)
    | VBytes b =>
        (Ok (VBytes (elems_bytes
                       (insertionSort (less (TUint KUint8)) (bytes_elems b)))),
         h)
    | _ => (Err ErrArgNotSlice, h)
    end.

(** Whether Go can hash a value, as a key of [map[T]struct{}]. *)
Definition hashable (v : value) : bool :=
  match v with
  | VSlice _ _ | VBytes _ => false
  | VOther o => o_hashable o
  | _ => true
  end.

(** Go's [==] on two hashable values of an interface or of one element
    type. *)
Definition go_eq (x y : value) : bool :=
  match x, y with
  | VNil, VNil => true
  | VBool a, VBool b => Bool.eqb a b
  | VString a, VString b => bool_decide (a = b)
  | VInt k a, VInt k' b => bool_decide (k = k') && (a =? b)
  | VUint k a, VUint k' b => bool_decide (k = k') && (a =? b)
  | VFloat k a, VFloat k' b => bool_decide (k = k') && float.eqb a b
  | VPtr a _, VPtr b _ => (a =? b)%N
  | VOther o, VOther o' =>
      bool_decide (o_kind o = o_kind o') && (o_id o =? o_id o')%N
  | _, _ => false
  end.

(** The type the run time names when it fails to hash a key: for a
    slice its type; for a value of another kind its own type (a map, a
    function) or the type of the part of it that cannot be hashed, which
    the model leaves open. *)
Variable unhashable_type_other : opaque -> string.

(** [reflect.Type.String] of the element types. *)
Definition elemtype_String (t : elemtype) : string :=
  match t with
  | TAny => "interface {}"
  | TBool => "bool"
  | TString => "string"
  | TFloat KFloat32 => "float32"
  | TFloat KFloat64 => "float64"
  | TInt KInt8 => "int8"
  | TInt KInt16 => "int16"
  | TInt KInt32 => "int32"
  | TInt KInt64 => "int64"
  | TInt KInt => "int"
  | TUint KUint8 => "uint8"
  | TUint KUint16 => "uint16"
  | TUint KUint32 => "uint32"
  | TUint KUint64 => "uint64"
  | TUint KUint => "uint"
  end.

Definition unhashable_type (v : value) : string :=
  match v with
  | VSlice t _ => "[]" +:+ elemtype_String t
  | VBytes _ => "[]uint8"
  | VOther o => unhashable_type_other o
  | _ => EmptyString
  end.

(** The loop of [uniqSlice]; [seen] holds the keys of the map, in the
    order they were added.  [inl msg] is the panic of the run time on an
    unhashable key, with its message. *)
Fixpoint uniqSlice_loop (sl seen result : list value)
  : string + list value :=
  match sl with
  | [] => inr result
  | v :: sl' =>
      if negb (hashable v) then
        inl ("runtime error: hash of unhashable type " +:+ unhashable_type v)
      else if existsb (go_eq v) seen then uniqSlice_loop sl' seen result
      else uniqSlice_loop sl' (seen ++ [v]) (result ++ [v])
  end.

Definition uniqSlice (sl : list value) : string + list value :=
  uniqSlice_loop sl [] [].

(** The first occurrences, as the specification words them: going through the
    input, an element is kept exactly when no element before it in the
    input is equal to it.  [earlier] holds the elements gone through. *)
Fixpoint first_occurrences_from (earlier l : list value) : list value :=
  match l with
  | [] => []
  | v :: l' =>
      if existsb (go_eq v) earlier then first_occurrences_from (earlier ++ [v]) l'
      else v :: first_occurrences_from (earlier ++ [v]) l'
  end.

Definition first_occurrences (l : list value) : list value :=
  first_occurrences_from [] l.

Definition Slice_Unique (ctx : rootContext) (s : value) (h : heap)
  : result value * heap :=
  if negb (IsPermitted (allowedFunctionSet ctx) SliceUnique) then
    (Err (FuncNotAllowedError SliceUnique), h)
  else
    match s with
    | VSlice t sl =>
        if in_switch t then
          match uniqSlice (load h sl) with
          | inr r =>
              let '(p, h') := alloc h r in
              (Ok (VSlice t (mkSlice p 0 (length r))), h')
          | inl msg => (Panic msg, h)
          end
        else (Err ErrArgNotSlice, h)
    | VBytes b =>
        match uniqSlice (bytes_elems b) with
        | inr r => (Ok (VBytes (elems_bytes r)), h)
        | inl msg => (Panic msg, h)
        end
    | _ => (Err ErrArgNotSlice, h)
    end.

(** ** Further functions of the package *)

(** The context and the identifier of a namespace handle. *)
Definition handle_ctx (h : handle) : rootContext :=
  match h with
  | Conv c | Cmp c | Dict c | FilePath c | JSON c | OS c
  | Path c | Regexp c | Slice c | Strings c | Tmpl c | URL c => c
  end.

Definition handle_name (h : handle) : string :=
  match h with
  | Conv _ => "conv" | Cmp _ => "cmp" | Dict _ => "dict"
  | FilePath _ => "filepath" | JSON _ => "json" | OS _ => "os"
  | Path _ => "path" | Regexp _ => "regexp" | Slice _ => "slice"
  | Strings _ => "strings" | Tmpl _ => "tmpl" | URL _ => "url"
  end.

(** All the functions a list of descriptors names: the first loop of
    [createAllowedFunctionSet]. *)
Definition allFunctions (allowedFunctions : list allowed) : list Func :=
  concat (map allowed_Functions allowedFunctions).

(** [execute.go]: [QuickExecute].  Parsing belongs to [text/template]:
    [template_Parse funcs text] stands for
    [tmpl := template.New("template"); tmpl.Funcs(funcs(tmpl)).Parse(text)],
    the function map being built for the template under construction. *)
Variable template_Parse :
  (Template → gmap string tfunc) → string → Template + error.

Definition QuickExecute (tmplStr : string) (data : value)
  (allowedFunctions : list allowed) : string * option error :=
  match template_Parse (λ tmpl, FuncMap tmpl allowedFunctions) tmplStr with
  | inl tmpl =>
      let '(err, buf) := Execute tmpl EmptyString data in
      match err with
      | Some err =>
          (EmptyString, Some (Wrapped "failed to execute template: %w" [] err))
      | None => (buf, None)
      end
  | inr err =>
      (EmptyString, Some (Wrapped "failed to parse template: %w" [] err))
  end.

(** The largest value of each unsigned type, as the [Conv.ToUintN] pass
    it to [toUint]; [ToUint64] has no check of its own. *)
Definition uint_max (k : ukind) : Z :=
  match k with
  | KUint8 => MaxUint8 | KUint16 => MaxUint16 | KUint32 => MaxUint32
  | KUint64 => MaxUint64 | KUint => MaxUint
  end.

(** *** [fn_conv.go]: conversions of lists *)

(** The loop of the conversions of a list that cannot fail:
    [out := make([]T, len(in))], then [out[i] = f(v)] for each index. *)
Fixpoint fill_from {T : Type} (f : value → T) (i : nat) (in_ : list value)
  (out : list T) : list T :=
  match in_ with
  | [] => out
  | v :: in' => fill_from f (S i) in' (<[i := f v]> out)
  end.

(** The loop of those that can: [out[i], err = f(v)], returning [nil]
    and the error at the first one. *)
Fixpoint convert_from {T : Type} (f : value → result T) (i : nat)
  (in_ : list value) (out : list T) : result (list T) :=
  match in_ with
  | [] => Ok out
  | v :: in' =>
      match f v with
      | Ok x => convert_from f (S i) in' (<[i := x]> out)
      | Err e => Err e
      | Panic m => Panic m
      end
  end.

Definition toBools (in_ : list value) : list bool :=
  fill_from toBool 0 in_ (replicate (length in_) false).

Definition toStrings (in_ : list value) : list string :=
  fill_from toString 0 in_ (replicate (length in_) EmptyString).

Definition toFloat64s (in_ : list value) : result (list spec_float) :=
  convert_from toFloat64 0 in_ (replicate (length in_) (S754_zero false)).

Definition toFloat32s (in_ : list value) : result (list spec_float) :=
  convert_from toFloat32 0 in_ (replicate (length in_) (S754_zero false)).

Definition toInt64s (in_ : list value) : result (list Z) :=
  convert_from toInt64 0 in_ (replicate (length in_) 0).

Definition toInts (in_ : list value) (minValue maxValue : Z)
  : result (list Z) :=
  convert_from (fun v => toInt v minValue maxValue) 0 in_
    (replicate (length in_) 0).

Definition toUint64s (in_ : list value) : result (list Z) :=
  convert_from toUint64 0 in_ (replicate (length in_) 0).

Definition toUints (in_ : list value) (maxValue : Z) : result (list Z) :=
  convert_from (fun v => toUint v maxValue) 0 in_ (replicate (length in_) 0).

(** What it is for a conversion of lists [F] to convert each element
    with [f]: it returns a list exactly when every element converts,
    holding the converted elements in order, and an error exactly when
    that is the error of the first element that does not convert. *)
Definition converts_each {T : Type} (f : value → result T)
  (F : list value → result (list T)) : Prop :=
  ∀ l,
    (∀ out, F l = Ok out ↔ Forall2 (λ v x, f v = Ok x) l out)
    ∧ (∀ e, F l = Err e
            ↔ ∃ i v, l !! i = Some v ∧ f v = Err e
                     ∧ Forall (λ w, ∃ x, f w = Ok x) (take i l)).

(** *** [fn_cmp.go] *)

Definition CmpOr : Func := mkFunc "cmp" "Or".

Definition ErrAtLeastOneArgumentIsRequired : error :=
  ErrorString "at least one argument is required".
Definition ErrOnlyOneSliceIsAllowed : error :=
  ErrorString "only one slice argument is allowed".

(** [cmp.Or(vals...)] of the Go standard library: the first value that
    is not the zero value of [T], and the zero value when there is
    none. *)
Fixpoint cmp_Or {T : Type} (is_zero : T → bool) (zero : T) (vals : list T)
  : T :=
  match vals with
  | [] => zero
  | val :: vals' => if is_zero val then cmp_Or is_zero zero vals' else val
  end.

(** The zero value of an element type, and Go's [v == zero] on a value
    of a scalar type. *)
Definition zero_value (t : elemtype) : value :=
  match t with
  | TAny => VNil
  | TBool => VBool false
  | TString => VString EmptyString
  | TFloat k => VFloat k (S754_zero false)
  | TInt k => VInt k 0
  | TUint k => VUint k 0
  end.

Definition float_is_zero (f : spec_float) : bool :=
  float.eqb f (S754_zero false).

Definition string_is_empty (s : string) : bool :=
  match s with EmptyString => true | _ => false end.

Definition is_zero (v : value) : bool :=
  match v with
  | VNil => true
  | VBool b => negb b
  | VString s => string_is_empty s
  | VInt _ i => i =? 0
  | VUint _ u => u =? 0
  | VFloat _ f => float_is_zero f
  | _ => false
  end.

(** [v == nil] on an interface value. *)
Definition is_nil (v : value) : bool :=
  match v with VNil => true | _ => false end.

(** [Cmp.Or].  The type of the first argument selects the branch: for a
    scalar type all the arguments are converted to it, then [cmp.Or]
    runs on the converted list; a typed slice must come alone and
    [cmp.Or] runs on its elements; every other first argument, the
    [nil] interface, a [uint], a [[]any] and a [[]uint] included, leads
    to [cmp.Or] on the arguments as they are. *)
Definition Cmp_Or (ctx : rootContext) (s : list value) (h : heap)
  : result value :=
  if negb (IsPermitted (allowedFunctionSet ctx) CmpOr) then
    Err (FuncNotAllowedError CmpOr)
  else
    match s with
    | [] => Err ErrAtLeastOneArgumentIsRequired
    | s0 :: _ =>
        match s0 with
        | VBool _ => Ok (VBool (cmp_Or negb false (toBools s)))
        | VFloat KFloat32 _ =>
            result_map
              (fun v => VFloat KFloat32 (cmp_Or float_is_zero (S754_zero false) v))
              (toFloat32s s)
        | VFloat KFloat64 _ =>
            result_map
              (fun v => VFloat KFloat64 (cmp_Or float_is_zero (S754_zero false) v))
              (toFloat64s s)
        | VString _ =>
            Ok (VString (cmp_Or string_is_empty EmptyString (toStrings s)))
        | VInt KInt _ =>
            result_map (fun v => VInt KInt (cmp_Or (Z.eqb 0) 0 v))
              (toInts s MinInt MaxInt)
        | VInt KInt8 _ =>
            result_map (fun v => VInt KInt8 (cmp_Or (Z.eqb 0) 0 v))
              (toInts s MinInt8 MaxInt8)
        | VInt KInt16 _ =>
            result_map (fun v => VInt KInt16 (cmp_Or (Z.eqb 0) 0 v))
              (toInts s MinInt16 MaxInt16)
        | VInt KInt32 _ =>
            result_map (fun v => VInt KInt32 (cmp_Or (Z.eqb 0) 0 v))
              (toInts s MinInt32 MaxInt32)
        | VInt KInt64 _ =>
            result_map (fun v => VInt KInt64 (cmp_Or (Z.eqb 0) 0 v))
              (toInt64s s)
        | VUint KUint8 _ =>
            result_map (fun v => VUint KUint8 (cmp_Or (Z.eqb 0) 0 v))
              (toUints s MaxUint8)
        | VUint KUint16 _ =>
            result_map (fun v => VUint KUint16 (cmp_Or (Z.eqb 0) 0 v))
              (toUints s MaxUint16)
        | VUint KUint32 _ =>
            result_map (fun v => VUint KUint32 (cmp_Or (Z.eqb 0) 0 v))
              (toUints s MaxUint32)
        | VUint KUint64 _ =>
            result_map (fun v => VUint KUint64 (cmp_Or (Z.eqb 0) 0 v))
              (toUint64s s)
        | VBytes b =>
            if negb (length s =? 1)%nat then Err ErrOnlyOneSliceIsAllowed
            else Ok (cmp_Or is_zero (zero_value (TUint KUint8)) (bytes_elems b))
        | VSlice t sl =>
            match t with
            | TAny | TUint KUint => Ok (cmp_Or is_nil VNil s)
            | _ =>
                if negb (length s =? 1)%nat then Err ErrOnlyOneSliceIsAllowed
                else Ok (cmp_Or is_zero (zero_value t) (load h sl))
            end
        | _ => Ok (cmp_Or is_nil VNil s)
        end
    end.

(** *** [fn_slice.go]: [Reverse], [Len], [Compact] *)

Definition SliceReverse : Func := mkFunc "slice" "Reverse".
Definition SliceLen : Func := mkFunc "slice" "Len".
Definition SliceCompact : Func := mkFunc "slice" "Compact".

Definition ErrCannotCompactAnySlice : error :=
  ErrorString "cannot compact []any slices".

(** [toAnySlice(in)]: a new [[]any] of the length of [in], filled with
    its elements. *)
Definition toAnySlice (h : heap) (in_ : list value) : slice * heap :=
  let '(p, h') := alloc h in_ in (mkSlice p 0 (length in_), h').

(** [slices.Reverse(sl)], in place. *)
Definition slices_Reverse (h : heap) (sl : slice) : heap :=
  store h sl (rev (load h sl)).

(** [Slice.Reverse] on a [[]any]: the gate, then the first case of the
    switch.  The other cases call the method again on the result of
    [toAnySlice], so they come here. *)
Definition Slice_Reverse_any (ctx : rootContext) (sl : slice) (h : heap)
  : result value * heap :=
  if negb (IsPermitted (allowedFunctionSet ctx) SliceReverse) then
    (Err (FuncNotAllowedError SliceReverse), h)
  else
    let '(sl, h) := slices_Clone h sl in
    let h := slices_Reverse h sl in
    (Ok (VSlice TAny sl), h).

Definition Slice_Reverse (ctx : rootContext) (s : value) (h : heap)
  : result value * heap :=
  if negb (IsPermitted (allowedFunctionSet ctx) SliceReverse) then
    (Err (FuncNotAllowedError SliceReverse), h)
  else
    match s with
    | VSlice TAny sl => Slice_Reverse_any ctx sl h
    | VSlice t sl =>
        if in_switch t then
          let '(a, h) := toAnySlice h (load h sl) in
          Slice_Reverse_any ctx a h
        else (Err ErrArgNotSlice, h)
    | VBytes b =>
        let '(a, h) := toAnySlice h (bytes_elems b) in
        Slice_Reverse_any ctx a h
    | _ => (Err ErrArgNotSlice, h)
    end.

Definition Slice_Len (ctx : rootContext) (s : value) : result Z :=
  if negb (IsPermitted (allowedFunctionSet ctx) SliceLen) then
    Err (FuncNotAllowedError SliceLen)
  else
    match s with
    | VSlice t sl =>
        if in_switch t then Ok (Z.of_nat (s_len sl)) else Err ErrArgNotSlice
    | VBytes b => Ok (Z.of_nat (String.length b))
    | _ => Err ErrArgNotSlice
    end.

(** [slices.Compact]: of each run of consecutive equal elements the
    first one is kept; [prev] is the element before. *)
Fixpoint compact_from (prev : value) (l : list value) : list value :=
  match l with
  | [] => []
  | x :: l' =>
      if go_eq x prev then compact_from x l' else x :: compact_from x l'
  end.

Definition compact (l : list value) : list value :=
  match l with
  | [] => []
  | x :: l' => x :: compact_from x l'
  end.

(** [slices.Compact(sl)] works in place: the elements kept are moved to
    the front, the places they leave up to the old length are set to
    the zero value, and the slice is returned with the new length. *)
Definition slices_Compact (t : elemtype) (h : heap) (sl : slice)
  : slice * heap :=
  let kept := compact (load h sl) in
  (mkSlice (s_ptr sl) (s_off sl) (length kept),
   store h sl
     (kept ++ replicate (length (load h sl) - length kept) (zero_value t))).

Definition Slice_Compact (ctx : rootContext) (s : value) (h : heap)
  : result value * heap :=
  if negb (IsPermitted (allowedFunctionSet ctx) SliceCompact) then
    (Err (FuncNotAllowedError SliceCompact), h)
  else
    match s with
    | VSlice TAny _ => (Err ErrCannotCompactAnySlice, h)
    | VSlice t sl =>
        if in_switch t then
          let '(c, h) := slices_Clone h sl in
          let '(r, h) := slices_Compact t h c in
          (Ok (VSlice t r), h)
        else (Err ErrArgNotSlice, h)
    | VBytes b => (Ok (VBytes (elems_bytes (compact (bytes_elems b)))), h)
    | _ => (Err ErrArgNotSlice, h)
    end.

(** * Properties *)

(** ** The allow-list *)

Lemma allFunctions_acc (l : list allowed) (acc : list Func) :
  foldl (fun all f => all ++ allowed_Functions f) acc l
  = acc ++ concat (map allowed_Functions l).
Proof.
  revert acc. induction l as [|x l IH]; intros acc; simpl.
  - by rewrite app_nil_r.
  - by rewrite IH, app_assoc.
Qed.

Lemma allow_step_union (A : gset string) (B : gset Func)
  (acc : gset string * gset Func) (f : Func) :
  allow_step (A ∪ acc.1, B ∪ acc.2) f
  = (A ∪ (allow_step acc f).1, B ∪ (allow_step acc f).2).
Proof.
  unfold allow_step.
  destruct (NamespacesAndTheirFunctions !! Namespace f) as [nsSet|]; [|done].
  case_bool_decide; [|done].
  simpl. f_equal; apply set_eq; intros x; set_solver.
Qed.

Lemma allow_fold_union (l : list Func) (acc : gset string * gset Func) :
  foldl allow_step acc l
  = (acc.1 ∪ (foldl allow_step (∅, ∅) l).1,
     acc.2 ∪ (foldl allow_step (∅, ∅) l).2).
Proof.
  induction l as [|f l IH] using rev_ind.
  - simpl. destruct acc as [a b]. simpl. f_equal; apply set_eq; set_solver.
  - rewrite !foldl_app. simpl. rewrite IH. apply allow_step_union.
Qed.

Lemma createAllowedFunctionSet_app_sets (D1 D2 : list allowed) :
  createAllowedFunctionSet (D1 ++ D2)
  = ((createAllowedFunctionSet D1).1 ∪ (createAllowedFunctionSet D2).1,
     (createAllowedFunctionSet D1).2 ∪ (createAllowedFunctionSet D2).2).
Proof.
  unfold createAllowedFunctionSet.
  rewrite !allFunctions_acc. simpl.
  rewrite map_app, concat_app, foldl_app.
  apply allow_fold_union.
Qed.

(** C6. Building the capability set from the concatenation of two
    descriptor lists permits exactly what building it from either list
    permits: the gate answers yes on the concatenation if and only if it
    does on one of the two. *)
Theorem createAllowedFunctionSet_concat_permits
  (D1 D2 : list allowed) (f : Func) :
  IsPermitted (createAllowedFunctionSet (D1 ++ D2)).2 f
  = IsPermitted (createAllowedFunctionSet D1).2 f
    || IsPermitted (createAllowedFunctionSet D2).2 f.
Proof.
  rewrite createAllowedFunctionSet_app_sets. unfold IsPermitted. simpl.
  apply eq_true_iff_eq. rewrite orb_true_iff, !bool_decide_eq_true.
  set_solver.
Qed.

Lemma allow_step_spec (acc : gset string * gset Func) (f : Func) :
  (∀ g, g ∈ (allow_step acc f).2 ↔ g ∈ acc.2 ∨ (g = f ∧ recognized f))
  ∧ (∀ ns, ns ∈ (allow_step acc f).1
           ↔ ns ∈ acc.1 ∨ (ns = Namespace f ∧ recognized f)).
Proof.
  unfold allow_step, recognized.
  destruct f as [ns0 name0]; simpl.
  destruct (NamespacesAndTheirFunctions !! ns0) as [nsSet|] eqn:Hns.
  - case_bool_decide as Hin; simpl.
    + split; intros x; rewrite elem_of_union, elem_of_singleton;
        naive_solver.
    + split; intros x; split; try naive_solver.
  - split; intros x; split; try naive_solver.
Qed.

Lemma allow_fold_spec (l : list Func) :
  (∀ g, g ∈ (foldl allow_step (∅, ∅) l).2 ↔ g ∈ l ∧ recognized g)
  ∧ (∀ ns, ns ∈ (foldl allow_step (∅, ∅) l).1
           ↔ ∃ g, g ∈ l ∧ Namespace g = ns ∧ recognized g).
Proof.
  induction l as [|f l [IH2 IH1]] using rev_ind.
  - simpl. split; intros x; split.
    + set_solver.
    + intros [H _]. by apply elem_of_nil in H.
    + set_solver.
    + intros (g & H & _). by apply elem_of_nil in H.
  - rewrite foldl_app. simpl.
    destruct (allow_step_spec (foldl allow_step (∅, ∅) l) f) as [S2 S1].
    split; intros x.
    + rewrite S2, IH2, elem_of_app, list_elem_of_singleton. naive_solver.
    + rewrite S1, IH1. split.
      * intros [(g & Hg & Hn & Hr)|[-> Hr]].
        -- exists g. rewrite elem_of_app. auto.
        -- exists f. rewrite elem_of_app, list_elem_of_singleton. auto.
      * intros (g & Hg & Hn & Hr).
        rewrite elem_of_app, list_elem_of_singleton in Hg.
        destruct Hg as [Hg| ->]; [left; eauto | right; auto].
Qed.

(** The namespace set holds the namespaces of the permitted functions. *)
Lemma namespaceSet_spec (D : list allowed) (ns : string) :
  ns ∈ (createAllowedFunctionSet D).1
  ↔ ∃ name, mkFunc ns name ∈ (createAllowedFunctionSet D).2.
Proof.
  unfold createAllowedFunctionSet.
  destruct (allow_fold_spec
    (foldl (fun all f => all ++ allowed_Functions f) [] D)) as [S2 S1].
  rewrite S1. split.
  - intros ([n0 name] & Hg & Hn & Hr). simpl in Hn. subst n0.
    exists name. apply S2. auto.
  - intros (name & H). apply S2 in H as [Hg Hr].
    exists (mkFunc ns name). auto.
Qed.

Lemma namespaceSet_registered (D : list allowed) (ns : string) :
  ns ∈ (createAllowedFunctionSet D).1
  → is_Some (NamespacesAndTheirFunctions !! ns).
Proof.
  unfold createAllowedFunctionSet.
  destruct (allow_fold_spec
    (foldl (fun all f => all ++ allowed_Functions f) [] D)) as [_ S1].
  rewrite S1. intros (g & _ & <- & (nsSet & -> & _)). eauto.
Qed.

Lemma expose_is_Some (S : gset string) (name : string) (h : handle)
  (m : gmap string tfunc) (k : string) :
  is_Some (expose S name h m !! k)
  ↔ (k = name ∧ name ∈ S) ∨ is_Some (m !! k).
Proof.
  unfold expose. case_bool_decide as Hin.
  - destruct (decide (k = name)) as [->|Hne].
    + rewrite lookup_insert_eq. split; eauto.
    + rewrite lookup_insert_ne by done. naive_solver.
  - naive_solver.
Qed.

Lemma FuncMap_is_Some (t : Template) (D : list allowed) (k : string) :
  is_Some (FuncMap t D !! k)
  ↔ k = "return" ∨ (k ∈ namespaces ∧ k ∈ (createAllowedFunctionSet D).1).
Proof.
  unfold FuncMap.
  destruct (createAllowedFunctionSet D) as [nss fs]. simpl.
  rewrite !expose_is_Some.
  assert (is_Some (({[ "return" := Fn1 return_fn ]} : gmap string tfunc) !! k)
          ↔ k = "return") as ->.
  { destruct (decide (k = "return")) as [->|Hne].
    - rewrite lookup_singleton_eq. split; eauto.
    - rewrite lookup_singleton_ne by done. split; [intros []|]; done. }
  unfold namespaces. rewrite !elem_of_cons, elem_of_nil.
  naive_solver.
Qed.

Lemma expose_lookup (S : gset string) (name : string) (h : handle)
  (m : gmap string tfunc) (k : string) (x : tfunc) :
  expose S name h m !! k = Some x →
  (k = name ∧ x = FnNamespace h) ∨ m !! k = Some x.
Proof.
  unfold expose. case_bool_decide; [|by right].
  destruct (decide (k = name)) as [->|Hne].
  - rewrite lookup_insert_eq. intros [= <-]. by left.
  - rewrite lookup_insert_ne by done. by right.
Qed.

(** C7.  Provided every namespace of the generated table is one of the
    twelve identifiers [FuncMap] knows, an identifier other than
    ["return"] is in the function map exactly when the configuration
    permits one function of that namespace: when some descriptor lists
    a function of the namespace that the generated table knows.  The
    entry is then the handle of that namespace.  An identifier none of
    whose functions is so permitted is not in the map at all. *)
Theorem FuncMap_namespace_exposure
  (Hreg : ∀ ns, is_Some (NamespacesAndTheirFunctions !! ns) → ns ∈ namespaces)
  (t : Template) (D : list allowed) (ns : string) :
  ns ≠ "return" →
  (is_Some (FuncMap t D !! ns)
   ↔ ∃ name, mkFunc ns name ∈ allFunctions D ∧ recognized (mkFunc ns name))
  ∧ ((∀ name, mkFunc ns name ∈ allFunctions D →
              ¬ recognized (mkFunc ns name))
     → FuncMap t D !! ns = None)
  ∧ (∀ x, FuncMap t D !! ns = Some x →
          ∃ h, x = FnNamespace h ∧ handle_name h = ns).
Proof.
  intros Hne. unfold allFunctions.
  assert (∀ f, f ∈ (createAllowedFunctionSet D).2
               ↔ f ∈ concat (map allowed_Functions D) ∧ recognized f) as Hset.
  { intros f. unfold createAllowedFunctionSet. rewrite allFunctions_acc.
    apply (allow_fold_spec (concat (map allowed_Functions D))). }
  assert (is_Some (FuncMap t D !! ns)
          ↔ ∃ name, mkFunc ns name ∈ concat (map allowed_Functions D)
                    ∧ recognized (mkFunc ns name)) as Hiff.
  { rewrite FuncMap_is_Some, namespaceSet_spec.
    setoid_rewrite Hset. split.
    - intros [?|[_ ?]]; done.
    - intros Hin. right. split; [|done].
      apply Hreg, (namespaceSet_registered D), namespaceSet_spec.
      by setoid_rewrite Hset. }
  split; [exact Hiff|]. split.
  - intros Hnone. apply eq_None_not_Some. rewrite Hiff.
    intros (name & Hin & Hr). by apply (Hnone name).
  - intros x. unfold FuncMap.
    destruct (createAllowedFunctionSet D) as [nss fs].
    intros H.
    repeat (apply expose_lookup in H as [[-> ->]|H];
            [eexists; split; reflexivity|]).
    by rewrite lookup_singleton_ne in H.
Qed.

(** C9. Whatever the allowed functions, the empty list included, the
    function map has the entry ["return"], put there before and apart
    from any look-up in the allow-list; called with [v] it yields the
    error [ReturnError] whose value is [v], which [errors.As]
    recovers. *)
Theorem FuncMap_return_always (t : Template) (D : list allowed) (v : value) :
  FuncMap t D !! "return" = Some (Fn1 return_fn)
  ∧ FuncMap t [] !! "return" = Some (Fn1 return_fn)
  ∧ return_fn v = (VNil, Some (ReturnError v))
  ∧ errors_As_ReturnError (ReturnError v) = Some v.
Proof.
  assert (∀ D', FuncMap t D' !! "return" = Some (Fn1 return_fn)) as H.
  { intros D'. unfold FuncMap.
    destruct (createAllowedFunctionSet D') as [nss fs].
    unfold expose.
    repeat (case_bool_decide; [rewrite lookup_insert_ne by done|]);
      try apply lookup_singleton_eq. }
  auto.
Qed.

(** ** The execution wrappers *)

(** Wrapping keeps the chain: what [errors.As] finds in [e] it finds in
    [fmt.Errorf("...%w", e)]. *)
Lemma errors_As_Wrapped (msg : string) (arg : list string) (e : error) :
  errors_As_ReturnError (Wrapped msg arg e) = errors_As_ReturnError e
  ∧ errors_As_FuncNotAllowed (Wrapped msg arg e) = errors_As_FuncNotAllowed e.
Proof. done. Qed.

(** C4. When the template run by [Tmpl.Exec] stops with an error [e]:
    if [e] carries a return signal with value [v], the call succeeds
    with [v] printed as a string; otherwise the call fails, and the
    error it returns wraps [e] (so a permission error, or any other one,
    is still found on its chain), and is no return signal. *)
Theorem Tmpl_Exec_return_absorbed
  (ctx : rootContext) (name : string) (data : value)
  (buf : string) (e : error) :
  tmpl_ExecuteTemplate (template ctx) name data = (buf, Some e) →
  (∀ v, errors_As_ReturnError e = Some v →
        Tmpl_Exec ctx name data = Ok (fmt_Sprint v))
  ∧ (errors_As_ReturnError e = None →
     ∃ e', Tmpl_Exec ctx name data = Err e'
           ∧ e' = Wrapped "failed to execute partial template %q: %w" [name] e
           ∧ errors_As_ReturnError e' = None
           ∧ errors_As_FuncNotAllowed e' = errors_As_FuncNotAllowed e).
Proof.
  intros Hrun. unfold Tmpl_Exec. rewrite Hrun. split.
  - intros v Hv. by rewrite Hv.
  - intros Hnone. rewrite Hnone. eexists. repeat split. done.
Qed.

(** C5. When the template run by [Execute] or [ExecuteTemplate] stops
    with an error [e] after writing [out]: if [e] carries a return
    signal with value [v], the wrapper returns [nil] and the writer
    holds what it held, then [out], then [v] printed; otherwise the
    wrapper returns an error wrapping [e] and the writer holds what it
    held, then [out]. *)
Theorem Execute_return_and_failure
  (t : Template) (wr name : string) (data : value) (out : string) (e : error) :
  (tmpl_Execute t data = (out, Some e) →
   (∀ v, errors_As_ReturnError e = Some v →
         Execute t wr data = (None, (wr +:+ out) +:+ fmt_Sprint v))
   ∧ (errors_As_ReturnError e = None →
      Execute t wr data
      = (Some (Wrapped "failed to execute template: %w" [] e), wr +:+ out)))
  ∧ (tmpl_ExecuteTemplate t name data = (out, Some e) →
     (∀ v, errors_As_ReturnError e = Some v →
           ExecuteTemplate t wr name data
           = (None, (wr +:+ out) +:+ fmt_Sprint v))
     ∧ (errors_As_ReturnError e = None →
        ExecuteTemplate t wr name data
        = (Some (Wrapped "failed to execute template: %w" [] e),
           wr +:+ out))).
Proof.
  unfold Execute, ExecuteTemplate, finishExecute, fmt_Fprint.
  split; intros ->; split.
  - intros v ->. done.
  - intros ->. done.
  - intros v ->. done.
  - intros ->. done.
Qed.

(** A run that ends without error leaves the output as it is. *)
Lemma Execute_normal (t : Template) (wr : string) (data : value) (out : string) :
  tmpl_Execute t data = (out, None) →
  Execute t wr data = (None, wr +:+ out).
Proof. unfold Execute. by intros ->. Qed.

Lemma Tmpl_Exec_normal (ctx : rootContext) (name : string) (data : value)
  (buf : string) :
  tmpl_ExecuteTemplate (template ctx) name data = (buf, None) →
  Tmpl_Exec ctx name data = Ok buf.
Proof. unfold Tmpl_Exec. by intros ->. Qed.

(** The later state of [Tmpl.Exec] absorbs the signal in the same way:
    printed, its result is the result of the earlier one. *)
Lemma Tmpl_Exec_variadic_printed (ctx : rootContext) (name : string)
  (data : value) :
  result_map fmt_Sprint (Tmpl_Exec_variadic ctx name [data])
  = Tmpl_Exec ctx name data.
Proof.
  unfold Tmpl_Exec_variadic, Tmpl_Exec.
  destruct (tmpl_ExecuteTemplate (template ctx) name data) as [buf [e|]];
    [|done].
  by destruct (errors_As_ReturnError e).
Qed.

(** ** The conversions on values of an unsupported kind *)


(** ** Decimal strings and [ParseInt] *)

Lemma byte_neq_eqb (c c' : ascii) :
  strconv.byte c ≠ strconv.byte c' → Ascii.eqb c c' = false.
Proof.
  intros H. apply Ascii.eqb_neq. intros ->. done.
Qed.

Lemma is_digit_bounds (c : ascii) :
  strconv.is_digit c = true ↔ 48 ≤ strconv.byte c ≤ 57.
Proof. unfold strconv.is_digit. rewrite andb_true_iff, !Z.leb_le. done. Qed.

Lemma byte_digit_char (d : Z) :
  0 ≤ d < 10 →
  strconv.byte (ascii_of_N (Z.to_N (48 + d))) = 48 + d.
Proof.
  intros Hd. unfold strconv.byte.
  rewrite N_ascii_embedding by lia. lia.
Qed.

Lemma decode_mono (s : string) (n : Z) :
  all_digits s = true → 0 ≤ n → n ≤ decode s n.
Proof.
  revert n. induction s as [|c s IH]; intros n Hd Hn; simpl in *; [lia|].
  apply andb_true_iff in Hd as [Hc Hs]. apply is_digit_bounds in Hc.
  specialize (IH (n * 10 + (strconv.byte c - 48)) Hs). lia.
Qed.

Lemma ParseUint_loop_decimal (s : string) (n : Z) :
  all_digits s = true → 0 ≤ n → decode s n ≤ strconv.maxUint64 →
  strconv.ParseUint_loop 10 (strconv.maxUint64 / 10 + 1) s n false
  = inr (decode s n, false).
Proof.
  revert n. induction s as [|c s IH]; intros n Hd Hn Hmax; simpl in *; [done|].
  apply andb_true_iff in Hd as [Hc Hs]. rewrite Hc.
  pose proof Hc as Hb. apply is_digit_bounds in Hb.
  rewrite byte_neq_eqb by (change (strconv.byte "_") with 95; lia).
  pose proof (decode_mono s (n * 10 + (strconv.byte c - 48)) Hs) as Hm.
  assert (n * 10 + (strconv.byte c - 48) ≤ strconv.maxUint64) as H1 by lia.
  unfold strconv.maxUint64 in *.
  change (2 ^ 64 - 1) with 18446744073709551615 in *.
  change (18446744073709551615 / 10 + 1) with 1844674407370955162 in *.
  destruct (10 <=? strconv.byte c - 48) eqn:E1; [apply Z.leb_le in E1; lia|].
  destruct (1844674407370955162 <=? n) eqn:E2; [apply Z.leb_le in E2; lia|].
  destruct (18446744073709551615 <? n * 10 + (strconv.byte c - 48)) eqn:E3;
    [apply Z.ltb_lt in E3; lia|].
  apply IH; [done|lia|lia].
Qed.

Lemma formatBits_decode (fuel : nat) (u : Z) (acc : string) :
  0 ≤ u < 2 ^ (Z.of_nat fuel + 1) →
  decode (strconv.formatBits fuel u acc) 0 = decode acc u.
Proof.
  revert u acc. induction fuel as [|fuel IH]; intros u acc Hu.
  - simpl. rewrite byte_digit_char by (apply Z.mod_pos_bound; lia).
    change (2 ^ (Z.of_nat 0 + 1)) with 2 in Hu.
    f_equal. rewrite Z.mod_small by lia. lia.
  - cbn [strconv.formatBits].
    destruct (u / 10 =? 0) eqn:E.
    + apply Z.eqb_eq in E. simpl.
      rewrite byte_digit_char by (apply Z.mod_pos_bound; lia).
      f_equal. pose proof (Z.div_mod u 10). lia.
    + rewrite IH.
      * simpl. rewrite byte_digit_char by (apply Z.mod_pos_bound; lia).
        f_equal. pose proof (Z.div_mod u 10). lia.
      * split; [apply Z.div_pos; lia|].
        apply Z.div_lt_upper_bound; [lia|].
        replace (Z.of_nat (S fuel) + 1) with (Z.succ (Z.of_nat fuel + 1)) in Hu
          by lia.
        rewrite Z.pow_succ_r in Hu by lia. lia.
Qed.

Lemma formatBits_digits (fuel : nat) (u : Z) (acc : string) :
  0 ≤ u → all_digits acc = true →
  all_digits (strconv.formatBits fuel u acc) = true.
Proof.
  revert u acc. induction fuel as [|fuel IH]; intros u acc Hu Hacc.
  - simpl. rewrite Hacc, andb_true_r. apply is_digit_bounds.
    rewrite byte_digit_char by (apply Z.mod_pos_bound; lia).
    pose proof (Z.mod_pos_bound u 10). lia.
  - cbn [strconv.formatBits].
    assert (all_digits
              (String (ascii_of_N (Z.to_N (48 + u mod 10))) acc) = true) as H.
    { simpl. rewrite Hacc, andb_true_r. apply is_digit_bounds.
      rewrite byte_digit_char by (apply Z.mod_pos_bound; lia).
      pose proof (Z.mod_pos_bound u 10). lia. }
    destruct (u / 10 =? 0); [done|].
    apply IH; [apply Z.div_pos; lia|done].
Qed.

(** The first digit of a positive number is not [0]. *)
Lemma formatBits_head (fuel : nat) (u : Z) (acc : string) :
  0 < u < 2 ^ (Z.of_nat fuel + 1) →
  ∃ c s, strconv.formatBits fuel u acc = String c s
         ∧ 49 ≤ strconv.byte c ≤ 57.
Proof.
  revert u acc. induction fuel as [|fuel IH]; intros u acc Hu.
  - simpl. eexists _, _. split; [done|].
    change (2 ^ (Z.of_nat 0 + 1)) with 2 in Hu.
    rewrite byte_digit_char by (apply Z.mod_pos_bound; lia).
    rewrite Z.mod_small by lia. lia.
  - cbn [strconv.formatBits].
    destruct (u / 10 =? 0) eqn:E.
    + apply Z.eqb_eq in E. eexists _, _. split; [done|].
      rewrite byte_digit_char by (apply Z.mod_pos_bound; lia).
      pose proof (Z.div_mod u 10). pose proof (Z.mod_pos_bound u 10). lia.
    + apply Z.eqb_neq in E. apply IH.
      assert (0 ≤ u / 10) by (apply Z.div_pos; lia).
      split; [lia|].
      apply Z.div_lt_upper_bound; [lia|].
      replace (Z.of_nat (S fuel) + 1) with (Z.succ (Z.of_nat fuel + 1)) in Hu
        by lia.
      rewrite Z.pow_succ_r in Hu by lia. lia.
Qed.

Lemma log2_fuel (u : Z) :
  0 ≤ u → 0 ≤ u < 2 ^ (Z.of_nat (Z.to_nat (Z.log2 u)) + 1).
Proof.
  intros Hu. split; [done|].
  rewrite Z2Nat.id by apply Z.log2_nonneg.
  destruct (decide (u = 0)) as [->|Hne]; [done|].
  replace (Z.log2 u + 1) with (Z.succ (Z.log2 u)) by lia.
  apply Z.log2_spec. lia.
Qed.

(** [ParseUint] reads back what [FormatUint] writes. *)
Lemma ParseUint_FormatUint (u : Z) :
  0 ≤ u ≤ strconv.maxUint64 →
  strconv.ParseUint (strconv.FormatUint u) = (u, None).
Proof.
  intros Hu. destruct (decide (u = 0)) as [->|Hne]; [done|].
  unfold strconv.FormatUint.
  pose proof (log2_fuel u ltac:(lia)) as Hfuel.
  set (fuel := Z.to_nat (Z.log2 u)) in *.
  destruct (formatBits_head fuel u EmptyString ltac:(lia)) as (c & s & Heq & Hc).
  pose proof (formatBits_digits fuel u EmptyString ltac:(lia) eq_refl) as Hd.
  pose proof (formatBits_decode fuel u EmptyString Hfuel) as Hdec.
  change (decode EmptyString u) with u in Hdec.
  rewrite Heq in *. unfold strconv.ParseUint.
  rewrite byte_neq_eqb by (change (strconv.byte "0") with 48; lia).
  rewrite ParseUint_loop_decimal; [|done|lia|].
  - rewrite Hdec. done.
  - rewrite Hdec. lia.
Qed.

Lemma contains_comma_digits (s : string) :
  all_digits s = true → contains_comma s = false.
Proof.
  induction s as [|c s IH]; simpl; [done|].
  intros [Hc Hs]%andb_true_iff. apply is_digit_bounds in Hc.
  rewrite IH by done.
  rewrite byte_neq_eqb by (change (strconv.byte ",") with 44; lia). done.
Qed.

Lemma FormatUint_digits (u : Z) :
  0 ≤ u → all_digits (strconv.FormatUint u) = true.
Proof. intros Hu. by apply formatBits_digits. Qed.

Lemma contains_comma_FormatInt (i : Z) :
  contains_comma (strconv.FormatInt i) = false.
Proof.
  unfold strconv.FormatInt. destruct (i <? 0) eqn:E.
  - apply Z.ltb_lt in E. simpl.
    apply contains_comma_digits, FormatUint_digits. lia.
  - apply Z.ltb_ge in E. by apply contains_comma_digits, FormatUint_digits.
Qed.

(** [ParseInt] reads back what [FormatInt] writes, on all of [int64]. *)
Lemma ParseInt_FormatInt (i : Z) :
  MinInt64 ≤ i ≤ MaxInt64 →
  strconv.ParseInt (strconv.FormatInt i) = (i, None).
Proof.
  unfold MinInt64, MaxInt64. intros Hi.
  change (2 ^ 63) with 9223372036854775808 in Hi.
  unfold strconv.FormatInt. destruct (i <? 0) eqn:E.
  - apply Z.ltb_lt in E. unfold strconv.ParseInt.
    change (Ascii.eqb "-" "+") with false.
    change (Ascii.eqb "-" "-") with true. cbv iota beta.
    rewrite ParseUint_FormatUint
      by (unfold strconv.maxUint64;
          change (2 ^ 64 - 1) with 18446744073709551615; lia).
    change (2 ^ 63) with 9223372036854775808.
    simpl negb. simpl andb.
    destruct (9223372036854775808 <? - i) eqn:E2;
      [apply Z.ltb_lt in E2; lia|].
    f_equal. lia.
  - apply Z.ltb_ge in E.
    destruct (decide (i = 0)) as [->|Hne]; [done|].
    pose proof (log2_fuel i E) as Hfuel.
    destruct (formatBits_head (Z.to_nat (Z.log2 i)) i EmptyString
                ltac:(lia)) as (c & s & Heq & Hc).
    pose proof (ParseUint_FormatUint i) as HP.
    unfold strconv.FormatUint in *. rewrite Heq in *.
    unfold strconv.ParseInt.
    rewrite (byte_neq_eqb c "+") by (change (strconv.byte "+") with 43; lia).
    rewrite (byte_neq_eqb c "-") by (change (strconv.byte "-") with 45; lia).
    cbv iota beta.
    rewrite HP
      by (unfold strconv.maxUint64;
          change (2 ^ 64 - 1) with 18446744073709551615; lia).
    change (2 ^ 63) with 9223372036854775808.
    simpl negb. simpl andb.
    destruct (9223372036854775808 <=? i) eqn:E2;
      [apply Z.leb_le in E2; lia|].
    done.
Qed.

Lemma toInt64_FormatInt (i : Z) :
  MinInt64 ≤ i ≤ MaxInt64 →
  toInt64 (VString (strconv.FormatInt i)) = Ok i.
Proof.
  intros Hi. unfold toInt64, strToInt64.
  rewrite contains_comma_FormatInt, ParseInt_FormatInt by done. done.
Qed.

Lemma int_bounds_in_int64 (k : ikind) :
  MinInt64 ≤ int_min k ∧ int_max k ≤ MaxInt64.
Proof. destruct k; vm_compute; split; congruence. Qed.

(** The first half of C2: for every signed width and every [v] the width
    represents, converting the decimal string of [v] gives [v] back. *)
Theorem ToInt_decimal_round_trip (ctx : rootContext) (k : ikind) (v : Z) :
  IsPermitted (allowedFunctionSet ctx) (target_func (ToIntOf k)) = true →
  int_min k ≤ v ≤ int_max k →
  Conv_call ctx (ToIntOf k) (VString (toString (VInt k v))) = Ok (VInt k v).
Proof.
  intros Hperm Hv. pose proof (int_bounds_in_int64 k) as Hk.
  assert (toInt64 (VString (strconv.FormatInt v)) = Ok v) as H64
    by (apply toInt64_FormatInt; lia).
  assert (∀ lo hi, lo ≤ v ≤ hi →
            toInt (VString (strconv.FormatInt v)) lo hi = Ok v) as Hto.
  { intros lo hi Hr. unfold toInt. rewrite H64.
    destruct (v <? lo) eqn:E1; [apply Z.ltb_lt in E1; lia|].
    destruct (hi <? v) eqn:E2; [apply Z.ltb_lt in E2; lia|]. done. }
  destruct k;
    cbn [Conv_call target_func toString fmt_Sprint int_min int_max]
      in Hperm, Hv |- *;
    unfold Conv_ToInt8, Conv_ToInt16, Conv_ToInt32, Conv_ToInt64, Conv_ToInt;
    rewrite Hperm; cbn [negb]; rewrite ?Hto, ?H64 by done; done.
Qed.

(** For the widths 8, 16 and 32 the range check of [toInt] catches every
    [int64] outside the width. *)
Theorem ToInt_narrow_overflow (ctx : rootContext) (k : ikind) (v : Z) :
  IsPermitted (allowedFunctionSet ctx) (target_func (ToIntOf k)) = true →
  k ∈ [KInt8; KInt16; KInt32] →
  MinInt64 ≤ v ≤ MaxInt64 →
  ¬ (int_min k ≤ v ≤ int_max k) →
  Conv_call ctx (ToIntOf k) (VString (toString (VInt KInt64 v)))
  = Err (WouldOverflowInt v).
Proof.
  intros Hperm Hk Hv Hout.
  assert (toInt64 (VString (strconv.FormatInt v)) = Ok v) as H64
    by (apply toInt64_FormatInt; lia).
  assert (∀ lo hi, ¬ (lo ≤ v ≤ hi) →
            toInt (VString (strconv.FormatInt v)) lo hi
            = Err (WouldOverflowInt v)) as Hto.
  { intros lo hi Hr. unfold toInt. rewrite H64.
    destruct (v <? lo) eqn:E1; [done|]. apply Z.ltb_ge in E1.
    destruct (hi <? v) eqn:E2; [done|]. apply Z.ltb_ge in E2. lia. }
  rewrite !elem_of_cons, elem_of_nil in Hk.
  destruct Hk as [->|[->|[->|[]]]];
    cbn [Conv_call target_func toString fmt_Sprint int_min int_max]
      in Hperm, Hout |- *;
    unfold Conv_ToInt8, Conv_ToInt16, Conv_ToInt32;
    rewrite Hperm; cbn [negb]; rewrite Hto by done; done.
Qed.

(** C2 at inputs where the code departs from it.  The decimal string
    of [MinInt64 - 1] is not rejected: [ParseInt] fails on it with a
    range error, [ParseFloat] then reads it as the float [-2^63], and
    [toInt64] returns [int64] of that float, which is [MinInt64], with a
    [nil] error; [Conv.ToInt64] and, the bounds of [int] being those of
    [int64], [Conv.ToInt] pass it on.  The decimal string of
    [MaxInt64 + 1] is read as the float [2^63], and what is returned,
    again with a [nil] error, is whatever the platform gives for
    converting it. *)
Theorem toInt64_out_of_range_no_error (t : Template) :
  strconv.FormatInt (MinInt64 - 1) = "-9223372036854775809"
  ∧ strconv.ParseInt "-9223372036854775809" = (MinInt64, Some ErrRange)
  ∧ atof.ParseFloat "-9223372036854775809" = (float.of_Z (- 2 ^ 63), None)
  ∧ toInt64 (VString (strconv.FormatInt (MinInt64 - 1))) = Ok MinInt64
  ∧ Conv_ToInt64 (mkRootContext t {[ ConvToInt64 ]})
      (VString (strconv.FormatInt (MinInt64 - 1)))
    = Ok MinInt64
  ∧ Conv_ToInt (mkRootContext t {[ ConvToInt ]})
      (VString (strconv.FormatInt (MinInt64 - 1)))
    = Ok MinInt64
  ∧ strconv.ParseInt "9223372036854775808" = (MaxInt64, Some ErrRange)
  ∧ atof.ParseFloat "9223372036854775808" = (float.of_Z (2 ^ 63), None)
  ∧ toInt64 (VString (strconv.FormatInt (MaxInt64 + 1)))
    = Ok (int64_unrepresentable (float.of_Z (2 ^ 63))).
Proof.
  repeat split; vm_compute; done.
Qed.

(** ** The gate *)

(** The methods that begin with the gate refuse, and do nothing else,
    when their function is not in the set. *)
Lemma Conv_gate_denies (ctx : rootContext) (tg : target) (v : value) :
  IsPermitted (allowedFunctionSet ctx) (target_func tg) = false →
  Conv_call ctx tg v = Err (FuncNotAllowedError (target_func tg)).
Proof.
  intros Hperm.
  destruct tg as [| |k|k|k]; try destruct k;
    cbn [Conv_call target_func] in Hperm |- *;
    unfold Conv_ToBool, Conv_ToString, Conv_ToInt8, Conv_ToInt16, Conv_ToInt32,
      Conv_ToInt64, Conv_ToInt, Conv_ToUint8, Conv_ToUint16, Conv_ToUint32,
      Conv_ToUint64, Conv_ToUint, Conv_ToFloat32, Conv_ToFloat64;
    rewrite Hperm; done.
Qed.

Lemma passthrough_gate_denies (ctx : rootContext) (s key val : string) (c : Z) :
  (IsPermitted (allowedFunctionSet ctx) StringsIndexByte = false →
   Strings_IndexByte ctx s c = (Err (FuncNotAllowedError StringsIndexByte), []))
  ∧ (IsPermitted (allowedFunctionSet ctx) OSSetenv = false →
     OS_Setenv ctx key val = (Some (FuncNotAllowedError OSSetenv), [])).
Proof.
  unfold Strings_IndexByte, OS_Setenv. split; intros ->; done.
Qed.

Lemma Slice_gate_denies (ctx : rootContext) (s : value) (h : heap) :
  (IsPermitted (allowedFunctionSet ctx) SliceSort = false →
   Slice_Sort ctx s h = (Err (FuncNotAllowedError SliceSort), h))
  ∧ (IsPermitted (allowedFunctionSet ctx) SliceUnique = false →
     Slice_Unique ctx s h = (Err (FuncNotAllowedError SliceUnique), h)).
Proof.
  unfold Slice_Sort, Slice_Unique. split; intros ->; done.
Qed.

(** Two more departures.  [JSON.Marshal] goes through the keys of a
    [map[any]any] before its gate: without the permission, a map with a
    key that is no string gets the error about the key, not the
    permission error.  [Regexp.FindAllStringIndex] asks the gate about
    [regexp.FindAllString]: permitted itself, it is refused in the name
    of the other function when that one is not permitted, and it runs
    unpermitted when the other one is. *)
Lemma JSON_Marshal_computes_before_gate (ctx : rootContext) (v : value)
  (rest : list (value * value)) (n : Z) :
  JSON_Marshal ctx (MapAnyAny ((VInt KInt n, v) :: rest))
  = (Err (MapKeyNotString (VInt KInt n)), []).
Proof. done. Qed.

Lemma Regexp_FindAllStringIndex_wrong_gate (t : Template) (pattern s : string)
  (n : Z) :
  Regexp_FindAllStringIndex (mkRootContext t {[ RegexpFindAllStringIndex ]})
    pattern s n
  = (Err (FuncNotAllowedError RegexpFindAllString), [])
  ∧ (Regexp_FindAllStringIndex (mkRootContext t {[ RegexpFindAllString ]})
       pattern s n).2
    ≠ [].
Proof.
  unfold Regexp_FindAllStringIndex, IsPermitted. cbn [allowedFunctionSet].
  split.
  - by rewrite bool_decide_eq_false_2 by set_solver.
  - rewrite bool_decide_eq_true_2 by set_solver. cbn [negb].
    by destruct (host _).2.
Qed.

Lemma expose_lookup_ne (S : gset string) (name : string) (h : handle)
  (m : gmap string tfunc) (k : string) :
  k ≠ name → expose S name h m !! k = m !! k.
Proof.
  intros Hne. unfold expose. case_bool_decide; [|done].
  by rewrite lookup_insert_ne.
Qed.

Lemma expose_lookup_eq (S : gset string) (name : string) (h : handle)
  (m : gmap string tfunc) :
  expose S name h m !! name
  = if bool_decide (name ∈ S) then Some (FnNamespace h) else m !! name.
Proof.
  unfold expose. case_bool_decide; [|done]. by rewrite lookup_insert_eq.
Qed.

Lemma FuncMap_strings (t : Template) (D : list allowed) :
  FuncMap t D !! "strings"
  = if bool_decide ("strings" ∈ (createAllowedFunctionSet D).1) then
      Some (FnNamespace
              (Strings (mkRootContext t (createAllowedFunctionSet D).2)))
    else None.
Proof.
  unfold FuncMap. destruct (createAllowedFunctionSet D) as [nss fs].
  cbn [fst snd].
  rewrite !expose_lookup_ne by done. rewrite expose_lookup_eq.
  case_bool_decide; [done|].
  rewrite !expose_lookup_ne by done. by rewrite lookup_singleton_ne.
Qed.

Lemma FuncMap_tmpl (t : Template) (D : list allowed) :
  FuncMap t D !! "tmpl"
  = if bool_decide ("tmpl" ∈ (createAllowedFunctionSet D).1) then
      Some (FnNamespace
              (Tmpl (mkRootContext t (createAllowedFunctionSet D).2)))
    else None.
Proof.
  unfold FuncMap. destruct (createAllowedFunctionSet D) as [nss fs].
  cbn [fst snd].
  rewrite !expose_lookup_ne by done. rewrite expose_lookup_eq.
  case_bool_decide; [done|].
  rewrite !expose_lookup_ne by done. by rewrite lookup_singleton_ne.
Qed.

Lemma createAllowedFunctionSet_single (f : Func) (nsSet : gset string) :
  NamespacesAndTheirFunctions !! Namespace f = Some nsSet →
  Name f ∈ nsSet →
  createAllowedFunctionSet [Allowed f] = ({[ Namespace f ]}, {[ f ]}).
Proof.
  intros Hns Hin. unfold createAllowedFunctionSet. simpl.
  unfold allow_step. rewrite Hns. rewrite bool_decide_eq_true_2 by done.
  destruct f as [ns name]. simpl.
  f_equal; apply set_eq; set_solver.
Qed.

(** C1 at an input where the code departs from it.  With only
    [strings.ToLower] allowed, the namespace [strings] is in the function
    map, [strings.IndexAny] is not permitted, and yet [Strings.IndexAny]
    calls the library and returns its result: the method has no gate.
    [Tmpl.Exec] has none either: it runs the template whatever the
    set. *)
Theorem Strings_IndexAny_runs_unpermitted
  (t : Template) (s1 chars name : string) (data : value)
  (nsSet : gset string) :
  NamespacesAndTheirFunctions !! "strings" = Some nsSet →
  "ToLower" ∈ nsSet →
  ∃ ctx,
    FuncMap t [Allowed StringsToLower] !! "strings"
    = Some (FnNamespace (Strings ctx))
    ∧ IsPermitted (allowedFunctionSet ctx) StringsIndexAny = false
    ∧ Strings_IndexAny ctx s1 chars
      = (Ok (host (Call "strings" "IndexAny" [VString s1; VString chars])).1,
         [Call "strings" "IndexAny" [VString s1; VString chars]])
    ∧ IsPermitted (allowedFunctionSet ctx) TmplExec = false
    ∧ Tmpl_Exec ctx name data
      = Tmpl_Exec (mkRootContext t {[ TmplExec ]}) name data.
Proof.
  intros Hns Hin.
  exists (mkRootContext t {[ StringsToLower ]}).
  rewrite FuncMap_strings.
  rewrite (createAllowedFunctionSet_single StringsToLower nsSet) by done.
  cbn [fst snd Namespace StringsToLower].
  rewrite bool_decide_eq_true_2 by set_solver.
  split; [done|].
  split; [by apply bool_decide_eq_false_2; set_solver|].
  split; [done|].
  split; [by apply bool_decide_eq_false_2; set_solver|done].
Qed.

(** ** Insertion sort *)

Section InsertionSort.

Variable lt : value → value → bool.

(** The elements sorted: on them [lt] is asymmetric, and "not before"
    is transitive. *)
Variable P : value → Prop.
Hypothesis lt_asym : ∀ x y, P x → P y → lt x y = true → lt y x = false.
Hypothesis ge_trans :
  ∀ x y z, P x → P y → P z → lt x y = false → lt y z = false → lt x z = false.

Lemma insert_back_perm (x : value) (r : list value) :
  insert_back lt x r ≡ₚ x :: r.
Proof.
  induction r as [|y r IH]; simpl; [done|].
  destruct (lt x y); [|done].
  rewrite IH. apply Permutation_swap.
Qed.

Lemma insert_back_sorted (x : value) (r : list value) :
  P x → Forall P r →
  StronglySorted (λ a b, lt a b = false) r →
  StronglySorted (λ a b, lt a b = false) (insert_back lt x r).
Proof.
  intros Hx HP Hs. induction r as [|y r IH]; simpl.
  - repeat constructor.
  - apply Forall_cons in HP as [Hy Hr].
    apply StronglySorted_cons in Hs as [Hyr Hs].
    destruct (lt x y) eqn:E.
    + apply StronglySorted_cons. split; [|by apply IH].
      rewrite insert_back_perm. constructor; [|done].
      by apply lt_asym.
    + apply StronglySorted_cons. split.
      * constructor; [done|].
        rewrite Forall_forall in Hyr, Hr |- *. intros z Hz.
        apply (ge_trans x y z); auto.
      * apply StronglySorted_cons. done.
Qed.

Lemma insert_fold_perm (data acc : list value) :
  foldl (λ prefix_rev x, insert_back lt x prefix_rev) acc data
  ≡ₚ acc ++ data.
Proof.
  revert acc. induction data as [|x data IH]; intros acc; simpl.
  - by rewrite app_nil_r.
  - rewrite IH, insert_back_perm. simpl. apply Permutation_middle.
Qed.

Lemma insert_fold_sorted (data acc : list value) :
  Forall P data → Forall P acc →
  StronglySorted (λ a b, lt a b = false) acc →
  StronglySorted (λ a b, lt a b = false)
    (foldl (λ prefix_rev x, insert_back lt x prefix_rev) acc data).
Proof.
  revert acc. induction data as [|x data IH]; intros acc Hd Ha Hs; simpl.
  - done.
  - apply Forall_cons in Hd as [Hx Hd]. apply IH; [done| |].
    + rewrite insert_back_perm. by constructor.
    + by apply insert_back_sorted.
Qed.

Lemma StronglySorted_rev (R : relation value) (l : list value) :
  StronglySorted R l → StronglySorted (flip R) (rev l).
Proof.
  induction 1 as [|x l Hs IH Hx]; simpl; [constructor|].
  apply StronglySorted_app_2; [|done|repeat constructor].
  intros x1 x2 H1 H2. apply list_elem_of_singleton in H2 as ->.
  apply list_elem_of_In, in_rev, list_elem_of_In in H1.
  rewrite Forall_forall in Hx. by apply Hx.
Qed.

Lemma insertionSort_perm (data : list value) :
  insertionSort lt data ≡ₚ data.
Proof.
  unfold insertionSort. rewrite <- Permutation_rev.
  by rewrite insert_fold_perm.
Qed.

(** The result is in ascending order: no element is before one to its
    left. *)
Lemma insertionSort_sorted (data : list value) :
  Forall P data →
  StronglySorted (λ a b, lt b a = false) (insertionSort lt data).
Proof.
  intros Hd. unfold insertionSort.
  apply (StronglySorted_rev (λ a b, lt a b = false)).
  apply insert_fold_sorted; [done|constructor|constructor].
Qed.

Lemma insertionSort_length (data : list value) :
  length (insertionSort lt data) = length data.
Proof. apply Permutation_length, insertionSort_perm. Qed.

End InsertionSort.

(** ** The orders on the element types *)

Ltac cmp_cases :=
  repeat match goal with
  | H : context [Z.compare ?a ?b] |- _ => destruct (Z.compare_spec a b)
  | |- context [Z.compare ?a ?b] => destruct (Z.compare_spec a b)
  | H : context [Pos.compare_cont Eq ?a ?b] |- _ =>
      change (Pos.compare_cont Eq a b) with (Pos.compare a b) in H;
      destruct (Pos.compare_spec a b)
  | |- context [Pos.compare_cont Eq ?a ?b] =>
      change (Pos.compare_cont Eq a b) with (Pos.compare a b);
      destruct (Pos.compare_spec a b)
  end.

Ltac float_cases x y z :=
  destruct x as [[]|[]| |[] ? ?], y as [[]|[]| |[] ? ?], z as [[]|[]| |[] ? ?];
  simpl; try congruence; cmp_cases; simpl; try congruence; try lia.

Lemma cmpLess_float_asym (x y : spec_float) :
  cmpLess_float x y = true → cmpLess_float y x = false.
Proof.
  unfold cmpLess_float, float.ltb, SFltb, SFcompare, float.isNaN.
  float_cases x y S754_nan.
Qed.

Lemma cmpLess_float_ge_trans (x y z : spec_float) :
  cmpLess_float x y = false → cmpLess_float y z = false →
  cmpLess_float x z = false.
Proof.
  unfold cmpLess_float, float.ltb, SFltb, SFcompare, float.isNaN.
  float_cases x y z.
Qed.

Lemma float_eqb_trans (x y z : spec_float) :
  float.eqb x y = true → float.eqb y z = true → float.eqb x z = true.
Proof.
  unfold float.eqb, SFeqb, SFcompare.
  float_cases x y z.
Qed.

Lemma ascii_compare_lt_trans (a b c : ascii) :
  Ascii.compare a b = Lt → Ascii.compare b c = Lt → Ascii.compare a c = Lt.
Proof.
  unfold Ascii.compare. rewrite !N.compare_lt_iff. lia.
Qed.

Lemma string_compare_lt_trans (x y z : string) :
  String.compare x y = Lt → String.compare y z = Lt → String.compare x z = Lt.
Proof.
  revert y z. induction x as [|a x IH]; intros [|b y] [|c z]; simpl; try done.
  destruct (Ascii.compare a b) eqn:E1; try done;
    destruct (Ascii.compare b c) eqn:E2; try done.
  - apply Ascii.compare_eq_iff in E1 as ->. rewrite E2. apply IH.
  - apply Ascii.compare_eq_iff in E1 as ->. by rewrite E2.
  - apply Ascii.compare_eq_iff in E2 as <-. by rewrite E1.
  - by rewrite (ascii_compare_lt_trans a b c).
Qed.

Lemma string_ltb_asym (x y : string) :
  string_ltb x y = true → string_ltb y x = false.
Proof.
  unfold string_ltb. rewrite (String.compare_antisym x y).
  by destruct (String.compare y x).
Qed.

Lemma string_ltb_ge_trans (x y z : string) :
  string_ltb x y = false → string_ltb y z = false → string_ltb x z = false.
Proof.
  unfold string_ltb. intros Hxy Hyz.
  destruct (String.compare x z) eqn:Hxz; try done.
  destruct (String.compare x y) eqn:E1; try done.
  - apply String.compare_eq_iff in E1 as ->. by rewrite Hxz in Hyz.
  - destruct (String.compare y z) eqn:E2; try done.
    + apply String.compare_eq_iff in E2 as ->. congruence.
    + assert (String.compare z y = Lt) as Hzy
        by (rewrite String.compare_antisym, E2; done).
      pose proof (string_compare_lt_trans x z y Hxz Hzy). congruence.
Qed.

Lemma less_asym (t : elemtype) (x y : value) :
  has_type t x → has_type t y → less t x y = true → less t y x = false.
Proof.
  destruct t, x, y; simpl; try done; intros _ _.
  - by destruct b, b0.
  - apply string_ltb_asym.
  - apply cmpLess_float_asym.
  - rewrite Z.ltb_lt, Z.ltb_ge. lia.
  - rewrite Z.ltb_lt, Z.ltb_ge. lia.
Qed.

Lemma less_ge_trans (t : elemtype) (x y z : value) :
  has_type t x → has_type t y → has_type t z →
  less t x y = false → less t y z = false → less t x z = false.
Proof.
  destruct t, x, y, z; simpl; try done; intros _ _ _.
  - by destruct b, b0, b1.
  - apply string_ltb_ge_trans.
  - apply cmpLess_float_ge_trans.
  - rewrite !Z.ltb_ge. lia.
  - rewrite !Z.ltb_ge. lia.
Qed.

(** ** Cloning and sorting in the heap *)

Lemma load_length (h : heap) (sl : slice) :
  (length (load h sl) ≤ s_len sl)%nat.
Proof. unfold load. rewrite length_take. lia. Qed.

(** Cloning a slice and rewriting the clone in place by a function that
    keeps the length: the clone holds the rewritten elements, every
    array of the heap before is as it was, and the clone of a non-empty
    slice is in a new array. *)
Lemma clone_then_store (f : list value → list value) (h : heap) (sl : slice) :
  (∀ l, length (f l) = length l) →
  ∃ sl' h2,
    slices_Clone h sl = (sl', (slices_Clone h sl).2)
    ∧ h2 = store (slices_Clone h sl).2 sl'
             (f (load (slices_Clone h sl).2 sl'))
    ∧ load h2 sl' = f (load h sl)
    ∧ (∀ p a, h !! p = Some a → h2 !! p = Some a)
    ∧ ((0 < s_len sl)%nat → s_ptr sl' ∉ dom h).
Proof.
  intros Hlen. unfold slices_Clone.
  destruct (s_len sl =? 0)%nat eqn:E.
  - apply Nat.eqb_eq in E.
    assert (f [] = []) as Hnil by (apply length_zero_iff_nil; by rewrite Hlen).
    assert (load h sl = []) as Hl by (unfold load; by rewrite E).
    assert (load h (mkSlice (s_ptr sl) (s_off sl) 0) = []) as Hl0 by done.
    assert (store h (mkSlice (s_ptr sl) (s_off sl) 0) [] = h) as Hst.
    { unfold store. cbn [s_ptr s_off s_len].
      destruct (h !! s_ptr sl) as [a|] eqn:Ha; [|done].
      rewrite Nat.add_0_r, app_nil_l, take_drop. by apply insert_id. }
    eexists _, _. split; [done|]. split; [done|].
    cbn [snd]. rewrite Hl0, Hnil, Hst, Hl, Hnil.
    split; [done|]. split; [done|lia].
  - apply Nat.eqb_neq in E. unfold alloc. cbn [snd].
    set (p := fresh (dom h)). set (a := load h sl).
    assert (p ∉ dom h) as Hp by apply is_fresh.
    pose proof (load_length h sl) as Hla. fold a in Hla.
    assert (load (<[p:=a]> h) (mkSlice p 0 (s_len sl)) = a) as Hl1.
    { unfold load. cbn [s_ptr s_off s_len]. rewrite lookup_insert_eq.
      simpl. by rewrite take_ge. }
    eexists _, _. split; [done|]. split; [done|].
    rewrite Hl1. unfold store. cbn [s_ptr s_off s_len].
    rewrite lookup_insert_eq, insert_insert_eq. simpl.
    rewrite (drop_ge a) by lia. rewrite app_nil_r.
    split; [|split].
    + unfold load. cbn [s_ptr s_off s_len]. rewrite lookup_insert_eq.
      simpl. rewrite drop_0. rewrite take_ge; [done|]. rewrite Hlen. lia.
    + intros q b Hq. rewrite lookup_insert_ne; [done|].
      intros <-. apply Hp. apply elem_of_dom. eauto.
    + done.
Qed.

Lemma heap_preserved_load (h h' : heap) (sl : slice) :
  (∀ p a, h !! p = Some a → h' !! p = Some a) →
  is_Some (h !! s_ptr sl) →
  load h' sl = load h sl.
Proof.
  intros Hpre [a Ha]. unfold load. by rewrite (Hpre _ _ Ha), Ha.
Qed.

Lemma sortBool_is_Sort (h : heap) (sl : slice) :
  sortBool h sl = slices_Sort TBool h sl.
Proof. done. Qed.

(** The elements of a [[]byte] are bytes, and a [[]byte] made of bytes
    holds them. *)
Lemma bytes_elems_bytes (b : string) :
  Forall (λ v, ∃ c, v = VUint KUint8 (strconv.byte c)) (bytes_elems b).
Proof.
  unfold bytes_elems. apply Forall_forall. intros v Hv.
  apply list_elem_of_fmap in Hv as (c & -> & _). by exists c.
Qed.

Lemma bytes_elems_elems_bytes (l : list value) :
  Forall (λ v, ∃ c, v = VUint KUint8 (strconv.byte c)) l →
  bytes_elems (elems_bytes l) = l.
Proof.
  unfold bytes_elems, elems_bytes.
  induction 1 as [|v l [c ->] _ IH]; [done|].
  cbn [omap list_omap].
  replace (ascii_of_N (Z.to_N (strconv.byte c))) with c
    by (unfold strconv.byte; by rewrite N2Z.id, ascii_N_embedding).
  cbn [String.string_of_list_ascii String.list_ascii_of_string map].
  by rewrite IH.
Qed.



(** ** [Unique] *)

Lemma go_eq_trans (x y z : value) :
  go_eq x y = true → go_eq y z = true → go_eq x z = true.
Proof.
  destruct x, y, z; simpl; try done.
  - destruct b, b0, b1; done.
  - rewrite !bool_decide_eq_true. congruence.
  - rewrite !andb_true_iff, !bool_decide_eq_true, !Z.eqb_eq.
    intros [-> ->] [-> ->]. done.
  - rewrite !andb_true_iff, !bool_decide_eq_true, !Z.eqb_eq.
    intros [-> ->] [-> ->]. done.
  - rewrite !andb_true_iff, !bool_decide_eq_true.
    intros [-> H1] [-> H2]. split; [done|]. by apply (float_eqb_trans f f0 f1).
  - rewrite !N.eqb_eq. congruence.
  - rewrite !andb_true_iff, !bool_decide_eq_true, !N.eqb_eq.
    intros [-> ->] [-> ->]. done.
Qed.

Lemma existsb_snoc (f : value → bool) (l : list value) (v : value) :
  existsb f (l ++ [v]) = existsb f l || f v.
Proof. rewrite existsb_app. simpl. by rewrite orb_false_r. Qed.

(** The loop against the description: the keys in [seen] stand for all
    the elements gone through. *)
Lemma uniqSlice_loop_spec (sl seen earlier result : list value) :
  Forall (λ v, hashable v = true) sl →
  (∀ x, existsb (go_eq x) seen = existsb (go_eq x) earlier) →
  uniqSlice_loop sl seen result
  = inr (result ++ first_occurrences_from earlier sl).
Proof.
  revert seen earlier result.
  induction sl as [|v sl IH]; intros seen earlier result Hh Hinv; simpl.
  - by rewrite app_nil_r.
  - apply Forall_cons in Hh as [Hv Hh]. rewrite Hv. cbn [negb].
    rewrite <- (Hinv v).
    destruct (existsb (go_eq v) seen) eqn:E.
    + apply IH; [done|]. intros x. rewrite existsb_snoc, <- Hinv.
      destruct (go_eq x v) eqn:Exv; [|by rewrite orb_false_r].
      rewrite orb_true_r.
      apply existsb_exists in E as (k & Hk & Hvk).
      apply existsb_exists. exists k. split; [done|].
      by apply (go_eq_trans x v k).
    + rewrite (IH (seen ++ [v]) (earlier ++ [v]) (result ++ [v])); [|done|].
      * by rewrite <- app_assoc.
      * intros x. by rewrite !existsb_snoc, Hinv.
Qed.

Lemma uniqSlice_spec (sl : list value) :
  Forall (λ v, hashable v = true) sl →
  uniqSlice sl = inr (first_occurrences sl).
Proof.
  intros Hh. unfold uniqSlice, first_occurrences.
  by rewrite (uniqSlice_loop_spec sl [] [] []).
Qed.

(** The values of an element type other than [any] can all be hashed. *)
Lemma has_type_hashable (t : elemtype) (v : value) :
  t ≠ TAny → has_type t v → hashable v = true.
Proof. destruct t, v; done. Qed.

(** The slice returned keeps the order of the input and never holds two
    equal elements. *)
Lemma first_occurrences_from_sublist (earlier l : list value) :
  sublist (first_occurrences_from earlier l) l.
Proof.
  revert earlier. induction l as [|v l IH]; intros earlier; simpl.
  - constructor.
  - destruct (existsb (go_eq v) earlier).
    + apply sublist_cons, IH.
    + apply sublist_skip, IH.
Qed.

Lemma first_occurrences_from_distinct (earlier l : list value) (x : value) :
  x ∈ first_occurrences_from earlier l →
  existsb (go_eq x) earlier = false.
Proof.
  revert earlier. induction l as [|v l IH]; intros earlier; simpl.
  - intros H. by apply elem_of_nil in H.
  - destruct (existsb (go_eq v) earlier) eqn:E.
    + intros H. apply IH in H. rewrite existsb_snoc in H.
      by apply orb_false_iff in H as [H _].
    + rewrite elem_of_cons. intros [->|H]; [done|].
      apply IH in H. rewrite existsb_snoc in H.
      by apply orb_false_iff in H as [H _].
Qed.

(** C10, as the code has it.  When [slice.Unique] is permitted and the
    elements can be hashed (those of a typed slice always can; those of
    a [[]any] can unless one is a slice, a map, a function or holds
    one), [Unique] on a slice of a type its switch names returns a slice
    in a new array that holds the first occurrences of the input's
    elements in their order, and every array of the heap is as before,
    so the input is unchanged.  On a [[]byte], which is a [[]uint8], it
    returns the first occurrences of its bytes. *)
Theorem Slice_Unique_spec (ctx : rootContext) (t : elemtype) (sl : slice)
  (h : heap) (b : string) :
  IsPermitted (allowedFunctionSet ctx) SliceUnique = true →
  in_switch t = true →
  Forall (λ v, hashable v = true) (load h sl) →
  is_Some (h !! s_ptr sl) →
  (∃ sl' h',
     Slice_Unique ctx (VSlice t sl) h = (Ok (VSlice t sl'), h')
     ∧ load h' sl' = first_occurrences (load h sl)
     ∧ (s_ptr sl' ∉ dom h)
     ∧ (∀ p a, h !! p = Some a → h' !! p = Some a)
     ∧ load h' sl = load h sl)
  ∧ (∃ b',
       Slice_Unique ctx (VBytes b) h = (Ok (VBytes b'), h)
       ∧ bytes_elems b' = first_occurrences (bytes_elems b)).
Proof.
  intros Hperm Hsw Hh Hptr. split.
  - unfold Slice_Unique. rewrite Hperm, Hsw. cbn [negb].
    rewrite (uniqSlice_spec _ Hh). unfold alloc.
    set (r := first_occurrences (load h sl)). set (p := fresh (dom h)).
    assert (p ∉ dom h) as Hp by apply is_fresh.
    assert (∀ q a, h !! q = Some a → (<[p:=r]> h) !! q = Some a) as Hpre.
    { intros q a Hq. rewrite lookup_insert_ne; [done|].
      intros <-. apply Hp. apply elem_of_dom. eauto. }
    exists (mkSlice p 0 (length r)), (<[p:=r]> h).
    split; [done|]. split; [|split; [done|split; [done|]]].
    + unfold load. cbn [s_ptr s_off s_len]. rewrite lookup_insert_eq.
      simpl. rewrite drop_0. by rewrite firstn_all.
    + by apply heap_preserved_load.
  - unfold Slice_Unique. rewrite Hperm. cbn [negb].
    assert (Forall (λ v, hashable v = true) (bytes_elems b)) as Hb.
    { eapply Forall_impl; [apply bytes_elems_bytes|]. by intros v [c ->]. }
    rewrite (uniqSlice_spec _ Hb). eexists. split; [done|].
    apply bytes_elems_elems_bytes.
    pose proof (bytes_elems_bytes b) as Hbytes.
    rewrite Forall_forall in Hbytes |- *. intros x Hx. apply Hbytes.
    by apply (sublist_subseteq _ _ (first_occurrences_from_sublist [] _)).
Qed.

(** * Further properties *)

(** ** The allow-list *)

Lemma createAllowedFunctionSet_fold (D : list allowed) :
  createAllowedFunctionSet D = foldl allow_step (∅, ∅) (allFunctions D).
Proof.
  unfold createAllowedFunctionSet, allFunctions.
  by rewrite allFunctions_acc.
Qed.

(** X1. A function is permitted exactly when some descriptor names it
    and the generated table knows it: a name the table does not know is
    dropped without any error, and nothing else gets into the set. *)
Theorem IsPermitted_iff_listed_and_recognized (D : list allowed) (f : Func) :
  IsPermitted (createAllowedFunctionSet D).2 f = true
  ↔ f ∈ allFunctions D ∧ recognized f.
Proof.
  unfold IsPermitted. rewrite bool_decide_eq_true.
  rewrite createAllowedFunctionSet_fold.
  apply (allow_fold_spec (allFunctions D)).
Qed.

Lemma createAllowedFunctionSet_ext (D1 D2 : list allowed) :
  (∀ f, f ∈ allFunctions D1 ↔ f ∈ allFunctions D2) →
  createAllowedFunctionSet D1 = createAllowedFunctionSet D2.
Proof.
  intros Hsame. rewrite !createAllowedFunctionSet_fold.
  destruct (allow_fold_spec (allFunctions D1)) as [A2 A1].
  destruct (allow_fold_spec (allFunctions D2)) as [B2 B1].
  destruct (foldl allow_step (∅, ∅) (allFunctions D1)) as [n1 f1].
  destruct (foldl allow_step (∅, ∅) (allFunctions D2)) as [n2 f2].
  simpl in *. f_equal; apply set_eq; intros x.
  - rewrite A1, B1. by setoid_rewrite Hsame.
  - rewrite A2, B2. by rewrite Hsame.
Qed.

(** X2. The sets do not depend on the order of the descriptors nor on
    how often one is given. *)
Theorem createAllowedFunctionSet_order_and_repetition (D1 D2 : list allowed) :
  D1 ≡ₚ D2 →
  createAllowedFunctionSet D1 = createAllowedFunctionSet D2
  ∧ createAllowedFunctionSet (D1 ++ D1) = createAllowedFunctionSet D1.
Proof.
  intros Hperm. split; apply createAllowedFunctionSet_ext; intros f;
    unfold allFunctions.
  - by rewrite Hperm.
  - rewrite map_app, concat_app, elem_of_app. tauto.
Qed.

(** X3. A collection [funcs.Funcs] allows what its members allow when
    they are given one by one ([Funcs.Functions] and
    [Func.Functions]). *)
Theorem Funcs_as_its_members (fs : Funcs) :
  createAllowedFunctionSet [Allowed fs]
  = createAllowedFunctionSet (map (λ f : Func, Allowed f) fs).
Proof.
  apply createAllowedFunctionSet_ext. intros f. unfold allFunctions.
  simpl. rewrite app_nil_r.
  assert (concat (map allowed_Functions (map (λ f0 : Func, Allowed f0) fs))
          = fs) as ->; [|done].
  induction fs as [|g fs IH]; simpl; [done|]. by rewrite IH.
Qed.

Lemma expose_invariant (P : string → handle → Prop)
  (S : gset string) (name : string) (h : handle) (m : gmap string tfunc) :
  P name h →
  (∀ k h', m !! k = Some (FnNamespace h') → P k h') →
  ∀ k h', expose S name h m !! k = Some (FnNamespace h') → P k h'.
Proof.
  intros Hn Hm k h'. unfold expose. case_bool_decide; [|apply Hm].
  destruct (decide (k = name)) as [->|Hne].
  - rewrite lookup_insert_eq. by intros [= <-].
  - rewrite lookup_insert_ne by done. apply Hm.
Qed.

(** X4. Every namespace entry of the function map carries the template
    the map was built for and the one permitted set, and sits under the
    identifier of its own namespace. *)
Theorem FuncMap_handles_share_context
  (t : Template) (D : list allowed) (k : string) (h : handle) :
  FuncMap t D !! k = Some (FnNamespace h) →
  handle_ctx h = mkRootContext t (createAllowedFunctionSet D).2
  ∧ handle_name h = k.
Proof.
  unfold FuncMap. destruct (createAllowedFunctionSet D) as [nss fs].
  cbn [snd]. revert k h.
  repeat (apply expose_invariant; [done|]).
  intros k h. destruct (decide (k = "return")) as [->|Hne].
  - by rewrite lookup_singleton_eq.
  - by rewrite lookup_singleton_ne.
Qed.

(** X5. Allowing more never takes a namespace out of the function map,
    and never withdraws a permission. *)
Theorem FuncMap_monotone (t : Template) (D E : list allowed) (k : string)
  (f : Func) :
  (is_Some (FuncMap t D !! k) → is_Some (FuncMap t (D ++ E) !! k))
  ∧ (IsPermitted (createAllowedFunctionSet D).2 f = true →
     IsPermitted (createAllowedFunctionSet (D ++ E)).2 f = true).
Proof.
  split.
  - rewrite !FuncMap_is_Some, createAllowedFunctionSet_app_sets. simpl.
    set_solver.
  - unfold IsPermitted. rewrite !bool_decide_eq_true.
    rewrite createAllowedFunctionSet_app_sets. simpl. set_solver.
Qed.

(** ** The execution wrappers *)

(** X6. A permission error raised while a template runs is still found
    by [errors.As] on what [Execute] and [ExecuteTemplate] return, and
    with the same function. *)
Theorem Execute_keeps_permission_error
  (t : Template) (wr name : string) (data : value) (out : string)
  (e : error) (f : Func) :
  errors_As_ReturnError e = None →
  errors_As_FuncNotAllowed e = Some f →
  (tmpl_Execute t data = (out, Some e) →
   ∃ e', Execute t wr data = (Some e', wr +:+ out)
         ∧ errors_As_FuncNotAllowed e' = Some f)
  ∧ (tmpl_ExecuteTemplate t name data = (out, Some e) →
     ∃ e', ExecuteTemplate t wr name data = (Some e', wr +:+ out)
           ∧ errors_As_FuncNotAllowed e' = Some f).
Proof.
  intros Hret Hperm. unfold Execute, ExecuteTemplate, finishExecute.
  split; intros ->; rewrite Hret; eexists; (split; [done|]); done.
Qed.

(** X7. [QuickExecute] on a template that parses: a run without error
    gives the text written; a run that ends on a return signal gives the
    text written followed by the value printed, without error; any other
    failure gives the empty string, the text written being dropped, and
    the error of the run wrapped twice. *)
Theorem QuickExecute_outcomes
  (tmplStr : string) (data : value) (D : list allowed)
  (tmpl : Template) (out : string) (err : option error) :
  template_Parse (λ t, FuncMap t D) tmplStr = inl tmpl →
  tmpl_Execute tmpl data = (out, err) →
  QuickExecute tmplStr data D
  = match err with
    | None => (out, None)
    | Some e =>
        match errors_As_ReturnError e with
        | Some v => (out +:+ fmt_Sprint v, None)
        | None =>
            (EmptyString,
             Some (Wrapped "failed to execute template: %w" []
                     (Wrapped "failed to execute template: %w" [] e)))
        end
    end.
Proof.
  intros Hparse Hrun. unfold QuickExecute, Execute, finishExecute, fmt_Fprint.
  rewrite Hparse, Hrun. simpl.
  destruct err as [e|]; [|done].
  by destruct (errors_As_ReturnError e).
Qed.

(** ** Strings of digits *)

Lemma remove_commas_no_comma (s : string) :
  contains_comma (remove_commas s) = false.
Proof.
  induction s as [|c s IH]; simpl; [done|].
  destruct (Ascii.eqb c ",") eqn:E; [done|]. simpl. by rewrite E, IH.
Qed.

Lemma remove_commas_id (s : string) :
  contains_comma s = false → remove_commas s = s.
Proof.
  induction s as [|c s IH]; simpl; [done|].
  destruct (Ascii.eqb c ","); [done|]. simpl. intros H. by rewrite IH.
Qed.

Lemma strip_commas (s : string) :
  (if contains_comma s then remove_commas s else s) = remove_commas s.
Proof.
  destruct (contains_comma s) eqn:E; [done|]. by rewrite remove_commas_id.
Qed.

(** X8. The three readers of numbers in strings see a string only
    through what is left of it once every comma is taken out, wherever
    the commas stand: two strings that differ by commas only get the
    same result, value or error. *)
Theorem strTo_commas_ignored (s s' : string) :
  remove_commas s = remove_commas s' →
  strToInt64 s = strToInt64 s'
  ∧ strToUint64 s = strToUint64 s'
  ∧ strToFloat64 s = strToFloat64 s'.
Proof.
  intros H. unfold strToInt64, strToUint64, strToFloat64.
  by rewrite !strip_commas, H.
Qed.

(** What [ParseUint] makes of a string of decimal digits: the number,
    or a range error past [2^64 - 1]. *)
Lemma ParseUint_loop_decimal_total (s : string) (n : Z) :
  all_digits s = true → 0 ≤ n ≤ strconv.maxUint64 →
  strconv.ParseUint_loop 10 (strconv.maxUint64 / 10 + 1) s n false
  = if decode s n <=? strconv.maxUint64 then inr (decode s n, false)
    else inl ErrRange.
Proof.
  revert n. induction s as [|c s IH]; intros n Hd Hn; simpl in *.
  - destruct (n <=? strconv.maxUint64) eqn:E; [done|].
    apply Z.leb_gt in E. lia.
  - apply andb_true_iff in Hd as [Hc Hs]. rewrite Hc.
    pose proof Hc as Hb. apply is_digit_bounds in Hb.
    rewrite byte_neq_eqb by (change (strconv.byte "_") with 95; lia).
    pose proof (decode_mono s (n * 10 + (strconv.byte c - 48)) Hs) as Hm.
    unfold strconv.maxUint64 in *.
    change (2 ^ 64 - 1) with 18446744073709551615 in *.
    change (18446744073709551615 / 10 + 1) with 1844674407370955162 in *.
    destruct (10 <=? strconv.byte c - 48) eqn:E1;
      [apply Z.leb_le in E1; lia|].
    destruct (1844674407370955162 <=? n) eqn:E2.
    { apply Z.leb_le in E2.
      destruct (decode s (n * 10 + (strconv.byte c - 48))
                <=? 18446744073709551615) eqn:E; [|done].
      apply Z.leb_le in E. lia. }
    apply Z.leb_gt in E2.
    destruct (18446744073709551615 <? n * 10 + (strconv.byte c - 48)) eqn:E3.
    { apply Z.ltb_lt in E3.
      destruct (decode s (n * 10 + (strconv.byte c - 48))
                <=? 18446744073709551615) eqn:E; [|done].
      apply Z.leb_le in E. lia. }
    apply Z.ltb_ge in E3. apply IH; [done|lia].
Qed.

Lemma ParseUint_FormatUint_total (u : Z) :
  0 ≤ u →
  strconv.ParseUint (strconv.FormatUint u)
  = if u <=? strconv.maxUint64 then (u, None)
    else (strconv.maxUint64, Some ErrRange).
Proof.
  intros Hu. destruct (decide (u = 0)) as [->|Hne]; [done|].
  unfold strconv.FormatUint.
  pose proof (log2_fuel u Hu) as Hfuel.
  set (fuel := Z.to_nat (Z.log2 u)) in *.
  destruct (formatBits_head fuel u EmptyString ltac:(lia)) as (c & s & Heq & Hc).
  pose proof (formatBits_digits fuel u EmptyString Hu eq_refl) as Hd.
  pose proof (formatBits_decode fuel u EmptyString Hfuel) as Hdec.
  change (decode EmptyString u) with u in Hdec.
  rewrite Heq in *. unfold strconv.ParseUint.
  rewrite byte_neq_eqb by (change (strconv.byte "0") with 48; lia).
  rewrite ParseUint_loop_decimal_total; [|done|done].
  rewrite Hdec. by destruct (u <=? strconv.maxUint64).
Qed.

Lemma toUint64_FormatUint (u : Z) :
  0 ≤ u ≤ MaxUint64 →
  toUint64 (VString (strconv.FormatUint u)) = Ok u.
Proof.
  intros Hu. unfold toUint64, strToUint64.
  rewrite contains_comma_digits by (apply FormatUint_digits; lia).
  rewrite ParseUint_FormatUint; [done|]. exact Hu.
Qed.

(** X9. For every unsigned width and every [u] the width represents,
    converting the decimal string of [u] gives [u] back; for the widths
    8, 16 and 32, every larger [u] up to [2^64 - 1] is refused with the
    overflow error that carries [u]. *)
Theorem ToUint_decimal_round_trip (ctx : rootContext) (k : ukind) (u : Z) :
  IsPermitted (allowedFunctionSet ctx) (target_func (ToUintOf k)) = true →
  0 ≤ u ≤ MaxUint64 →
  Conv_call ctx (ToUintOf k) (VString (toString (VUint k u)))
  = if u <=? uint_max k then Ok (VUint k u) else Err (WouldOverflowInt u).
Proof.
  intros Hperm Hu.
  pose proof (toUint64_FormatUint u Hu) as H64.
  assert (∀ hi, toUint (VString (strconv.FormatUint u)) hi
                = if u <=? hi then Ok u else Err (WouldOverflowInt u)) as Hto.
  { intros hi. unfold toUint. rewrite H64.
    destruct (hi <? u) eqn:E1, (u <=? hi) eqn:E2; try done.
    - apply Z.ltb_lt in E1. apply Z.leb_le in E2. lia.
    - apply Z.ltb_ge in E1. apply Z.leb_gt in E2. lia. }
  destruct k;
    cbn [Conv_call target_func toString fmt_Sprint uint_max] in Hperm |- *;
    unfold Conv_ToUint8, Conv_ToUint16, Conv_ToUint32, Conv_ToUint64,
      Conv_ToUint;
    rewrite Hperm; cbn [negb]; rewrite ?Hto, ?H64;
    try (destruct (u <=? _); done).
  destruct (u <=? MaxUint64) eqn:E; [done|]. apply Z.leb_gt in E. lia.
Qed.

Lemma ParseInt_FormatInt_total (v : Z) :
  strconv.ParseInt (strconv.FormatInt v)
  = if (MinInt64 <=? v) && (v <=? MaxInt64) then (v, None)
    else if v <? 0 then (MinInt64, Some ErrRange)
    else (MaxInt64, Some ErrRange).
Proof.
  unfold MinInt64, MaxInt64.
  change (2 ^ 63) with 9223372036854775808.
  unfold strconv.FormatInt. destruct (v <? 0) eqn:E.
  - apply Z.ltb_lt in E. unfold strconv.ParseInt.
    change (Ascii.eqb "-" "+") with false.
    change (Ascii.eqb "-" "-") with true. cbv iota beta.
    rewrite ParseUint_FormatUint_total by lia.
    unfold strconv.maxUint64. change (2 ^ 64 - 1) with 18446744073709551615.
    change (2 ^ 63) with 9223372036854775808.
    repeat match goal with
           | |- context [?a <=? ?b] => destruct (Z.leb_spec a b)
           | |- context [?a <? ?b] => destruct (Z.ltb_spec a b)
           end; simpl; try lia; try done; f_equal; lia.
  - apply Z.ltb_ge in E.
    destruct (decide (v = 0)) as [->|Hne]; [done|].
    pose proof (log2_fuel v E) as Hfuel.
    destruct (formatBits_head (Z.to_nat (Z.log2 v)) v EmptyString
                ltac:(lia)) as (c & s & Heq & Hc).
    pose proof (ParseUint_FormatUint_total v E) as HP.
    unfold strconv.FormatUint in *. rewrite Heq in *.
    unfold strconv.ParseInt.
    rewrite (byte_neq_eqb c "+") by (change (strconv.byte "+") with 43; lia).
    rewrite (byte_neq_eqb c "-") by (change (strconv.byte "-") with 45; lia).
    cbv iota beta. rewrite HP.
    unfold strconv.maxUint64. change (2 ^ 64 - 1) with 18446744073709551615.
    change (2 ^ 63) with 9223372036854775808.
    repeat match goal with
           | |- context [?a <=? ?b] => destruct (Z.leb_spec a b)
           | |- context [?a <? ?b] => destruct (Z.ltb_spec a b)
           end; simpl; try lia; try done; f_equal; lia.
Qed.

Lemma lower_digit (c : ascii) :
  48 ≤ strconv.byte c ≤ 57 → strconv.lower c = strconv.byte c.
Proof.
  intros H. unfold strconv.lower.
  assert (strconv.byte c = 48 ∨ strconv.byte c = 49 ∨ strconv.byte c = 50
          ∨ strconv.byte c = 51 ∨ strconv.byte c = 52 ∨ strconv.byte c = 53
          ∨ strconv.byte c = 54 ∨ strconv.byte c = 55 ∨ strconv.byte c = 56
          ∨ strconv.byte c = 57) as Hc by lia.
  destruct Hc as [-> | [-> | [-> | [-> | [-> | [-> | [-> | [-> | [-> | ->]]]]]]]]];
    reflexivity.
Qed.

Lemma read_mantissa_digits (s : string) (d : Z) (sawdigits us : bool) :
  all_digits s = true →
  atof.read_mantissa false s d 0 false sawdigits us
  = (decode s d, 0,
     match s with EmptyString => sawdigits | _ => true end, us, EmptyString).
Proof.
  revert d sawdigits. induction s as [|c s IH]; intros d sawdigits Hd;
    simpl in *; [done|].
  apply andb_true_iff in Hd as [Hc Hs]. rewrite Hc.
  pose proof Hc as Hb. apply is_digit_bounds in Hb.
  rewrite byte_neq_eqb by (change (strconv.byte "_") with 95; lia).
  rewrite byte_neq_eqb by (change (strconv.byte ".") with 46; lia).
  rewrite IH by done. by destruct s.
Qed.

Lemma special_digit (c : ascii) (s : string) :
  48 ≤ strconv.byte c ≤ 57 →
  atof.special (String c s) = None
  ∧ atof.special (String "-" (String c s)) = None.
Proof.
  intros Hc.
  assert (atof.fold_case c = c) as Hf.
  { unfold atof.fold_case.
    destruct (65 <=? strconv.byte c) eqn:E; [apply Z.leb_le in E; lia|done]. }
  unfold atof.special. split.
  - rewrite (byte_neq_eqb c "+") by (change (strconv.byte "+") with 43; lia).
    rewrite (byte_neq_eqb c "-") by (change (strconv.byte "-") with 45; lia).
    rewrite (byte_neq_eqb c "i") by (change (strconv.byte "i") with 105; lia).
    rewrite (byte_neq_eqb c "I") by (change (strconv.byte "I") with 73; lia).
    rewrite (byte_neq_eqb c "n") by (change (strconv.byte "n") with 110; lia).
    rewrite (byte_neq_eqb c "N") by (change (strconv.byte "N") with 78; lia).
    done.
  - change (Ascii.eqb "-" "+") with false.
    change (Ascii.eqb "-" "-") with true. cbv iota beta.
    cbn [atof.commonPrefixLenIgnoreCase]. rewrite Hf.
    rewrite (byte_neq_eqb c "i") by (change (strconv.byte "i") with 105; lia).
    done.
Qed.

Lemma readFloat_digits (neg : bool) (c : ascii) (s : string) :
  all_digits (String c s) = true →
  atof.readFloat (if neg then String "-" (String c s) else String c s)
  = Some (float.of_decimal neg (decode (String c s) 0) 0).
Proof.
  intros Hd. pose proof Hd as Hd'. simpl in Hd'.
  apply andb_true_iff in Hd' as [Hc Hs]. apply is_digit_bounds in Hc.
  assert (∀ ds, all_digits ds = true →
            match ds with
            | String a (String b (String c' r)) =>
                if Ascii.eqb a "0" && (strconv.lower b =? 120)
                then (true, String c' r) else (false, ds)
            | _ => (false, ds)
            end = (false, ds)) as Hhex.
  { intros [|a [|b [|c' r]]] H; try done. simpl in H.
    apply andb_true_iff in H as [_ H]. apply andb_true_iff in H as [Hb _].
    apply is_digit_bounds in Hb. rewrite lower_digit by done.
    destruct (strconv.byte b =? 120) eqn:E; [apply Z.eqb_eq in E; lia|].
    by rewrite andb_false_r. }
  unfold atof.readFloat. destruct neg.
  - change (Ascii.eqb "-" "+") with false.
    change (Ascii.eqb "-" "-") with true. cbv iota beta.
    rewrite (Hhex _ Hd). rewrite read_mantissa_digits by done. done.
  - rewrite (byte_neq_eqb c "+") by (change (strconv.byte "+") with 43; lia).
    rewrite (byte_neq_eqb c "-") by (change (strconv.byte "-") with 45; lia).
    cbv iota beta.
    rewrite (Hhex _ Hd). rewrite read_mantissa_digits by done. done.
Qed.

(** [ParseFloat] on the decimal string of an integer gives the float
    nearest to it, or a range error when that is an infinity. *)
Lemma ParseFloat_FormatInt (v : Z) :
  atof.ParseFloat (strconv.FormatInt v)
  = if float.isInf (float.of_Z v) then (float.of_Z v, Some ErrRange)
    else (float.of_Z v, None).
Proof.
  destruct (decide (v = 0)) as [->|Hne]; [done|].
  set (u := Z.abs v).
  assert (0 < u) as Hu by lia.
  pose proof (log2_fuel u ltac:(lia)) as Hfuel.
  destruct (formatBits_head (Z.to_nat (Z.log2 u)) u EmptyString
              ltac:(lia)) as (c & s & Heq & Hc).
  pose proof (formatBits_digits (Z.to_nat (Z.log2 u)) u EmptyString
                ltac:(lia) eq_refl) as Hd.
  pose proof (formatBits_decode (Z.to_nat (Z.log2 u)) u EmptyString Hfuel)
    as Hdec.
  change (decode EmptyString u) with u in Hdec.
  rewrite Heq in Hd, Hdec.
  assert (float.of_decimal (v <? 0) u 0 = float.of_Z v) as Hval.
  { unfold float.of_decimal, float.of_Z, float.of_Z_exp, binary_normalize.
    destruct v as [|p|p]; [done| |]; simpl.
    - by rewrite Pos.mul_1_r.
    - by rewrite Pos.mul_1_r. }
  assert (strconv.FormatInt v
          = if v <? 0 then String "-" (String c s) else String c s) as Hfmt.
  { unfold strconv.FormatInt, strconv.FormatUint.
    destruct (v <? 0) eqn:E.
    - apply Z.ltb_lt in E. replace (- v) with u by lia. by rewrite Heq.
    - apply Z.ltb_ge in E. replace v with u at 1 2 by lia. by rewrite Heq. }
  unfold atof.ParseFloat. rewrite Hfmt.
  assert (48 ≤ strconv.byte c ≤ 57) as Hc' by lia.
  destruct (special_digit c s Hc') as [Hs1 Hs2].
  rewrite (readFloat_digits (v <? 0) c s Hd), Hdec, Hval.
  destruct (v <? 0); [rewrite Hs2|rewrite Hs1];
    by destruct (float.isInf (float.of_Z v)).
Qed.

(** ** Decimal strings outside the range of the target *)

Lemma ParseUint_minus (s : string) :
  strconv.ParseUint (String "-" s) = (0, Some ErrSyntax).
Proof. reflexivity. Qed.

(** X10. What [toInt64] does on the decimal string of any integer [v].
    Within the range of [int64] the result is [v].  Outside it there is
    no overflow error: the string goes to [ParseFloat], and the result
    is the conversion to [int64] of the float nearest to [v], returned
    with a [nil] error; only a [v] so large that this float is an
    infinity fails, with the range error of [ParseFloat]. *)
Theorem toInt64_decimal_string (v : Z) :
  toInt64 (VString (strconv.FormatInt v))
  = if (MinInt64 <=? v) && (v <=? MaxInt64) then Ok v
    else if float.isInf (float.of_Z v) then
           Err (Wrapped "could not convert %q to int64: %w"
                  [strconv.FormatInt v]
                  (NumError "ParseFloat" (strconv.FormatInt v) ErrRange))
    else Ok (int64_of_float (float.of_Z v)).
Proof.
  unfold toInt64, strToInt64.
  rewrite contains_comma_FormatInt, ParseInt_FormatInt_total,
    ParseFloat_FormatInt.
  destruct ((MinInt64 <=? v) && (v <=? MaxInt64)); [done|].
  by destruct (v <? 0), (float.isInf (float.of_Z v)).
Qed.

(** X11. The same for [toUint64]: the decimal string of an integer
    within the range of [uint64] gives that integer; that of any other
    integer, the negative ones included, is read as a float and
    converted with [uint64(f)], without an error unless the float is an
    infinity. *)
Theorem toUint64_decimal_string (v : Z) :
  toUint64 (VString (strconv.FormatInt v))
  = if (0 <=? v) && (v <=? MaxUint64) then Ok v
    else if float.isInf (float.of_Z v) then
           Err (Wrapped "could not convert %q to uint64: %w"
                  [strconv.FormatInt v]
                  (NumError "ParseFloat" (strconv.FormatInt v) ErrRange))
    else Ok (uint64_of_float (float.of_Z v)).
Proof.
  unfold toUint64, strToUint64.
  rewrite contains_comma_FormatInt, ParseFloat_FormatInt.
  unfold strconv.FormatInt. destruct (v <? 0) eqn:E.
  - apply Z.ltb_lt in E. rewrite ParseUint_minus.
    destruct (Z.leb_spec 0 v); [lia|]. cbn [andb].
    by destruct (float.isInf (float.of_Z v)).
  - apply Z.ltb_ge in E. rewrite ParseUint_FormatUint_total by done.
    destruct (Z.leb_spec 0 v); [|lia]. cbn [andb].
    change strconv.maxUint64 with MaxUint64.
    destruct (v <=? MaxUint64); [done|].
    by destruct (float.isInf (float.of_Z v)).
Qed.

(** X12. A string of decimal digits and the integer it denotes convert
    to the same [float64]: for every integer of [int64], whatever its
    kind, and for every larger one whose nearest float is finite. *)
Theorem toFloat64_decimal_string (k : ikind) (v : Z) :
  ((MinInt64 ≤ v ≤ MaxInt64) ∨ (float.isInf (float.of_Z v) = false)) →
  toFloat64 (VString (strconv.FormatInt v)) = toFloat64 (VInt k v)
  ∧ toFloat64 (VInt k v) = Ok (float.of_Z v).
Proof.
  intros Hv. split; [|done].
  unfold toFloat64 at 1. unfold strToFloat64.
  rewrite contains_comma_FormatInt, ParseInt_FormatInt_total,
    ParseFloat_FormatInt.
  destruct ((MinInt64 <=? v) && (v <=? MaxInt64)) eqn:E; [done|].
  destruct Hv as [Hv| ->].
  - apply andb_false_iff in E as [E|E]; apply Z.leb_gt in E; lia.
  - by destruct (v <? 0).
Qed.

(** X13. [Conv.ToUintN] on a negative signed integer.  A negative [int]
    or [int64] is refused.  A negative [int8], [int16] or [int32] is
    not: [toUint64] wraps it around to [2^64 + i], which [ToUint64] and
    [ToUint] return, and which the narrower targets refuse with an error
    that names this wrapped number. *)
Theorem ToUint_negative_signed (ctx : rootContext) (ku : ukind) (k : ikind)
  (i : Z) :
  IsPermitted (allowedFunctionSet ctx) (target_func (ToUintOf ku)) = true →
  int_min k ≤ i < 0 →
  Conv_call ctx (ToUintOf ku) (VInt k i)
  = match k with
    | KInt | KInt64 => Err (WouldOverflowInt64 i)
    | _ =>
        match ku with
        | KUint | KUint64 => Ok (VUint ku (2 ^ 64 + i))
        | _ => Err (WouldOverflowInt (2 ^ 64 + i))
        end
    end.
Proof.
  intros Hperm Hi.
  assert (toUint64 (VInt k i)
          = match k with
            | KInt | KInt64 => Err (WouldOverflowInt64 i)
            | _ => Ok (2 ^ 64 + i)
            end) as Hto.
  { unfold toUint64. cbn [reflect_Indirect].
    assert ((i <? 0) = true) as -> by (apply Z.ltb_lt; lia).
    destruct k; try done; f_equal;
      unfold int_min, MinInt8, MinInt16, MinInt32 in Hi;
      rewrite <- (Z.mod_add i 1 (2 ^ 64)) by lia;
      rewrite Z.mod_small; lia. }
  assert (∀ m, m < 2 ^ 64 + i → toUint (VInt k i) m
          = match k with
            | KInt | KInt64 => Err (WouldOverflowInt64 i)
            | _ => Err (WouldOverflowInt (2 ^ 64 + i))
            end) as Hnarrow.
  { intros m Hm. unfold toUint. rewrite Hto. destruct k; try done;
      (destruct (Z.ltb_spec m (2 ^ 64 + i)); [done|lia]). }
  assert (toUint (VInt k i) MaxUint
          = match k with
            | KInt | KInt64 => Err (WouldOverflowInt64 i)
            | _ => Ok (2 ^ 64 + i)
            end) as Hwide.
  { unfold toUint. rewrite Hto. destruct k; try done;
      unfold MaxUint, MaxUint64;
      (destruct (Z.ltb_spec (2 ^ 64 - 1) (2 ^ 64 + i)); [lia|done]). }
  assert (int_min k ≤ i → - 2 ^ 63 ≤ i) as Hlow.
  { destruct k; unfold int_min, MinInt8, MinInt16, MinInt32, MinInt, MinInt64;
      lia. }
  specialize (Hlow (proj1 Hi)).
  destruct ku; cbn [Conv_call target_func] in Hperm |- *;
    unfold Conv_ToUint8, Conv_ToUint16, Conv_ToUint32, Conv_ToUint64,
      Conv_ToUint;
    rewrite Hperm; cbn [negb].
  - rewrite Hnarrow by (unfold MaxUint8; lia). by destruct k.
  - rewrite Hnarrow by (unfold MaxUint16; lia). by destruct k.
  - rewrite Hnarrow by (unfold MaxUint32; lia). by destruct k.
  - rewrite Hto. by destruct k.
  - rewrite Hwide. by destruct k.
Qed.

(** ** Conversions of lists *)

Lemma fill_from_spec {T : Type} (f : value → T) (l : list value)
  (pre suf : list T) :
  length suf = length l →
  fill_from f (length pre) l (pre ++ suf) = pre ++ map f l.
Proof.
  revert pre suf. induction l as [|v l IH]; intros pre suf Hlen; simpl.
  - destruct suf; [done|discriminate].
  - destruct suf as [|z suf]; [discriminate|]. injection Hlen as Hlen.
    replace (<[length pre:=f v]> (pre ++ z :: suf))
      with ((pre ++ [f v]) ++ suf).
    + replace (S (length pre)) with (length (pre ++ [f v]))
        by (rewrite length_app; simpl; lia).
      rewrite IH by done. by rewrite <- app_assoc.
    + rewrite <- app_assoc. simpl.
      rewrite insert_app_r_alt by lia. by rewrite Nat.sub_diag.
Qed.

(** The loop with the error exit, against the elements: it ends well
    exactly when every element converts, with the converted elements in
    place, and with an error exactly when that is the error of the
    first element that does not convert. *)
Lemma convert_from_spec {T : Type} (f : value → result T) (l : list value)
  (pre suf : list T) :
  length suf = length l →
  (∀ out, convert_from f (length pre) l (pre ++ suf) = Ok out
          ↔ ∃ xs, out = pre ++ xs ∧ Forall2 (λ v x, f v = Ok x) l xs)
  ∧ (∀ e, convert_from f (length pre) l (pre ++ suf) = Err e
          ↔ ∃ i v, l !! i = Some v ∧ f v = Err e
                   ∧ Forall (λ w, ∃ x, f w = Ok x) (take i l)).
Proof.
  revert pre suf. induction l as [|v l IH]; intros pre suf Hlen.
  - destruct suf; [|discriminate]. simpl. rewrite app_nil_r. split.
    + intros out. split.
      * intros [= <-]. exists []. by rewrite app_nil_r.
      * intros (xs & -> & Hxs). apply Forall2_nil_inv_l in Hxs as ->.
        by rewrite app_nil_r.
    + intros e. split; [done|]. by intros (i & w & Hw & _).
  - destruct suf as [|z suf]; [discriminate|]. injection Hlen as Hlen.
    assert (∀ x, <[length pre:=x]> (pre ++ z :: suf) = (pre ++ [x]) ++ suf)
      as Hins.
    { intros x. rewrite <- app_assoc. simpl.
      rewrite insert_app_r_alt by lia. by rewrite Nat.sub_diag. }
    assert (∀ x : T, S (length pre) = length (pre ++ [x])) as HS
      by (intros x; rewrite length_app; simpl; lia).
    simpl. destruct (f v) as [x|e0|m] eqn:Hv.
    + rewrite Hins, (HS x).
      destruct (IH (pre ++ [x]) suf Hlen) as [IHok IHerr]. split.
      * intros out. rewrite IHok. split.
        -- intros (xs & -> & Hxs). exists (x :: xs).
           split; [by rewrite <- app_assoc|]. by constructor.
        -- intros (xs & -> & Hxs).
           apply Forall2_cons_inv_l in Hxs as (x' & xs' & Hx & Hxs & ->).
           rewrite Hv in Hx. injection Hx as <-.
           exists xs'. split; [by rewrite <- app_assoc|done].
      * intros e. rewrite IHerr. split.
        -- intros (i & w & Hw & He & Hall). exists (S i), w.
           split; [done|]. split; [done|]. simpl. constructor; eauto.
        -- intros ([|i] & w & Hw & He & Hall).
           ++ simpl in Hw. injection Hw as <-. congruence.
           ++ exists i, w. simpl in Hw, Hall.
              apply Forall_cons in Hall as [_ Hall]. done.
    + split.
      * intros out. split; [done|]. intros (xs & _ & Hxs).
        apply Forall2_cons_inv_l in Hxs as (x' & xs' & Hx & _). congruence.
      * intros e. split.
        -- intros [= <-]. exists 0%nat, v. split; [done|]. split; [done|].
           simpl. constructor.
        -- intros ([|i] & w & Hw & He & Hall).
           ++ simpl in Hw. injection Hw as <-. congruence.
           ++ simpl in Hall. apply Forall_cons in Hall as [[x Hx] _].
              congruence.
    + split.
      * intros out. split; [done|]. intros (xs & _ & Hxs).
        apply Forall2_cons_inv_l in Hxs as (x' & xs' & Hx & _). congruence.
      * intros e. split; [done|].
        intros ([|i] & w & Hw & He & Hall).
        -- simpl in Hw. injection Hw as <-. congruence.
        -- simpl in Hall. apply Forall_cons in Hall as [[x Hx] _].
           congruence.
Qed.

Lemma convert_from_converts_each {T : Type} (f : value → result T) (z : T) :
  converts_each f (λ l, convert_from f 0 l (replicate (length l) z)).
Proof.
  intros l.
  destruct (convert_from_spec f l [] (replicate (length l) z)
              (length_replicate _ _)) as [Hok Herr].
  simpl in Hok, Herr. split; [|done].
  intros out. rewrite Hok. split.
  - by intros (xs & -> & Hxs).
  - intros Hxs. by exists out.
Qed.

(** X14. The conversions of lists convert element by element.  Those
    that can fail ([toFloat64s], [toFloat32s], [toInt64s], [toInts],
    [toUint64s], [toUints]) return a list exactly when every element
    converts, and it holds the converted elements in the order of the
    input; they return an error exactly when some element does not
    convert, and it is the error of the first such element.  [toBools]
    and [toStrings] are the maps of [toBool] and [toString]. *)
Theorem conversions_of_lists :
  converts_each toFloat64 toFloat64s
  ∧ converts_each toFloat32 toFloat32s
  ∧ converts_each toInt64 toInt64s
  ∧ (∀ lo hi, converts_each (λ v, toInt v lo hi) (λ l, toInts l lo hi))
  ∧ converts_each toUint64 toUint64s
  ∧ (∀ hi, converts_each (λ v, toUint v hi) (λ l, toUints l hi))
  ∧ (∀ l, toBools l = map toBool l)
  ∧ (∀ l, toStrings l = map toString l).
Proof.
  split; [apply convert_from_converts_each|].
  split; [apply convert_from_converts_each|].
  split; [apply convert_from_converts_each|].
  split; [intros lo hi; apply convert_from_converts_each|].
  split; [apply convert_from_converts_each|].
  split; [intros hi; apply convert_from_converts_each|].
  split; intros l.
  - apply (fill_from_spec toBool l [] (replicate (length l) false)).
    apply length_replicate.
  - apply (fill_from_spec toString l [] (replicate (length l) EmptyString)).
    apply length_replicate.
Qed.

(** ** [Cmp.Or] *)

Lemma result_map_converts_each {T : Type} (f : value → result T)
  (F : list value → result (list T)) (g : list T → value) (s : list value) :
  converts_each f F →
  (∀ zs, Forall2 (λ v z, f v = Ok z) s zs → result_map g (F s) = Ok (g zs))
  ∧ (∀ j v e, s !! j = Some v → f v = Err e →
              Forall (λ w, ∃ z, f w = Ok z) (take j s) →
              result_map g (F s) = Err e).
Proof.
  intros Hce. destruct (Hce s) as [Hok Herr]. split.
  - intros zs Hzs. apply Hok in Hzs. by rewrite Hzs.
  - intros j v e Hv He Hall.
    assert (F s = Err e) as -> by (apply Herr; eauto). done.
Qed.

(** X15. [cmp.Or] with an integer first.  When the first argument is a
    signed integer, or an unsigned one of a width other than that of
    the platform, every argument is converted to the type of the first
    before any is looked at.  If they all convert, the result is the
    first converted argument that is not [0] ([0] when there is none),
    with the type of the first argument.  If one does not, the call
    fails with the error of the first such argument, also when an
    argument before it is not zero. *)
Theorem Cmp_Or_integers (ctx : rootContext) (rest : list value) (h : heap) :
  IsPermitted (allowedFunctionSet ctx) CmpOr = true →
  (∀ k i,
     let s := VInt k i :: rest in
     let conv v := match k with
                   | KInt64 => toInt64 v
                   | _ => toInt v (int_min k) (int_max k)
                   end in
     (∀ zs, Forall2 (λ v z, conv v = Ok z) s zs →
            Cmp_Or ctx s h = Ok (VInt k (cmp_Or (Z.eqb 0) 0 zs)))
     ∧ (∀ j v e, s !! j = Some v → conv v = Err e →
                 Forall (λ w, ∃ z, conv w = Ok z) (take j s) →
                 Cmp_Or ctx s h = Err e))
  ∧ (∀ k u, k ≠ KUint →
     let s := VUint k u :: rest in
     let conv v := match k with
                   | KUint64 => toUint64 v
                   | _ => toUint v (uint_max k)
                   end in
     (∀ zs, Forall2 (λ v z, conv v = Ok z) s zs →
            Cmp_Or ctx s h = Ok (VUint k (cmp_Or (Z.eqb 0) 0 zs)))
     ∧ (∀ j v e, s !! j = Some v → conv v = Err e →
                 Forall (λ w, ∃ z, conv w = Ok z) (take j s) →
                 Cmp_Or ctx s h = Err e)).
Proof.
  intros Hperm.
  pose proof (convert_from_converts_each toInt64 0) as Hi64.
  pose proof (λ lo hi, convert_from_converts_each (λ v, toInt v lo hi) 0)
    as Hi.
  pose proof (convert_from_converts_each toUint64 0) as Hu64.
  pose proof (λ hi, convert_from_converts_each (λ v, toUint v hi) 0) as Hu.
  split.
  - intros k i s conv. unfold Cmp_Or. rewrite Hperm. cbn [negb]. subst s conv.
    cbv beta iota.
    destruct k.
    + apply (result_map_converts_each _ _ _ _ (Hi MinInt8 MaxInt8)).
    + apply (result_map_converts_each _ _ _ _ (Hi MinInt16 MaxInt16)).
    + apply (result_map_converts_each _ _ _ _ (Hi MinInt32 MaxInt32)).
    + apply (result_map_converts_each _ _ _ _ Hi64).
    + apply (result_map_converts_each _ _ _ _ (Hi MinInt MaxInt)).
  - intros k u Hk s conv. unfold Cmp_Or. rewrite Hperm. cbn [negb].
    subst s conv. cbv beta iota.
    destruct k; [| | | |done].
    + apply (result_map_converts_each _ _ _ _ (Hu MaxUint8)).
    + apply (result_map_converts_each _ _ _ _ (Hu MaxUint16)).
    + apply (result_map_converts_each _ _ _ _ (Hu MaxUint32)).
    + apply (result_map_converts_each _ _ _ _ Hu64).
Qed.

(** X16. [cmp.Or] with a first argument of a type the switch does not
    name.  A [uint] is such: the arguments are then compared with [nil]
    as they are, so the call returns its first argument, even the
    [uint] zero, where with a [uint64] zero first it goes on to the
    next argument.  The same holds for a [[]any] and a [[]uint] first;
    and with [nil] first the result is the first argument that is not
    [nil], unconverted. *)
Theorem Cmp_Or_unlisted_first_argument (ctx : rootContext) (rest : list value)
  (h : heap) :
  IsPermitted (allowedFunctionSet ctx) CmpOr = true →
  (∀ u, Cmp_Or ctx (VUint KUint u :: rest) h = Ok (VUint KUint u))
  ∧ (∀ w,
       Cmp_Or ctx [VUint KUint64 0; VUint KUint64 w] h = Ok (VUint KUint64 w)
       ∧ Cmp_Or ctx [VUint KUint 0; VUint KUint w] h = Ok (VUint KUint 0))
  ∧ (∀ sl, Cmp_Or ctx (VSlice TAny sl :: rest) h = Ok (VSlice TAny sl)
           ∧ Cmp_Or ctx (VSlice (TUint KUint) sl :: rest) h
             = Ok (VSlice (TUint KUint) sl))
  ∧ Cmp_Or ctx (VNil :: rest) h = Ok (cmp_Or is_nil VNil rest).
Proof.
  intros Hperm. unfold Cmp_Or. rewrite Hperm. cbn [negb].
  split; [done|]. split; [|done].
  intros w. split; [|done].
  unfold toUint64s. simpl. by destruct w.
Qed.

(** ** [Slice.Reverse] and its composition with [Slice.Sort] *)

Lemma clone_header (h : heap) (sl : slice) :
  (slices_Clone h sl).1
  = if (s_len sl =? 0)%nat then mkSlice (s_ptr sl) (s_off sl) 0
    else mkSlice (fresh (dom h)) 0 (s_len sl).
Proof. unfold slices_Clone. by destruct (s_len sl =? 0)%nat. Qed.

Lemma toAnySlice_spec (h : heap) (l : list value) :
  ∃ a h1,
    toAnySlice h l = (a, h1)
    ∧ load h1 a = l
    ∧ (∀ p b, h !! p = Some b → h1 !! p = Some b)
    ∧ (s_ptr a ∉ dom h)
    ∧ s_len a = length l
    ∧ (dom h ⊆ dom h1).
Proof.
  unfold toAnySlice, alloc. set (p := fresh (dom h)).
  assert (p ∉ dom h) as Hp by apply is_fresh.
  eexists _, _. split; [done|]. cbn [s_ptr s_len].
  split; [|split; [|split; [done|split; [done|]]]].
  - unfold load. cbn [s_ptr s_off s_len]. rewrite lookup_insert_eq. simpl.
    rewrite drop_0. by rewrite firstn_all.
  - intros q b Hq. rewrite lookup_insert_ne; [done|].
    intros <-. apply Hp. apply elem_of_dom. eauto.
  - rewrite dom_insert. set_solver.
Qed.

Lemma Slice_Reverse_any_elems (ctx : rootContext) (sl : slice) (h : heap) :
  IsPermitted (allowedFunctionSet ctx) SliceReverse = true →
  ∃ sl' h',
    Slice_Reverse_any ctx sl h = (Ok (VSlice TAny sl'), h')
    ∧ load h' sl' = rev (load h sl)
    ∧ (∀ p a, h !! p = Some a → h' !! p = Some a)
    ∧ ((0 < s_len sl)%nat → s_ptr sl' ∉ dom h)
    ∧ ((s_len sl = 0)%nat → s_ptr sl' = s_ptr sl)
    ∧ s_len sl' = s_len sl.
Proof.
  intros Hperm. unfold Slice_Reverse_any. rewrite Hperm. cbn [negb].
  destruct (clone_then_store (@rev value) h sl (@length_rev value))
    as (sl' & h2 & Hc & Hh2 & Hload & Hpre & Hnew).
  exists sl', h2. rewrite Hc. unfold slices_Reverse. rewrite <- Hh2.
  split; [done|]. split; [done|]. split; [done|]. split; [done|].
  assert (sl' = (slices_Clone h sl).1) as -> by by rewrite Hc.
  rewrite clone_header. split.
  - by intros ->.
  - destruct (s_len sl =? 0)%nat eqn:E; [|done].
    apply Nat.eqb_eq in E. by rewrite E.
Qed.

Lemma Slice_Reverse_elems (ctx : rootContext) (t : elemtype) (sl : slice)
  (h : heap) :
  IsPermitted (allowedFunctionSet ctx) SliceReverse = true →
  in_switch t = true →
  ∃ sl' h',
    Slice_Reverse ctx (VSlice t sl) h = (Ok (VSlice TAny sl'), h')
    ∧ load h' sl' = rev (load h sl)
    ∧ (∀ p a, h !! p = Some a → h' !! p = Some a)
    ∧ ((0 < s_len sl)%nat ∨ t ≠ TAny → s_ptr sl' ∉ dom h)
    ∧ (length (load h sl) = s_len sl → s_len sl' = s_len sl).
Proof.
  intros Hperm Hsw.
  assert (t ≠ TAny →
    ∃ sl' h',
      (let '(a, h0) := toAnySlice h (load h sl) in Slice_Reverse_any ctx a h0)
      = (Ok (VSlice TAny sl'), h')
      ∧ load h' sl' = rev (load h sl)
      ∧ (∀ p a, h !! p = Some a → h' !! p = Some a)
      ∧ ((0 < s_len sl)%nat ∨ t ≠ TAny → s_ptr sl' ∉ dom h)
      ∧ (length (load h sl) = s_len sl → s_len sl' = s_len sl)) as Hmain.
  { intros _.
    destruct (toAnySlice_spec h (load h sl))
      as (a & h1 & Ha & Hla & Hpre1 & Hfresh & Hlen & Hdom).
    rewrite Ha.
    destruct (Slice_Reverse_any_elems ctx a h1 Hperm)
      as (sl' & h2 & Hr & Hl2 & Hpre2 & Hnew & Hsame & Hlen2).
    exists sl', h2. rewrite Hr, Hl2, Hla.
    split; [done|]. split; [done|]. split; [by eauto|].
    split; [|by intros <-; rewrite Hlen2].
    intros _. destruct (decide (s_len a = 0)%nat) as [E|E].
    - by rewrite (Hsame E).
    - intros Hin. apply (Hnew ltac:(lia)). by apply Hdom. }
  unfold Slice_Reverse. rewrite Hperm. cbn [negb].
  destruct t as [| | |k|k|k].
  - destruct (Slice_Reverse_any_elems ctx sl h Hperm)
      as (sl' & h2 & Hr & Hl2 & Hpre2 & Hnew & _ & Hlen2).
    exists sl', h2. split; [done|]. split; [done|]. split; [done|].
    split; [|done].
    intros [H|H]; [by apply Hnew|done].
  - exact (Hmain ltac:(done)).
  - exact (Hmain ltac:(done)).
  - exact (Hmain ltac:(done)).
  - exact (Hmain ltac:(done)).
  - destruct k; [exact (Hmain ltac:(done))..|done].
Qed.

(** X17. When [slice.Reverse] is permitted, on a slice of any type its
    switch names it returns a [[]any], whatever the element type of the
    input, that holds the elements of the input in reverse order; every
    array of the heap is as before, so the input is unchanged; and the
    result is in a new array (for a [[]any] input, when it is not
    empty). *)
Theorem Slice_Reverse_spec (ctx : rootContext) (t : elemtype) (sl : slice)
  (h : heap) :
  IsPermitted (allowedFunctionSet ctx) SliceReverse = true →
  in_switch t = true →
  is_Some (h !! s_ptr sl) →
  ∃ sl' h',
    Slice_Reverse ctx (VSlice t sl) h = (Ok (VSlice TAny sl'), h')
    ∧ load h' sl' = rev (load h sl)
    ∧ (∀ p a, h !! p = Some a → h' !! p = Some a)
    ∧ load h' sl = load h sl
    ∧ ((0 < s_len sl)%nat ∨ t ≠ TAny → s_ptr sl' ∉ dom h).
Proof.
  intros Hperm Hsw Hptr.
  destruct (Slice_Reverse_elems ctx t sl h Hperm Hsw)
    as (sl' & h' & Hr & Hl & Hpre & Hnew & _).
  exists sl', h'. split; [done|]. split; [done|]. split; [done|].
  split; [by apply heap_preserved_load|done].
Qed.

(** X18. Reversing twice gives the elements back in their order, in a
    [[]any]. *)
Theorem Slice_Reverse_twice (ctx : rootContext) (t : elemtype) (sl : slice)
  (h : heap) :
  IsPermitted (allowedFunctionSet ctx) SliceReverse = true →
  in_switch t = true →
  ∃ v1 h1 sl2 h2,
    Slice_Reverse ctx (VSlice t sl) h = (Ok v1, h1)
    ∧ Slice_Reverse ctx v1 h1 = (Ok (VSlice TAny sl2), h2)
    ∧ load h2 sl2 = load h sl.
Proof.
  intros Hperm Hsw.
  destruct (Slice_Reverse_elems ctx t sl h Hperm Hsw)
    as (sl1 & h1 & Hr1 & Hl1 & _).
  destruct (Slice_Reverse_elems ctx TAny sl1 h1 Hperm eq_refl)
    as (sl2 & h2 & Hr2 & Hl2 & _).
  exists (VSlice TAny sl1), h1, sl2, h2.
  split; [done|]. split; [done|]. by rewrite Hl2, Hl1, rev_involutive.
Qed.

Lemma Slice_Sort_elems (ctx : rootContext) (t : elemtype) (sl : slice)
  (h : heap) :
  IsPermitted (allowedFunctionSet ctx) SliceSort = true →
  in_switch t = true →
  t ≠ TAny →
  ∃ sl' h',
    Slice_Sort ctx (VSlice t sl) h = (Ok (VSlice t sl'), h')
    ∧ load h' sl' = insertionSort (less t) (load h sl)
    ∧ (∀ p a, h !! p = Some a → h' !! p = Some a)
    ∧ s_len sl' = s_len sl.
Proof.
  intros Hperm Hsw Ht.
  assert (∃ sl' h',
      (let '(sl0, h0) := slices_Clone h sl in
       (Ok (VSlice t sl0), slices_Sort t h0 sl0))
      = (Ok (VSlice t sl'), h')
      ∧ load h' sl' = insertionSort (less t) (load h sl)
      ∧ (∀ p a, h !! p = Some a → h' !! p = Some a)
      ∧ s_len sl' = s_len sl) as Hmain.
  { destruct (clone_then_store (insertionSort (less t)) h sl
                (insertionSort_length (less t)))
      as (sl' & h2 & Hc & Hh2 & Hload & Hpre & Hnew).
    exists sl', h2. rewrite Hc. unfold slices_Sort. rewrite <- Hh2.
    split; [done|]. split; [done|]. split; [done|].
    assert (sl' = (slices_Clone h sl).1) as -> by by rewrite Hc.
    rewrite clone_header.
    destruct (s_len sl =? 0)%nat eqn:E; [|done].
    apply Nat.eqb_eq in E. by rewrite E. }
  unfold Slice_Sort. rewrite Hperm. cbn [negb].
  destruct t as [| | |k|k|k]; try done.
  destruct k; done.
Qed.

(** X19. Sorting and reversing do not commute.  Reversing the sorted
    slice works and gives the elements in descending order: no element
    is before one to its right.  Sorting the reversed slice fails,
    because [Reverse] has turned the typed slice into a [[]any], which
    [Sort] refuses. *)
Theorem Slice_Sort_and_Reverse (ctx : rootContext) (t : elemtype) (sl : slice)
  (h : heap) :
  IsPermitted (allowedFunctionSet ctx) SliceSort = true →
  IsPermitted (allowedFunctionSet ctx) SliceReverse = true →
  in_switch t = true →
  t ≠ TAny →
  Forall (has_type t) (load h sl) →
  (∃ v1 h1 sl2 h2,
     Slice_Sort ctx (VSlice t sl) h = (Ok v1, h1)
     ∧ Slice_Reverse ctx v1 h1 = (Ok (VSlice TAny sl2), h2)
     ∧ load h2 sl2 ≡ₚ load h sl
     ∧ StronglySorted (λ a b, less t a b = false) (load h2 sl2))
  ∧ (∃ v1 h1,
       Slice_Reverse ctx (VSlice t sl) h = (Ok v1, h1)
       ∧ Slice_Sort ctx v1 h1 = (Err ErrCannotSortAnySlice, h1)).
Proof.
  intros Hsort Hrev Hsw Ht Hty. split.
  - destruct (Slice_Sort_elems ctx t sl h Hsort Hsw Ht)
      as (sl1 & h1 & Hr1 & Hl1 & _).
    destruct (Slice_Reverse_elems ctx t sl1 h1 Hrev Hsw)
      as (sl2 & h2 & Hr2 & Hl2 & _).
    exists (VSlice t sl1), h1, sl2, h2.
    split; [done|]. split; [done|]. rewrite Hl2, Hl1. split.
    + by rewrite <- Permutation_rev, insertionSort_perm.
    + apply (StronglySorted_rev (λ a b, less t b a = false)).
      apply (insertionSort_sorted (less t) (has_type t));
        [apply less_asym|apply less_ge_trans|done].
  - destruct (Slice_Reverse_elems ctx t sl h Hrev Hsw)
      as (sl1 & h1 & Hr1 & _).
    exists (VSlice TAny sl1), h1. split; [done|].
    unfold Slice_Sort. by rewrite Hsort.
Qed.

(** ** [Slice.Sort] on what is sorted already, and on a rearrangement *)

Lemma insert_fold_of_sorted (lt : value → value → bool)
  (l acc : list value) :
  StronglySorted (λ a b, lt b a = false) l →
  Forall (λ x, Forall (λ a, lt x a = false) acc) l →
  foldl (λ prefix_rev x, insert_back lt x prefix_rev) acc l = rev l ++ acc.
Proof.
  revert acc. induction l as [|x l IH]; intros acc Hs Hacc; simpl; [done|].
  apply StronglySorted_cons in Hs as [Hx Hs].
  apply Forall_cons in Hacc as [Hxa Hacc].
  assert (insert_back lt x acc = x :: acc) as ->.
  { destruct acc as [|y r]; [done|]. simpl.
    apply Forall_cons in Hxa as [-> _]. done. }
  rewrite IH; [by rewrite <- app_assoc|done|].
  rewrite Forall_forall in Hx, Hacc |- *. intros y Hy.
  constructor; [by apply Hx|by apply Hacc].
Qed.

Lemma insertionSort_of_sorted (lt : value → value → bool) (l : list value) :
  StronglySorted (λ a b, lt b a = false) l → insertionSort lt l = l.
Proof.
  intros Hs. unfold insertionSort.
  rewrite insert_fold_of_sorted; [|done|].
  - by rewrite app_nil_r, rev_involutive.
  - apply Forall_forall. intros x _. constructor.
Qed.

(** X20. Sorting the result of [Sort] changes nothing: the second call
    returns the same elements in the same order. *)
Theorem Slice_Sort_idempotent (ctx : rootContext) (t : elemtype) (sl : slice)
  (h : heap) :
  IsPermitted (allowedFunctionSet ctx) SliceSort = true →
  in_switch t = true →
  t ≠ TAny →
  Forall (has_type t) (load h sl) →
  ∃ sl1 h1 sl2 h2,
    Slice_Sort ctx (VSlice t sl) h = (Ok (VSlice t sl1), h1)
    ∧ Slice_Sort ctx (VSlice t sl1) h1 = (Ok (VSlice t sl2), h2)
    ∧ load h2 sl2 = load h1 sl1.
Proof.
  intros Hperm Hsw Ht Hty.
  destruct (Slice_Sort_elems ctx t sl h Hperm Hsw Ht)
    as (sl1 & h1 & Hr1 & Hl1 & _).
  destruct (Slice_Sort_elems ctx t sl1 h1 Hperm Hsw Ht)
    as (sl2 & h2 & Hr2 & Hl2 & _).
  exists sl1, h1, sl2, h2. split; [done|]. split; [done|].
  rewrite Hl2. apply insertionSort_of_sorted. rewrite Hl1.
  apply (insertionSort_sorted (less t) (has_type t));
    [apply less_asym|apply less_ge_trans|done].
Qed.

Lemma sorted_perm_unique (R : relation value) (P : value → Prop)
  (l1 l2 : list value) :
  (∀ x y, P x → P y → R x y → R y x → x = y) →
  Forall P l1 →
  StronglySorted R l1 → StronglySorted R l2 → l1 ≡ₚ l2 → l1 = l2.
Proof.
  intros Hanti. revert l2.
  induction l1 as [|x l1 IH]; intros l2 HP Hs1 Hs2 Hperm.
  - by apply Permutation_nil_l in Hperm.
  - destruct l2 as [|y l2]; [by apply Permutation_nil_r in Hperm|].
    apply Forall_cons in HP as [Px HP].
    apply StronglySorted_cons in Hs1 as [Hx Hs1].
    apply StronglySorted_cons in Hs2 as [Hy Hs2].
    rewrite Forall_forall in Hx, Hy.
    assert (Forall P (y :: l2)) as HP2.
    { rewrite <- Hperm. by constructor. }
    apply Forall_cons in HP2 as [Py HP2].
    assert (x = y) as <-.
    { assert (x ∈ y :: l2) as Hxin by (rewrite <- Hperm; left).
      assert (y ∈ x :: l1) as Hyin by (rewrite Hperm; left).
      apply elem_of_cons in Hxin as [->|Hxin]; [done|].
      apply elem_of_cons in Hyin as [->|Hyin]; [done|].
      apply Hanti; [done|done|by apply Hx|by apply Hy]. }
    f_equal. apply IH; [done|done|done|].
    by apply (Permutation_cons_inv (a := x)).
Qed.

Lemma less_antisym (t : elemtype) (x y : value) :
  t ≠ TAny → (∀ k, t ≠ TFloat k) →
  has_type t x → has_type t y →
  less t y x = false → less t x y = false → x = y.
Proof.
  intros Ht Hf.
  destruct t as [| | |k|k|k]; [done| | |by destruct (Hf k)| |];
    destruct x, y; simpl; try done.
  - by destruct b, b0.
  - intros _ _. unfold string_ltb. intros H1 H2.
    destruct (String.compare s s0) eqn:E.
    + by apply String.compare_eq_iff in E as ->.
    + done.
    + rewrite String.compare_antisym, E in H1. done.
  - intros <- <-. rewrite !Z.ltb_ge. intros. f_equal. lia.
  - intros <- <-. rewrite !Z.ltb_ge. intros. f_equal. lia.
Qed.

(** X21. On booleans, strings and integers the result of [Sort] depends
    on the elements only, not on the order they come in: two slices
    that hold the same elements, each as many times, sort to the same
    sequence.  (On floats it need not: [0] and [-0] are equal for the
    order and distinct as values.) *)
Theorem Slice_Sort_of_rearrangement (ctx : rootContext) (t : elemtype)
  (sl1 sl2 : slice) (h1 h2 : gmap positive (list value)) :
  IsPermitted (allowedFunctionSet ctx) SliceSort = true →
  in_switch t = true →
  t ≠ TAny →
  (∀ k, t ≠ TFloat k) →
  Forall (has_type t) (load h1 sl1) →
  load h1 sl1 ≡ₚ load h2 sl2 →
  ∃ r1 h1' r2 h2',
    Slice_Sort ctx (VSlice t sl1) h1 = (Ok (VSlice t r1), h1')
    ∧ Slice_Sort ctx (VSlice t sl2) h2 = (Ok (VSlice t r2), h2')
    ∧ load h1' r1 = load h2' r2.
Proof.
  intros Hperm Hsw Ht Hf Hty Hp.
  destruct (Slice_Sort_elems ctx t sl1 h1 Hperm Hsw Ht)
    as (r1 & h1' & Hr1 & Hl1 & _).
  destruct (Slice_Sort_elems ctx t sl2 h2 Hperm Hsw Ht)
    as (r2 & h2' & Hr2 & Hl2 & _).
  exists r1, h1', r2, h2'. split; [done|]. split; [done|].
  rewrite Hl1, Hl2.
  assert (Forall (has_type t) (load h2 sl2)) as Hty2 by by rewrite <- Hp.
  apply (sorted_perm_unique (λ a b, less t b a = false) (has_type t)).
  - intros x y Hx Hy. by apply less_antisym.
  - by rewrite insertionSort_perm.
  - apply (insertionSort_sorted (less t) (has_type t));
      [apply less_asym|apply less_ge_trans|done].
  - apply (insertionSort_sorted (less t) (has_type t));
      [apply less_asym|apply less_ge_trans|done].
  - by rewrite !insertionSort_perm.
Qed.

(** ** What [Slice.Unique] returns *)

Lemma Slice_Unique_elems (ctx : rootContext) (t : elemtype) (sl : slice)
  (h : heap) :
  IsPermitted (allowedFunctionSet ctx) SliceUnique = true →
  in_switch t = true →
  Forall (λ v, hashable v = true) (load h sl) →
  ∃ sl' h',
    Slice_Unique ctx (VSlice t sl) h = (Ok (VSlice t sl'), h')
    ∧ load h' sl' = first_occurrences (load h sl)
    ∧ s_len sl' = length (first_occurrences (load h sl)).
Proof.
  intros Hperm Hsw Hh.
  unfold Slice_Unique. rewrite Hperm, Hsw. cbn [negb].
  rewrite (uniqSlice_spec _ Hh). unfold alloc.
  eexists _, _. split; [done|]. split; [|done].
  unfold load. cbn [s_ptr s_off s_len]. rewrite lookup_insert_eq.
  simpl. rewrite drop_0. by rewrite firstn_all.
Qed.

Lemma float_eqb_sym (x y : spec_float) : float.eqb x y = float.eqb y x.
Proof.
  unfold float.eqb, SFeqb, SFcompare.
  float_cases x y S754_nan.
Qed.

Lemma go_eq_sym (x y : value) : go_eq x y = go_eq y x.
Proof.
  destruct x, y; simpl; try done.
  - by destruct b, b0.
  - apply bool_decide_ext. split; intros H; symmetry; exact H.
  - f_equal; [|apply Z.eqb_sym].
    apply bool_decide_ext; split; intros H; symmetry; exact H.
  - f_equal; [|apply Z.eqb_sym].
    apply bool_decide_ext; split; intros H; symmetry; exact H.
  - f_equal; [|apply float_eqb_sym].
    apply bool_decide_ext; split; intros H; symmetry; exact H.
  - apply N.eqb_sym.
  - f_equal; [|apply N.eqb_sym].
    apply bool_decide_ext; split; intros H; symmetry; exact H.
Qed.

Lemma StronglySorted_lookup (R : relation value) (l : list value)
  (i j : nat) (x y : value) :
  StronglySorted R l → (i < j)%nat →
  l !! i = Some x → l !! j = Some y → R x y.
Proof.
  intros Hs. revert i j. induction Hs as [|a l Hs IH Ha]; intros i j Hij Hi Hj.
  - done.
  - destruct j as [|j]; [lia|]. destruct i as [|i]; simpl in Hi, Hj.
    + injection Hi as <-. rewrite Forall_forall in Ha. apply Ha.
      by apply list_elem_of_lookup_2 in Hj.
    + apply (IH i j); [lia|done|done].
Qed.

Lemma first_occurrences_from_pairwise (earlier l : list value) :
  StronglySorted (λ x y, go_eq y x = false) (first_occurrences_from earlier l).
Proof.
  revert earlier. induction l as [|v l IH]; intros earlier; simpl.
  - constructor.
  - destruct (existsb (go_eq v) earlier); [apply IH|].
    constructor; [apply IH|].
    apply Forall_forall. intros y Hy.
    apply first_occurrences_from_distinct in Hy.
    rewrite existsb_snoc in Hy. by apply orb_false_iff in Hy as [_ Hy].
Qed.

Lemma first_occurrences_from_covers (earlier l : list value) (x : value) :
  x ∈ l →
  existsb (go_eq x) earlier = true
  ∨ x ∈ first_occurrences_from earlier l
  ∨ ∃ y, y ∈ first_occurrences_from earlier l ∧ go_eq x y = true.
Proof.
  revert earlier. induction l as [|v l IH]; intros earlier Hx;
    [by apply elem_of_nil in Hx|].
  simpl. apply elem_of_cons in Hx as [->|Hx].
  - destruct (existsb (go_eq v) earlier); [by left|]. right. left. left.
  - destruct (IH (earlier ++ [v]) Hx) as [He|[Hin|(y & Hy & Hxy)]].
    + rewrite existsb_snoc in He. apply orb_true_iff in He as [He|He];
        [by left|].
      destruct (existsb (go_eq v) earlier) eqn:E.
      * left. apply existsb_exists in E as (k & Hk & Hvk).
        apply existsb_exists. exists k. split; [done|].
        by apply (go_eq_trans x v k).
      * right. right. exists v. split; [left|done].
    + destruct (existsb (go_eq v) earlier); right; left; [done|by right].
    + destruct (existsb (go_eq v) earlier); right; right; exists y;
        (split; [|done]); [done|by right].
Qed.

Lemma first_occurrences_from_fixed (earlier r : list value) :
  Forall (λ x, existsb (go_eq x) earlier = false) r →
  StronglySorted (λ x y, go_eq y x = false) r →
  first_occurrences_from earlier r = r.
Proof.
  revert earlier. induction r as [|v r IH]; intros earlier He Hs; simpl;
    [done|].
  apply Forall_cons in He as [Hv He].
  apply StronglySorted_cons in Hs as [Hvr Hs].
  rewrite Hv. f_equal. apply IH; [|done].
  rewrite Forall_forall in He, Hvr |- *. intros x Hx.
  rewrite existsb_snoc, (He x Hx), (Hvr x Hx). done.
Qed.

(** X22. What the result of [Unique] is like: it is the input with
    elements left out, in the order of the input; no two of its
    elements are equal (by Go's [==]); and it loses no value, as every
    element of the input is in it or is equal to one that is. *)
Theorem Slice_Unique_result (ctx : rootContext) (t : elemtype) (sl : slice)
  (h : heap) :
  IsPermitted (allowedFunctionSet ctx) SliceUnique = true →
  in_switch t = true →
  Forall (λ v, hashable v = true) (load h sl) →
  ∃ sl' h',
    Slice_Unique ctx (VSlice t sl) h = (Ok (VSlice t sl'), h')
    ∧ sublist (load h' sl') (load h sl)
    ∧ (∀ i j x y, (i < j)%nat → load h' sl' !! i = Some x →
                  load h' sl' !! j = Some y → go_eq x y = false)
    ∧ (∀ x, x ∈ load h sl →
            x ∈ load h' sl' ∨ ∃ y, y ∈ load h' sl' ∧ go_eq x y = true).
Proof.
  intros Hperm Hsw Hh.
  destruct (Slice_Unique_elems ctx t sl h Hperm Hsw Hh)
    as (sl' & h' & Hr & Hl & _).
  exists sl', h'. split; [done|]. rewrite Hl. unfold first_occurrences.
  split; [apply first_occurrences_from_sublist|]. split.
  - intros i j x y Hij Hi Hj.
    pose proof (first_occurrences_from_pairwise [] (load h sl)) as Hs.
    rewrite go_eq_sym.
    exact (StronglySorted_lookup _ _ i j x y Hs Hij Hi Hj).
  - intros x Hx.
    by destruct (first_occurrences_from_covers [] (load h sl) x Hx)
      as [He|[Hin|Hy]]; [|left|right].
Qed.

(** X23. [Unique] on the result of [Unique] changes nothing. *)
Theorem Slice_Unique_idempotent (ctx : rootContext) (t : elemtype)
  (sl : slice) (h : heap) :
  IsPermitted (allowedFunctionSet ctx) SliceUnique = true →
  in_switch t = true →
  Forall (λ v, hashable v = true) (load h sl) →
  ∃ sl1 h1 sl2 h2,
    Slice_Unique ctx (VSlice t sl) h = (Ok (VSlice t sl1), h1)
    ∧ Slice_Unique ctx (VSlice t sl1) h1 = (Ok (VSlice t sl2), h2)
    ∧ load h2 sl2 = load h1 sl1.
Proof.
  intros Hperm Hsw Hh.
  destruct (Slice_Unique_elems ctx t sl h Hperm Hsw Hh)
    as (sl1 & h1 & Hr1 & Hl1 & _).
  assert (Forall (λ v, hashable v = true) (load h1 sl1)) as Hh1.
  { rewrite Hl1. rewrite Forall_forall in Hh |- *. intros x Hx.
    apply Hh.
    by apply (sublist_subseteq _ _ (first_occurrences_from_sublist [] _)). }
  destruct (Slice_Unique_elems ctx t sl1 h1 Hperm Hsw Hh1)
    as (sl2 & h2 & Hr2 & Hl2 & _).
  exists sl1, h1, sl2, h2. split; [done|]. split; [done|].
  rewrite Hl2, Hl1. unfold first_occurrences.
  apply first_occurrences_from_fixed.
  - apply Forall_forall. by intros x _.
  - apply first_occurrences_from_pairwise.
Qed.

(** ** [Slice.Compact] *)

Lemma clone_load (h : heap) (sl : slice) :
  load (slices_Clone h sl).2 (slices_Clone h sl).1 = load h sl.
Proof.
  unfold slices_Clone. destruct (s_len sl =? 0)%nat eqn:E; cbn [fst snd].
  - apply Nat.eqb_eq in E. unfold load. cbn [s_len]. by rewrite E.
  - unfold alloc. cbn [fst snd]. unfold load at 1. cbn [s_ptr s_off s_len].
    rewrite lookup_insert_eq. simpl. rewrite drop_0.
    apply take_ge, load_length.
Qed.

Lemma compact_from_sublist (prev : value) (l : list value) :
  sublist (compact_from prev l) l.
Proof.
  revert prev. induction l as [|x l IH]; intros prev; simpl; [constructor|].
  destruct (go_eq x prev); [apply sublist_cons|apply sublist_skip]; apply IH.
Qed.

Lemma compact_sublist (l : list value) : sublist (compact l) l.
Proof.
  destruct l as [|x l]; simpl; [constructor|].
  apply sublist_skip, compact_from_sublist.
Qed.

Lemma compact_length (l : list value) : (length (compact l) ≤ length l)%nat.
Proof. apply sublist_length, compact_sublist. Qed.

(** No element follows one it is equal to. *)
Lemma compact_from_adjacent (prev : value) (l : list value) (i : nat)
  (x y : value) :
  (prev :: compact_from prev l) !! i = Some x →
  (prev :: compact_from prev l) !! S i = Some y →
  go_eq y x = false.
Proof.
  revert prev i x y. induction l as [|v l IH]; intros prev i x y Hx Hy.
  - simpl in Hy. by destruct i.
  - simpl in Hx, Hy. destruct (go_eq v prev) eqn:E.
    + destruct i as [|i].
      * injection Hx as <-.
        pose proof (IH v 0%nat v y eq_refl Hy) as Hyv.
        destruct (go_eq y prev) eqn:Eyp; [|done].
        rewrite go_eq_sym in E.
        by rewrite (go_eq_trans y prev v Eyp E) in Hyv.
      * apply (IH v (S i) x y); done.
    + destruct i as [|i].
      * injection Hx as <-. simpl in Hy. by injection Hy as <-.
      * apply (IH v i x y); done.
Qed.

Lemma compact_from_covers (prev : value) (l : list value) (x : value) :
  x ∈ l →
  go_eq x prev = true
  ∨ x ∈ compact_from prev l
  ∨ ∃ y, y ∈ compact_from prev l ∧ go_eq x y = true.
Proof.
  revert prev. induction l as [|v l IH]; intros prev Hx;
    [by apply elem_of_nil in Hx|].
  simpl. apply elem_of_cons in Hx as [->|Hx].
  - destruct (go_eq v prev); [by left|]. right. left. left.
  - destruct (IH v Hx) as [He|[Hin|(y & Hy & Hxy)]].
    + destruct (go_eq v prev) eqn:E.
      * left. by apply (go_eq_trans x v prev).
      * right. right. exists v. split; [left|done].
    + destruct (go_eq v prev); right; left; [done|by right].
    + destruct (go_eq v prev); right; right; exists y;
        (split; [|done]); [done|by right].
Qed.

Lemma Slice_Compact_elems (ctx : rootContext) (t : elemtype) (sl : slice)
  (h : heap) :
  IsPermitted (allowedFunctionSet ctx) SliceCompact = true →
  in_switch t = true →
  t ≠ TAny →
  ∃ sl' h',
    Slice_Compact ctx (VSlice t sl) h = (Ok (VSlice t sl'), h')
    ∧ load h' sl' = compact (load h sl)
    ∧ (∀ p a, h !! p = Some a → h' !! p = Some a)
    ∧ ((0 < s_len sl)%nat → s_ptr sl' ∉ dom h)
    ∧ s_len sl' = length (compact (load h sl)).
Proof.
  intros Hperm Hsw Ht.
  set (f := λ l : list value,
         compact l ++ replicate (length l - length (compact l)) (zero_value t)).
  assert (∀ l, length (f l) = length l) as Hf.
  { intros l. unfold f. rewrite length_app, length_replicate.
    pose proof (compact_length l). lia. }
  assert (∃ sl' h',
      (let '(c, h0) := slices_Clone h sl in
       let '(r, h1) := slices_Compact t h0 c in (Ok (VSlice t r), h1))
      = (Ok (VSlice t sl'), h')
      ∧ load h' sl' = compact (load h sl)
      ∧ (∀ p a, h !! p = Some a → h' !! p = Some a)
      ∧ ((0 < s_len sl)%nat → s_ptr sl' ∉ dom h)
      ∧ s_len sl' = length (compact (load h sl))) as Hmain.
  { destruct (clone_then_store f h sl Hf)
      as (c & h2 & Hc & Hh2 & Hload & Hpre & Hnew).
    assert (c = (slices_Clone h sl).1) as Hc1 by by rewrite Hc.
    pose proof (clone_load h sl) as Hcl. rewrite <- Hc1 in Hcl.
    pose proof (load_length (slices_Clone h sl).2 c) as Hlen.
    rewrite Hcl in Hlen, Hh2. unfold f in Hh2.
    rewrite Hc. unfold slices_Compact. rewrite Hcl, <- Hh2.
    eexists _, _. split; [done|]. cbn [s_ptr s_len].
    split; [|split; [done|split; [done|done]]].
    pose proof (compact_length (load h sl)) as Hcomp.
    assert (load h2 (mkSlice (s_ptr c) (s_off c) (length (compact (load h sl))))
            = take (length (compact (load h sl))) (load h2 c)) as ->.
    { set (n := length (compact (load h sl))) in *.
      set (m := length (load h sl)) in *.
      unfold load. cbn [s_ptr s_off s_len]. rewrite take_take.
      f_equal. lia. }
    rewrite Hload. unfold f. by rewrite take_app_length. }
  unfold Slice_Compact. rewrite Hperm. cbn [negb].
  destruct t as [| | |k|k|k]; try done.
  destruct k; done.
Qed.

(** X24. When [slice.Compact] is permitted: a [[]any] is refused with
    [ErrCannotCompactAnySlice]; on a typed slice the result holds the
    elements of the input with, of each run of consecutive equal
    elements, only the first one: elements are left out and none is
    moved, the first element stays, and no element of the result
    follows one it is equal to.  The work is done on a copy: every
    array of the heap is as before, so the input is unchanged. *)
Theorem Slice_Compact_spec (ctx : rootContext) (t : elemtype) (sl : slice)
  (h : heap) :
  IsPermitted (allowedFunctionSet ctx) SliceCompact = true →
  in_switch t = true →
  is_Some (h !! s_ptr sl) →
  match t with
  | TAny =>
      Slice_Compact ctx (VSlice t sl) h = (Err ErrCannotCompactAnySlice, h)
  | _ =>
      ∃ sl' h',
        Slice_Compact ctx (VSlice t sl) h = (Ok (VSlice t sl'), h')
        ∧ load h' sl' = compact (load h sl)
        ∧ sublist (load h' sl') (load h sl)
        ∧ head (load h' sl') = head (load h sl)
        ∧ (∀ i x y, load h' sl' !! i = Some x → load h' sl' !! S i = Some y →
                    go_eq y x = false)
        ∧ (∀ p a, h !! p = Some a → h' !! p = Some a)
        ∧ load h' sl = load h sl
        ∧ ((0 < s_len sl)%nat → s_ptr sl' ∉ dom h)
  end.
Proof.
  intros Hperm Hsw Hptr.
  assert (t ≠ TAny →
    ∃ sl' h',
      Slice_Compact ctx (VSlice t sl) h = (Ok (VSlice t sl'), h')
      ∧ load h' sl' = compact (load h sl)
      ∧ sublist (load h' sl') (load h sl)
      ∧ head (load h' sl') = head (load h sl)
      ∧ (∀ i x y, load h' sl' !! i = Some x → load h' sl' !! S i = Some y →
                  go_eq y x = false)
      ∧ (∀ p a, h !! p = Some a → h' !! p = Some a)
      ∧ load h' sl = load h sl
      ∧ ((0 < s_len sl)%nat → s_ptr sl' ∉ dom h)) as Hmain.
  { intros Ht.
    destruct (Slice_Compact_elems ctx t sl h Hperm Hsw Ht)
      as (sl' & h' & Hr & Hl & Hpre & Hnew & _).
    exists sl', h'. split; [done|]. split; [done|]. rewrite Hl.
    split; [apply compact_sublist|].
    split; [by destruct (load h sl)|].
    split; [|split; [done|split; [by apply heap_preserved_load|done]]].
    intros i x y. destruct (load h sl) as [|v l]; [done|].
    apply compact_from_adjacent. }
  destruct t as [| | |k|k|k]; try (apply Hmain; done).
  unfold Slice_Compact. by rewrite Hperm.
Qed.

Lemma StronglySorted_sublist (R : relation value) (l1 l2 : list value) :
  sublist l1 l2 → StronglySorted R l2 → StronglySorted R l1.
Proof.
  induction 1 as [|x l1 l2 Hsub IH|x l1 l2 Hsub IH]; intros Hs.
  - constructor.
  - apply StronglySorted_cons in Hs as [Hx Hs].
    constructor; [by apply IH|].
    rewrite Forall_forall in Hx |- *. intros y Hy. apply Hx.
    by apply (sublist_subseteq _ _ Hsub).
  - apply StronglySorted_cons in Hs as [_ Hs]. by apply IH.
Qed.

(** An element between two equal ones is equal to them. *)
Lemma less_between (t : elemtype) (p x y : value) :
  t ≠ TAny →
  has_type t p → has_type t x → has_type t y →
  less t x p = false → less t y x = false →
  go_eq y p = true → go_eq x p = true.
Proof.
  intros Ht.
  destruct t as [| | |k|k|k]; [done|..]; destruct p, x, y; simpl; try done.
  - by destruct b, b0, b1.
  - intros _ _ _. unfold string_ltb. rewrite !bool_decide_eq_true.
    intros H1 H2 ->.
    destruct (String.compare s0 s) eqn:E.
    + by apply String.compare_eq_iff in E.
    + done.
    + rewrite String.compare_antisym, E in H2. done.
  - intros <- <- <-. rewrite !andb_true_iff, !bool_decide_eq_true.
    intros H1 H2 [_ H3]. split; [done|]. revert H1 H2 H3.
    unfold cmpLess_float, float.ltb, SFltb, float.eqb, SFeqb, SFcompare,
      float.isNaN.
    float_cases f f0 f1.
  - intros <- <- <-. rewrite !andb_true_iff, !bool_decide_eq_true, !Z.ltb_ge,
      !Z.eqb_eq. intros H1 H2 [_ H3]. split; [done|lia].
  - intros <- <- <-. rewrite !andb_true_iff, !bool_decide_eq_true, !Z.ltb_ge,
      !Z.eqb_eq. intros H1 H2 [_ H3]. split; [done|lia].
Qed.

Lemma compact_from_distinct (t : elemtype) (prev : value) (l : list value) :
  t ≠ TAny →
  has_type t prev → Forall (has_type t) l →
  StronglySorted (λ a b, less t b a = false) (prev :: l) →
  Forall (λ y, go_eq y prev = false) (compact_from prev l)
  ∧ StronglySorted (λ x y, go_eq y x = false) (compact_from prev l).
Proof.
  intros Ht. revert prev.
  induction l as [|x l IH]; intros prev Hp Hl Hs; simpl.
  - split; constructor.
  - apply Forall_cons in Hl as [Hx Hl].
    apply StronglySorted_cons in Hs as [Hprev Hs].
    destruct (IH x Hx Hl Hs) as [IHd IHs].
    apply Forall_cons in Hprev as [Hxp Hlp].
    pose proof Hs as Hs'. apply StronglySorted_cons in Hs' as [Hxl _].
    destruct (go_eq x prev) eqn:E.
    + split; [|done]. rewrite Forall_forall in IHd |- *. intros y Hy.
      destruct (go_eq y prev) eqn:Eyp; [|done].
      rewrite go_eq_sym in E.
      by rewrite <- (IHd y Hy), (go_eq_trans y prev x Eyp E).
    + assert (Forall (λ y, go_eq y prev = false) (compact_from x l)) as Hd.
      { rewrite Forall_forall in IHd, Hl, Hxl |- *. intros y Hy.
        assert (y ∈ l) as Hyl
          by by apply (sublist_subseteq _ _ (compact_from_sublist x l)).
        destruct (go_eq y prev) eqn:Eyp; [|done].
        rewrite <- E. symmetry.
        apply (less_between t prev x y); auto. }
      split; constructor; done.
Qed.

(** X25. [Compact] after [Sort] removes every duplicate: the result is
    in ascending order, no two of its elements are equal, and every
    element of the input is in it or is equal to one that is. *)
Theorem Slice_Compact_after_Sort (ctx : rootContext) (t : elemtype)
  (sl : slice) (h : heap) :
  IsPermitted (allowedFunctionSet ctx) SliceSort = true →
  IsPermitted (allowedFunctionSet ctx) SliceCompact = true →
  in_switch t = true →
  t ≠ TAny →
  Forall (has_type t) (load h sl) →
  ∃ v1 h1 sl2 h2,
    Slice_Sort ctx (VSlice t sl) h = (Ok v1, h1)
    ∧ Slice_Compact ctx v1 h1 = (Ok (VSlice t sl2), h2)
    ∧ StronglySorted (λ a b, less t b a = false) (load h2 sl2)
    ∧ (∀ i j x y, (i < j)%nat → load h2 sl2 !! i = Some x →
                  load h2 sl2 !! j = Some y → go_eq x y = false)
    ∧ (∀ x, x ∈ load h sl →
            x ∈ load h2 sl2 ∨ ∃ y, y ∈ load h2 sl2 ∧ go_eq x y = true).
Proof.
  intros Hsort Hcomp Hsw Ht Hty.
  destruct (Slice_Sort_elems ctx t sl h Hsort Hsw Ht)
    as (sl1 & h1 & Hr1 & Hl1 & _).
  destruct (Slice_Compact_elems ctx t sl1 h1 Hcomp Hsw Ht)
    as (sl2 & h2 & Hr2 & Hl2 & _).
  exists (VSlice t sl1), h1, sl2, h2. split; [done|]. split; [done|].
  rewrite Hl2, Hl1. set (s := insertionSort (less t) (load h sl)).
  assert (StronglySorted (λ a b, less t b a = false) s) as Hs.
  { apply (insertionSort_sorted (less t) (has_type t));
      [apply less_asym|apply less_ge_trans|done]. }
  assert (Forall (has_type t) s) as Htys
    by (unfold s; by rewrite insertionSort_perm).
  split; [exact (StronglySorted_sublist _ _ _ (compact_sublist s) Hs)|].
  split.
  - intros i j x y Hij Hi Hj. rewrite go_eq_sym.
    apply (StronglySorted_lookup (λ x y, go_eq y x = false) (compact s) i j);
      [|done..].
    destruct s as [|v l]; [constructor|]. simpl.
    apply Forall_cons in Htys as [Hv Hl].
    destruct (compact_from_distinct t v l Ht Hv Hl Hs) as [Hd Hss].
    by constructor.
  - intros x Hx.
    assert (x ∈ s) as Hxs by (unfold s; by rewrite insertionSort_perm).
    destruct s as [|v l]; [by apply elem_of_nil in Hxs|]. simpl.
    apply elem_of_cons in Hxs as [->|Hxs]; [left; left|].
    destruct (compact_from_covers v l x Hxs) as [He|[Hin|(y & Hy & Hxy)]].
    + right. exists v. split; [left|done].
    + left. by right.
    + right. exists y. split; [by right|done].
Qed.

(** ** [Slice.Len] *)

(** X26. The length through the other methods.  On a slice whose
    header fits its array: [Sort] and [Reverse] return a slice of the
    same [Len]; [Unique] and [Compact] return one that is not longer. *)
Theorem Slice_Len_of_results (ctx : rootContext) (t : elemtype) (sl : slice)
  (h : heap) :
  IsPermitted (allowedFunctionSet ctx) SliceLen = true →
  in_switch t = true →
  t ≠ TAny →
  Forall (has_type t) (load h sl) →
  length (load h sl) = s_len sl →
  (IsPermitted (allowedFunctionSet ctx) SliceSort = true →
   ∃ v h', Slice_Sort ctx (VSlice t sl) h = (Ok v, h')
           ∧ Slice_Len ctx v = Ok (Z.of_nat (s_len sl)))
  ∧ (IsPermitted (allowedFunctionSet ctx) SliceReverse = true →
     ∃ v h', Slice_Reverse ctx (VSlice t sl) h = (Ok v, h')
             ∧ Slice_Len ctx v = Ok (Z.of_nat (s_len sl)))
  ∧ (IsPermitted (allowedFunctionSet ctx) SliceUnique = true →
     ∃ v h' n, Slice_Unique ctx (VSlice t sl) h = (Ok v, h')
               ∧ Slice_Len ctx v = Ok n ∧ 0 ≤ n ≤ Z.of_nat (s_len sl))
  ∧ (IsPermitted (allowedFunctionSet ctx) SliceCompact = true →
     ∃ v h' n, Slice_Compact ctx (VSlice t sl) h = (Ok v, h')
               ∧ Slice_Len ctx v = Ok n ∧ 0 ≤ n ≤ Z.of_nat (s_len sl))
  ∧ Slice_Len ctx (VSlice t sl) = Ok (Z.of_nat (s_len sl)).
Proof.
  intros Hlen Hsw Ht Hty Hfit.
  assert (∀ t' s', in_switch t' = true →
            Slice_Len ctx (VSlice t' s') = Ok (Z.of_nat (s_len s'))) as HL.
  { intros t' s' Hsw'. unfold Slice_Len. by rewrite Hlen, Hsw'. }
  split; [|split; [|split; [|split]]].
  - intros Hperm.
    destruct (Slice_Sort_elems ctx t sl h Hperm Hsw Ht)
      as (sl' & h' & Hr & _ & _ & Hl).
    exists (VSlice t sl'), h'. split; [done|]. by rewrite HL, Hl.
  - intros Hperm.
    destruct (Slice_Reverse_elems ctx t sl h Hperm Hsw)
      as (sl' & h' & Hr & _ & _ & _ & Hl).
    exists (VSlice TAny sl'), h'. split; [done|]. by rewrite HL, (Hl Hfit).
  - intros Hperm.
    assert (Forall (λ v, hashable v = true) (load h sl)) as Hh.
    { eapply Forall_impl; [exact Hty|].
      intros v. by apply has_type_hashable. }
    destruct (Slice_Unique_elems ctx t sl h Hperm Hsw Hh)
      as (sl' & h' & Hr & _ & Hl).
    exists (VSlice t sl'), h', (Z.of_nat (s_len sl')).
    split; [done|]. split; [by apply HL|]. rewrite Hl.
    pose proof (sublist_length _ _
                  (first_occurrences_from_sublist [] (load h sl))) as Hle.
    fold (first_occurrences (load h sl)) in Hle. lia.
  - intros Hperm.
    destruct (Slice_Compact_elems ctx t sl h Hperm Hsw Ht)
      as (sl' & h' & Hr & _ & _ & _ & Hl).
    exists (VSlice t sl'), h', (Z.of_nat (s_len sl')).
    split; [done|]. split; [by apply HL|]. rewrite Hl.
    pose proof (compact_length (load h sl)). lia.
  - by apply HL.
Qed.

(** ** The later [Tmpl.Exec] *)

(** X27. The variadic [Tmpl.Exec] of the later sources.  With more
    than one data argument it fails with [OnlyOneArgumentIsAllowedError]
    whatever the template would do, as the template is not run; with
    none it runs the template on [nil]; and with one, its result
    printed is the result of the earlier [Tmpl.Exec], which returns a
    string: the two agree on output, early return and failure.  The
    value of an early return comes back as it is, not printed. *)
Theorem Tmpl_Exec_variadic_arguments (ctx : rootContext) (name : string)
  (d d' : value) (ds : list value) :
  Tmpl_Exec_variadic ctx name (d :: d' :: ds)
  = Err OnlyOneArgumentIsAllowedError
  ∧ Tmpl_Exec_variadic ctx name [] = Tmpl_Exec_variadic ctx name [VNil]
  ∧ result_map fmt_Sprint (Tmpl_Exec_variadic ctx name [d])
    = Tmpl_Exec ctx name d
  ∧ (∀ buf e v, tmpl_ExecuteTemplate (template ctx) name d = (buf, Some e) →
                errors_As_ReturnError e = Some v →
                Tmpl_Exec_variadic ctx name [d] = Ok v).
Proof.
  split; [done|]. split; [done|]. split.
  - unfold Tmpl_Exec_variadic, Tmpl_Exec.
    destruct (tmpl_ExecuteTemplate (template ctx) name d) as [buf [e|]];
      [|done].
    by destruct (errors_As_ReturnError e).
  - intros buf e v Hrun He. unfold Tmpl_Exec_variadic. by rewrite Hrun, He.
Qed.

End Package.

(** * Concrete runs *)

(** A part of the generated table [funcs.NamespacesAndTheirFunctions],
    with functions the sources above define. *)
Definition registry : gmap string (gset string) :=
  <["conv" := {[ "ToBool"; "ToString"; "ToInt"; "ToInt8"; "ToInt64";
                 "ToUint8"; "ToFloat64" ]}]>
  (<["slice" := {[ "Sort"; "Unique"; "New" ]}]>
  (<["strings" := {[ "ToLower"; "IndexAny"; "IndexByte" ]}]>
  (<["tmpl" := {[ "Exec" ]}]>
  (<["url" := {[ "JoinPath"; "PathEscape" ]}]> ∅)))).

(** The namespaces [funcs.Conv] and [funcs.Slice], as far as used. *)
Definition funcs_Conv : Funcs :=
  [ConvToBool; ConvToString; ConvToInt; ConvToInt8; ConvToInt64;
   ConvToUint8; ConvToFloat64].
Definition funcs_Slice : Funcs := [SliceSort; SliceUnique].

(** A platform: on amd64 the conversion of a float that [int64] cannot
    represent gives [-2^63].  For [uint64] the value below only stands
    for what a platform gives; no run in this file reaches it. *)
Definition amd64_int64 (f : spec_float) : Z := MinInt64.
Definition amd64_uint64 (f : spec_float) : Z := 2 ^ 63.

(** Printing of the other kinds, left open by the model. *)
Definition Sprint_opaque (v : value) : string := "?".

(** The type named when a value of another kind cannot be hashed. *)
Definition type_of_opaque (o : opaque) : string := "map[string]int".

(** A library whose every function returns [1]. *)
Definition host_one (c : host_call) : value * option error :=
  (VInt KInt 1, None).

(** A template whose sub-template ["getName"] returns early with
    ["Anonymous"] and whose main body writes ["Hello "] and then returns
    early with ["World"]; any other name fails.  [text/template] wraps
    the error of a function it calls. *)
Definition early : Template :=
  mkTemplate
    (fun _ =>
       ("Hello ",
        Some (Wrapped "template: error calling return: %w" []
                (ReturnError (VString "World")))))
    (fun name _ =>
       if bool_decide (name = "getName") then
         (EmptyString,
          Some (Wrapped "template: error calling return: %w" []
                  (ReturnError (VString "Anonymous"))))
       else (EmptyString, Some (ErrorString "template: no such template"))).

Definition ctx_safe : rootContext :=
  mkRootContext early
    (createAllowedFunctionSet registry
       [Allowed funcs_Conv; Allowed funcs_Slice]).2.


(** A heap with the arrays of [[]int{3, 1, 2, 1}], [[]uint{2, 1}],
    [[]any{[]int{3, 1, 2, 1}}] and [[]any{1, "a", 1, "a", true}]. *)
Definition heap0 : gmap positive (list value) :=
  <[1%positive := [VInt KInt 3; VInt KInt 1; VInt KInt 2; VInt KInt 1]]>
  (<[2%positive := [VUint KUint 2; VUint KUint 1]]>
  (<[3%positive := [VSlice (TInt KInt) (mkSlice 1 0 4)]]>
  (<[4%positive := [VInt KInt 1; VString "a"; VInt KInt 1; VString "a";
                    VBool true]]> ∅))).

(** A context that permits the methods of [Slice] modelled and
    [cmp.Or]. *)
Definition ctx_slices : rootContext :=
  mkRootContext early
    {[ SliceSort; SliceUnique; SliceReverse; SliceLen; SliceCompact; CmpOr ]}.

(** A template that stops on a call that is not permitted, after
    writing ["Hi "]. *)
Definition denied : Template :=
  mkTemplate
    (fun _ =>
       ("Hi ",
        Some (Wrapped "template: error calling ToLower: %w" []
                (FuncNotAllowedError StringsToLower))))
    (fun _ _ => (EmptyString, Some (FuncNotAllowedError StringsToLower))).

(** A parser that gives the template [early] for every text. *)
Definition parse_early (fm : Template → gmap string tfunc) (text : string)
  : Template + error := inl early.

Lemma registry_namespaces (ns : string) :
  is_Some (registry !! ns) → ns ∈ namespaces.
Proof.
  unfold registry, namespaces. intros [x Hx].
  repeat (rewrite lookup_insert in Hx; case_decide;
          [subst ns; apply (bool_decide_unpack _); by vm_compute|]).
  by rewrite lookup_empty in Hx.
Qed.


(** ** Witnesses *)

(** C7 on the table above, with only [strings.ToLower] and
    [url.JoinPath] allowed: the map has the handle of [strings] under
    ["strings"], and nothing under ["conv"]. *)
Lemma FuncMap_namespace_exposure_witness :
  (∀ ns, is_Some (registry !! ns) → ns ∈ namespaces)
  ∧ "strings" ≠ "return"
  ∧ FuncMap registry early [Allowed StringsToLower; Allowed URLJoinPath]
      !! "strings"
    = Some (FnNamespace
              (Strings
                 (mkRootContext early
                    (createAllowedFunctionSet registry
                       [Allowed StringsToLower; Allowed URLJoinPath]).2)))
  ∧ (∃ name,
       mkFunc "strings" name
         ∈ allFunctions [Allowed StringsToLower; Allowed URLJoinPath]
       ∧ recognized registry (mkFunc "strings" name))
  ∧ FuncMap registry early [Allowed StringsToLower; Allowed URLJoinPath]
      !! "conv" = None.
Proof.
  assert (FuncMap registry early [Allowed StringsToLower; Allowed URLJoinPath]
            !! "strings"
          = Some (FnNamespace
                    (Strings
                       (mkRootContext early
                          (createAllowedFunctionSet registry
                             [Allowed StringsToLower;
                              Allowed URLJoinPath]).2)))) as Hs
    by (vm_compute; reflexivity).
  split; [exact registry_namespaces|].
  split; [discriminate|].
  split; [exact Hs|]. split.
  - apply (proj1 (FuncMap_namespace_exposure registry registry_namespaces
                    early [Allowed StringsToLower; Allowed URLJoinPath]
                    "strings" ltac:(discriminate))).
    rewrite Hs. by eexists.
  - apply (proj1 (proj2 (FuncMap_namespace_exposure registry
                           registry_namespaces early
                           [Allowed StringsToLower; Allowed URLJoinPath]
                           "conv" ltac:(discriminate)))).
    intros name Hin. exfalso.
    change (allFunctions [Allowed StringsToLower; Allowed URLJoinPath])
      with [StringsToLower; URLJoinPath] in Hin.
    apply elem_of_cons in Hin as [Hin|Hin]; [discriminate|].
    apply elem_of_cons in Hin as [Hin|Hin]; [discriminate|].
    by apply elem_of_nil in Hin.
Defined.

(** C4 on the sub-template ["getName"]: the call gives ["Anonymous"]. *)
Lemma Tmpl_Exec_return_absorbed_witness :
  tmpl_ExecuteTemplate (template ctx_safe) "getName" VNil
  = (EmptyString,
     Some (Wrapped "template: error calling return: %w" []
                 (ReturnError (VString "Anonymous"))))
  ∧ Tmpl_Exec Sprint_opaque ctx_safe "getName" VNil = Ok "Anonymous".
Proof.
  split; [reflexivity|].
  apply (proj1
           (Tmpl_Exec_return_absorbed Sprint_opaque ctx_safe "getName" VNil
              EmptyString
              (Wrapped "template: error calling return: %w" []
                 (ReturnError (VString "Anonymous")))
              eq_refl)
           (VString "Anonymous")).
  reflexivity.
Defined.

(** C5 on the main body: ["Hello "] was written, ["World"] is added. *)
Lemma Execute_return_and_failure_witness :
  tmpl_Execute early VNil
  = ("Hello ", Some (Wrapped "template: error calling return: %w" []
                       (ReturnError (VString "World"))))
  ∧ Execute Sprint_opaque early EmptyString VNil = (None, "Hello World")
  ∧ ExecuteTemplate Sprint_opaque early EmptyString "missing" VNil
    = (Some (Wrapped "failed to execute template: %w" []
               (ErrorString "template: no such template")), EmptyString).
Proof.
  split; [reflexivity|]. split.
  - apply (proj1
             (proj1
                (Execute_return_and_failure Sprint_opaque early EmptyString
                   "getName"
                   VNil "Hello "
                   (Wrapped "template: error calling return: %w" []
                      (ReturnError (VString "World"))))
                eq_refl)
             (VString "World")).
    reflexivity.
  - apply (proj2
             (proj2
                (Execute_return_and_failure Sprint_opaque early EmptyString
                   "missing" VNil EmptyString
                   (ErrorString "template: no such template"))
                eq_refl)).
    reflexivity.
Defined.


(** The round trip of C2 on the least [int8]. *)
Lemma ToInt_decimal_round_trip_witness :
  IsPermitted (allowedFunctionSet ctx_safe) (target_func (ToIntOf KInt8)) = true
  ∧ int_min KInt8 ≤ -128 ≤ int_max KInt8
  ∧ Conv_call Sprint_opaque amd64_int64 amd64_uint64 ctx_safe (ToIntOf KInt8)
      (VString (toString Sprint_opaque (VInt KInt8 (-128))))
    = Ok (VInt KInt8 (-128)).
Proof.
  split; [vm_compute; reflexivity|].
  split; [vm_compute; split; discriminate|].
  apply (ToInt_decimal_round_trip Sprint_opaque amd64_int64 amd64_uint64
           ctx_safe KInt8 (-128)).
  - vm_compute; reflexivity.
  - vm_compute; split; discriminate.
Defined.

(** The narrow overflow of C2 on [128] and [int8]. *)
Lemma ToInt_narrow_overflow_witness :
  IsPermitted (allowedFunctionSet ctx_safe) (target_func (ToIntOf KInt8)) = true
  ∧ Conv_call Sprint_opaque amd64_int64 amd64_uint64 ctx_safe (ToIntOf KInt8)
      (VString (toString Sprint_opaque (VInt KInt64 128)))
    = Err (WouldOverflowInt 128).
Proof.
  split; [vm_compute; reflexivity|].
  apply (ToInt_narrow_overflow Sprint_opaque amd64_int64 amd64_uint64
           ctx_safe KInt8 128).
  - vm_compute; reflexivity.
  - apply (bool_decide_unpack _). vm_compute. reflexivity.
  - vm_compute; split; discriminate.
  - vm_compute. intros [_ H]. apply H. reflexivity.
Defined.

(** C1 on the table above: [strings.IndexAny] runs with only
    [strings.ToLower] allowed. *)
Lemma Strings_IndexAny_runs_unpermitted_witness :
  registry !! "strings" = Some {[ "ToLower"; "IndexAny"; "IndexByte" ]}
  ∧ "ToLower" ∈ ({[ "ToLower"; "IndexAny"; "IndexByte" ]} : gset string)
  ∧ ∃ ctx,
      FuncMap registry early [Allowed StringsToLower] !! "strings"
      = Some (FnNamespace (Strings ctx))
      ∧ IsPermitted (allowedFunctionSet ctx) StringsIndexAny = false
      ∧ Strings_IndexAny host_one ctx "hello" "aeiou"
        = (Ok (host_one (Call "strings" "IndexAny"
                           [VString "hello"; VString "aeiou"])).1,
           [Call "strings" "IndexAny" [VString "hello"; VString "aeiou"]])
      ∧ IsPermitted (allowedFunctionSet ctx) TmplExec = false
      ∧ Tmpl_Exec Sprint_opaque ctx "getName" VNil
        = Tmpl_Exec Sprint_opaque (mkRootContext early {[ TmplExec ]})
            "getName" VNil.
Proof.
  split; [reflexivity|].
  split; [apply (bool_decide_unpack _); vm_compute; reflexivity|].
  apply (Strings_IndexAny_runs_unpermitted registry Sprint_opaque host_one
           early "hello" "aeiou" "getName" VNil
           {[ "ToLower"; "IndexAny"; "IndexByte" ]}).
  - reflexivity.
  - apply (bool_decide_unpack _). vm_compute. reflexivity.
Defined.


(** C10 on [[]any{1, "a", 1, "a", true}] and on the bytes of
    ["abab"]. *)
Lemma Slice_Unique_spec_witness :
  IsPermitted (allowedFunctionSet ctx_safe) SliceUnique = true
  ∧ in_switch TAny = true
  ∧ Forall (λ v, hashable v = true) (load heap0 (mkSlice 4 0 5))
  ∧ is_Some (heap0 !! 4%positive)
  ∧ (∃ sl' h',
       Slice_Unique type_of_opaque ctx_safe (VSlice TAny (mkSlice 4 0 5)) heap0
       = (Ok (VSlice TAny sl'), h')
       ∧ load h' sl' = first_occurrences (load heap0 (mkSlice 4 0 5))
       ∧ (s_ptr sl' ∉ dom heap0)
       ∧ (∀ p a, heap0 !! p = Some a → h' !! p = Some a)
       ∧ load h' (mkSlice 4 0 5) = load heap0 (mkSlice 4 0 5))
  ∧ (∃ b',
       Slice_Unique type_of_opaque ctx_safe (VBytes "abab") heap0
       = (Ok (VBytes b'), heap0)
       ∧ bytes_elems b' = first_occurrences (bytes_elems "abab")).
Proof.
  assert (Forall (λ v, hashable v = true) (load heap0 (mkSlice 4 0 5))) as Hh
    by (vm_compute; repeat constructor).
  assert (is_Some (heap0 !! 4%positive)) as Hptr by (vm_compute; eauto).
  split; [vm_compute; reflexivity|]. split; [reflexivity|].
  split; [exact Hh|]. split; [exact Hptr|].
  apply (Slice_Unique_spec type_of_opaque ctx_safe TAny (mkSlice 4 0 5) heap0
           "abab" eq_refl eq_refl Hh Hptr).
Defined.

(** ** Counterexamples *)



(** C10 fails on a [[]any] that holds a slice: with [slice.Unique]
    permitted, [Unique] on [[]any{[]int{3, 1, 2, 1}}] panics, the key
    cannot be hashed. *)
Lemma Slice_Unique_unhashable_panics :
  IsPermitted (allowedFunctionSet ctx_safe) SliceUnique = true
  ∧ load heap0 (mkSlice 3 0 1) = [VSlice (TInt KInt) (mkSlice 1 0 4)]
  ∧ Slice_Unique type_of_opaque ctx_safe (VSlice TAny (mkSlice 3 0 1)) heap0
    = (Panic "runtime error: hash of unhashable type []int", heap0).
Proof. repeat split; vm_compute; reflexivity. Qed.

(** ** Runs *)

Example Slice_Sort_run :
  (Slice_Sort ctx_safe (VSlice (TInt KInt) (mkSlice 1 0 4)) heap0).1
  = Ok (VSlice (TInt KInt) (mkSlice 5 0 4))
  ∧ load (Slice_Sort ctx_safe (VSlice (TInt KInt) (mkSlice 1 0 4)) heap0).2
      (mkSlice 5 0 4)
    = [VInt KInt 1; VInt KInt 1; VInt KInt 2; VInt KInt 3]
  ∧ load (Slice_Sort ctx_safe (VSlice (TInt KInt) (mkSlice 1 0 4)) heap0).2
      (mkSlice 1 0 4)
    = [VInt KInt 3; VInt KInt 1; VInt KInt 2; VInt KInt 1].
Proof. repeat split; vm_compute; reflexivity. Qed.

Example Slice_Unique_run :
  load (Slice_Unique type_of_opaque ctx_safe
          (VSlice TAny (mkSlice 4 0 5)) heap0).2
    (mkSlice 5 0 3)
  = [VInt KInt 1; VString "a"; VBool true].
Proof. vm_compute. reflexivity. Qed.

Example Slice_bytes_run :
  Slice_Sort ctx_safe (VBytes "cab") heap0 = (Ok (VBytes "abc"), heap0)
  ∧ Slice_Unique type_of_opaque ctx_safe (VBytes "abab") heap0
    = (Ok (VBytes "ab"), heap0).
Proof. repeat split; vm_compute; reflexivity. Qed.

Example toBool_run :
  toBool (VString "YES") = true
  ∧ toBool (VString "1.0") = true
  ∧ toBool (VString "2") = false
  ∧ toBool (VInt KInt (-1)) = false.
Proof. repeat split; vm_compute; reflexivity. Qed.

Example toFloat64_run :
  toFloat64 (VString "1,234.5")
  = Ok (S754_finite false 5429388417957888 (-42)).
Proof. vm_compute. reflexivity. Qed.

Example toInt64_run :
  toInt64 amd64_int64 (VString "0x10") = Ok 16
  ∧ toInt64 amd64_int64 (VString "1,000") = Ok 1000
  ∧ toInt64 amd64_int64 (VString "12.9") = Ok 12
  ∧ toInt64 amd64_int64 (VString "-12.9") = Ok (-12)
  ∧ toInt64 amd64_int64 (VString "9223372036854775808") = Ok MinInt64.
Proof. repeat split; vm_compute; reflexivity. Qed.

Example Slice_Reverse_run :
  (Slice_Reverse ctx_slices (VSlice (TInt KInt) (mkSlice 1 0 4)) heap0).1
  = Ok (VSlice TAny (mkSlice 6 0 4))
  ∧ load (Slice_Reverse ctx_slices (VSlice (TInt KInt) (mkSlice 1 0 4)) heap0).2
      (mkSlice 6 0 4)
    = [VInt KInt 1; VInt KInt 2; VInt KInt 1; VInt KInt 3].
Proof. repeat split; vm_compute; reflexivity. Qed.

Example Slice_Compact_run :
  load (Slice_Compact ctx_slices (VSlice (TInt KInt) (mkSlice 5 0 5))
          (<[5%positive := [VInt KInt 1; VInt KInt 1; VInt KInt 2;
                            VInt KInt 2; VInt KInt 1]]> heap0)).2
    (mkSlice 6 0 5)
  = [VInt KInt 1; VInt KInt 2; VInt KInt 1; VInt KInt 0; VInt KInt 0]
  ∧ (Slice_Compact ctx_slices (VSlice (TInt KInt) (mkSlice 5 0 5))
       (<[5%positive := [VInt KInt 1; VInt KInt 1; VInt KInt 2;
                         VInt KInt 2; VInt KInt 1]]> heap0)).1
    = Ok (VSlice (TInt KInt) (mkSlice 6 0 3)).
Proof. repeat split; vm_compute; reflexivity. Qed.

Example Cmp_Or_run :
  Cmp_Or Sprint_opaque amd64_int64 amd64_uint64 ctx_slices
    [VString EmptyString; VString "Hello"; VString "World"] heap0
  = Ok (VString "Hello")
  ∧ Cmp_Or Sprint_opaque amd64_int64 amd64_uint64 ctx_slices
      [VInt KInt 0; VInt KInt 1; VInt KInt 2] heap0
    = Ok (VInt KInt 1)
  ∧ Cmp_Or Sprint_opaque amd64_int64 amd64_uint64 ctx_slices
      [VSlice (TInt KInt) (mkSlice 1 0 4)] heap0
    = Ok (VInt KInt 3)
  ∧ Cmp_Or Sprint_opaque amd64_int64 amd64_uint64 ctx_slices [] heap0
    = Err ErrAtLeastOneArgumentIsRequired.
Proof. repeat split; vm_compute; reflexivity. Qed.

Example toInts_run :
  toInts amd64_int64 [VString "42"; VInt KInt 7; VString "0x10"] MinInt MaxInt
  = Ok [42; 7; 16]
  ∧ toInts amd64_int64 [VString "1"; VInt KInt 300; VString "x"] MinInt8 MaxInt8
    = Err (WouldOverflowInt 300).
Proof. repeat split; vm_compute; reflexivity. Qed.

(** ** Witnesses of the further properties *)

(** X2 on two descriptors in both orders. *)
Lemma createAllowedFunctionSet_order_and_repetition_witness :
  [Allowed ConvToBool; Allowed SliceSort]
    ≡ₚ [Allowed SliceSort; Allowed ConvToBool]
  ∧ createAllowedFunctionSet registry [Allowed ConvToBool; Allowed SliceSort]
    = createAllowedFunctionSet registry [Allowed SliceSort; Allowed ConvToBool]
  ∧ createAllowedFunctionSet registry
      ([Allowed ConvToBool; Allowed SliceSort]
         ++ [Allowed ConvToBool; Allowed SliceSort])
    = createAllowedFunctionSet registry [Allowed ConvToBool; Allowed SliceSort].
Proof.
  split; [apply perm_swap|].
  apply (createAllowedFunctionSet_order_and_repetition registry).
  apply perm_swap.
Defined.

(** X4 on the entry [conv] of a map built for [conv.ToBool]. *)
Lemma FuncMap_handles_share_context_witness :
  FuncMap registry early [Allowed ConvToBool] !! "conv"
  = Some (FnNamespace
            (Conv (mkRootContext early
                     (createAllowedFunctionSet registry
                        [Allowed ConvToBool]).2)))
  ∧ handle_ctx
      (Conv (mkRootContext early
               (createAllowedFunctionSet registry [Allowed ConvToBool]).2))
    = mkRootContext early
        (createAllowedFunctionSet registry [Allowed ConvToBool]).2
  ∧ handle_name
      (Conv (mkRootContext early
               (createAllowedFunctionSet registry [Allowed ConvToBool]).2))
    = "conv".
Proof.
  assert (FuncMap registry early [Allowed ConvToBool] !! "conv"
          = Some (FnNamespace
                    (Conv (mkRootContext early
                             (createAllowedFunctionSet registry
                                [Allowed ConvToBool]).2)))) as H
    by (vm_compute; reflexivity).
  split; [exact H|].
  exact (FuncMap_handles_share_context registry early [Allowed ConvToBool]
           "conv" _ H).
Defined.

(** X5: [conv] stays in the map when [slice.Sort] is allowed too. *)
Lemma FuncMap_monotone_witness :
  is_Some (FuncMap registry early [Allowed ConvToBool] !! "conv")
  ∧ is_Some (FuncMap registry early
               ([Allowed ConvToBool] ++ [Allowed SliceSort]) !! "conv")
  ∧ IsPermitted
      (createAllowedFunctionSet registry [Allowed ConvToBool]).2 ConvToBool
    = true
  ∧ IsPermitted
      (createAllowedFunctionSet registry
         ([Allowed ConvToBool] ++ [Allowed SliceSort])).2 ConvToBool
    = true.
Proof.
  assert (is_Some (FuncMap registry early [Allowed ConvToBool] !! "conv"))
    as H1 by (vm_compute; eexists; reflexivity).
  assert (IsPermitted
            (createAllowedFunctionSet registry [Allowed ConvToBool]).2
            ConvToBool = true) as H2 by (vm_compute; reflexivity).
  split; [exact H1|].
  split; [exact (proj1 (FuncMap_monotone registry early [Allowed ConvToBool]
                          [Allowed SliceSort] "conv" ConvToBool) H1)|].
  split; [exact H2|].
  exact (proj2 (FuncMap_monotone registry early [Allowed ConvToBool]
                  [Allowed SliceSort] "conv" ConvToBool) H2).
Defined.

(** X6 on the template [denied]. *)
Lemma Execute_keeps_permission_error_witness :
  ∃ e', Execute Sprint_opaque denied EmptyString VNil = (Some e', "Hi ")
        ∧ errors_As_FuncNotAllowed e' = Some StringsToLower.
Proof.
  exact (proj1
           (Execute_keeps_permission_error Sprint_opaque denied EmptyString
              EmptyString VNil "Hi "
              (Wrapped "template: error calling ToLower: %w" []
                 (FuncNotAllowedError StringsToLower))
              StringsToLower eq_refl eq_refl)
           eq_refl).
Defined.

(** X7 on the template [early]. *)
Lemma QuickExecute_outcomes_witness :
  QuickExecute registry Sprint_opaque parse_early "{{ return .x }}" VNil []
  = ("Hello World", None).
Proof.
  exact (QuickExecute_outcomes registry Sprint_opaque parse_early
           "{{ return .x }}" VNil [] early "Hello "
           (Some (Wrapped "template: error calling return: %w" []
                    (ReturnError (VString "World"))))
           eq_refl eq_refl).
Defined.

(** X8 on ["1,000"] and ["1000"]. *)
Lemma strTo_commas_ignored_witness :
  remove_commas "1,000" = remove_commas "1000"
  ∧ strToInt64 amd64_int64 "1,000" = strToInt64 amd64_int64 "1000"
  ∧ strToUint64 amd64_uint64 "1,000" = strToUint64 amd64_uint64 "1000"
  ∧ strToFloat64 "1,000" = strToFloat64 "1000".
Proof.
  split; [reflexivity|].
  apply (strTo_commas_ignored amd64_int64 amd64_uint64 "1,000" "1000").
  reflexivity.
Defined.

(** X9 on the string of [200] for [uint8]. *)
Lemma ToUint_decimal_round_trip_witness :
  IsPermitted (allowedFunctionSet ctx_safe) (target_func (ToUintOf KUint8))
  = true
  ∧ 0 ≤ 200 ≤ MaxUint64
  ∧ Conv_call Sprint_opaque amd64_int64 amd64_uint64 ctx_safe (ToUintOf KUint8)
      (VString (toString Sprint_opaque (VUint KUint8 200)))
    = Ok (VUint KUint8 200).
Proof.
  split; [vm_compute; reflexivity|].
  split; [vm_compute; split; discriminate|].
  apply (ToUint_decimal_round_trip Sprint_opaque amd64_int64 amd64_uint64
           ctx_safe KUint8 200).
  - vm_compute; reflexivity.
  - vm_compute; split; discriminate.
Defined.

(** X12 on [42]. *)
Lemma toFloat64_decimal_string_witness :
  MinInt64 ≤ 42 ≤ MaxInt64
  ∧ toFloat64 (VString (strconv.FormatInt 42)) = toFloat64 (VInt KInt 42)
  ∧ toFloat64 (VInt KInt 42) = Ok (float.of_Z 42).
Proof.
  split; [vm_compute; split; discriminate|].
  apply (toFloat64_decimal_string KInt 42).
  left. vm_compute; split; discriminate.
Defined.

(** X13 on the [int8] [-1] for [uint8]. *)
Lemma ToUint_negative_signed_witness :
  IsPermitted (allowedFunctionSet ctx_safe) (target_func (ToUintOf KUint8))
  = true
  ∧ int_min KInt8 ≤ -1 < 0
  ∧ Conv_call Sprint_opaque amd64_int64 amd64_uint64 ctx_safe (ToUintOf KUint8)
      (VInt KInt8 (-1))
    = Err (WouldOverflowInt (2 ^ 64 + -1)).
Proof.
  split; [vm_compute; reflexivity|].
  split; [vm_compute; split; [discriminate|reflexivity]|].
  apply (ToUint_negative_signed Sprint_opaque amd64_int64 amd64_uint64
           ctx_safe KUint8 KInt8 (-1)).
  - vm_compute; reflexivity.
  - vm_compute; split; [discriminate|reflexivity].
Defined.

(** X15: [cmp.Or 1 "x"] fails although its first argument is not
    zero. *)
Lemma Cmp_Or_integers_witness :
  IsPermitted (allowedFunctionSet ctx_slices) CmpOr = true
  ∧ Cmp_Or Sprint_opaque amd64_int64 amd64_uint64 ctx_slices
      [VInt KInt 1; VString "x"] heap0
    = Err (Wrapped "could not convert %q to int64: %w" ["x"]
             (NumError "ParseFloat" "x" ErrSyntax))
  ∧ Cmp_Or Sprint_opaque amd64_int64 amd64_uint64 ctx_slices
      [VInt KInt 0; VString "7"] heap0
    = Ok (VInt KInt 7).
Proof.
  assert (IsPermitted (allowedFunctionSet ctx_slices) CmpOr = true) as Hperm
    by (vm_compute; reflexivity).
  split; [exact Hperm|]. split.
  - apply (proj2
             (proj1
                (Cmp_Or_integers Sprint_opaque amd64_int64 amd64_uint64
                   ctx_slices [VString "x"] heap0 Hperm)
                KInt 1)
             1%nat (VString "x")).
    + reflexivity.
    + vm_compute; reflexivity.
    + constructor; [|constructor]. exists 1. vm_compute; reflexivity.
  - apply (proj1
             (proj1
                (Cmp_Or_integers Sprint_opaque amd64_int64 amd64_uint64
                   ctx_slices [VString "7"] heap0 Hperm)
                KInt 0)
             [0; 7]).
    constructor; [vm_compute; reflexivity|].
    constructor; [vm_compute; reflexivity|constructor].
Defined.

(** X16: [cmp.Or] with the [uint] zero first returns it. *)
Lemma Cmp_Or_unlisted_first_argument_witness :
  IsPermitted (allowedFunctionSet ctx_slices) CmpOr = true
  ∧ Cmp_Or Sprint_opaque amd64_int64 amd64_uint64 ctx_slices
      [VUint KUint 0; VInt KInt 5] heap0
    = Ok (VUint KUint 0).
Proof.
  assert (IsPermitted (allowedFunctionSet ctx_slices) CmpOr = true) as Hperm
    by (vm_compute; reflexivity).
  split; [exact Hperm|].
  exact (proj1
           (Cmp_Or_unlisted_first_argument Sprint_opaque amd64_int64
              amd64_uint64 ctx_slices [VInt KInt 5] heap0 Hperm)
           0).
Defined.

(** X17 on [[]int{3, 1, 2, 1}]. *)
Lemma Slice_Reverse_spec_witness :
  IsPermitted (allowedFunctionSet ctx_slices) SliceReverse = true
  ∧ in_switch (TInt KInt) = true
  ∧ is_Some (heap0 !! s_ptr (mkSlice 1 0 4))
  ∧ ∃ sl' h',
      Slice_Reverse ctx_slices (VSlice (TInt KInt) (mkSlice 1 0 4)) heap0
      = (Ok (VSlice TAny sl'), h')
      ∧ load h' sl' = rev (load heap0 (mkSlice 1 0 4))
      ∧ (∀ p a, heap0 !! p = Some a → h' !! p = Some a)
      ∧ load h' (mkSlice 1 0 4) = load heap0 (mkSlice 1 0 4)
      ∧ ((0 < s_len (mkSlice 1 0 4))%nat ∨ TInt KInt ≠ TAny
         → s_ptr sl' ∉ dom heap0).
Proof.
  split; [vm_compute; reflexivity|]. split; [reflexivity|].
  split; [vm_compute; eexists; reflexivity|].
  apply (Slice_Reverse_spec ctx_slices (TInt KInt) (mkSlice 1 0 4) heap0).
  - vm_compute; reflexivity.
  - reflexivity.
  - vm_compute; eexists; reflexivity.
Defined.

(** X18 on the same slice. *)
Lemma Slice_Reverse_twice_witness :
  IsPermitted (allowedFunctionSet ctx_slices) SliceReverse = true
  ∧ ∃ v1 h1 sl2 h2,
      Slice_Reverse ctx_slices (VSlice (TInt KInt) (mkSlice 1 0 4)) heap0
      = (Ok v1, h1)
      ∧ Slice_Reverse ctx_slices v1 h1 = (Ok (VSlice TAny sl2), h2)
      ∧ load h2 sl2 = load heap0 (mkSlice 1 0 4).
Proof.
  split; [vm_compute; reflexivity|].
  apply (Slice_Reverse_twice ctx_slices (TInt KInt) (mkSlice 1 0 4) heap0).
  - vm_compute; reflexivity.
  - reflexivity.
Defined.

(** X19 on the same slice. *)
Lemma Slice_Sort_and_Reverse_witness :
  Forall (has_type (TInt KInt)) (load heap0 (mkSlice 1 0 4))
  ∧ (∃ v1 h1 sl2 h2,
       Slice_Sort ctx_slices (VSlice (TInt KInt) (mkSlice 1 0 4)) heap0
       = (Ok v1, h1)
       ∧ Slice_Reverse ctx_slices v1 h1 = (Ok (VSlice TAny sl2), h2)
       ∧ load h2 sl2 ≡ₚ load heap0 (mkSlice 1 0 4)
       ∧ StronglySorted (λ a b, less (TInt KInt) a b = false) (load h2 sl2))
  ∧ (∃ v1 h1,
       Slice_Reverse ctx_slices (VSlice (TInt KInt) (mkSlice 1 0 4)) heap0
       = (Ok v1, h1)
       ∧ Slice_Sort ctx_slices v1 h1 = (Err ErrCannotSortAnySlice, h1)).
Proof.
  assert (Forall (has_type (TInt KInt)) (load heap0 (mkSlice 1 0 4))) as Hty
    by (vm_compute; repeat constructor).
  split; [exact Hty|].
  apply (Slice_Sort_and_Reverse ctx_slices (TInt KInt) (mkSlice 1 0 4) heap0).
  - vm_compute; reflexivity.
  - vm_compute; reflexivity.
  - reflexivity.
  - discriminate.
  - exact Hty.
Defined.

(** X20 on the same slice. *)
Lemma Slice_Sort_idempotent_witness :
  Forall (has_type (TInt KInt)) (load heap0 (mkSlice 1 0 4))
  ∧ ∃ sl1 h1 sl2 h2,
      Slice_Sort ctx_slices (VSlice (TInt KInt) (mkSlice 1 0 4)) heap0
      = (Ok (VSlice (TInt KInt) sl1), h1)
      ∧ Slice_Sort ctx_slices (VSlice (TInt KInt) sl1) h1
        = (Ok (VSlice (TInt KInt) sl2), h2)
      ∧ load h2 sl2 = load h1 sl1.
Proof.
  assert (Forall (has_type (TInt KInt)) (load heap0 (mkSlice 1 0 4))) as Hty
    by (vm_compute; repeat constructor).
  split; [exact Hty|].
  apply (Slice_Sort_idempotent ctx_slices (TInt KInt) (mkSlice 1 0 4) heap0).
  - vm_compute; reflexivity.
  - reflexivity.
  - discriminate.
  - exact Hty.
Defined.

(** X21 on the parts [{1, 2}] and [{2, 1}] of that array. *)
Lemma Slice_Sort_of_rearrangement_witness :
  load heap0 (mkSlice 1 1 2) ≡ₚ load heap0 (mkSlice 1 2 2)
  ∧ ∃ r1 h1' r2 h2',
      Slice_Sort ctx_slices (VSlice (TInt KInt) (mkSlice 1 1 2)) heap0
      = (Ok (VSlice (TInt KInt) r1), h1')
      ∧ Slice_Sort ctx_slices (VSlice (TInt KInt) (mkSlice 1 2 2)) heap0
        = (Ok (VSlice (TInt KInt) r2), h2')
      ∧ load h1' r1 = load h2' r2.
Proof.
  assert (load heap0 (mkSlice 1 1 2) ≡ₚ load heap0 (mkSlice 1 2 2)) as Hp
    by (vm_compute; apply perm_swap).
  split; [exact Hp|].
  apply (Slice_Sort_of_rearrangement ctx_slices (TInt KInt) (mkSlice 1 1 2)
           (mkSlice 1 2 2) heap0 heap0).
  - vm_compute; reflexivity.
  - reflexivity.
  - discriminate.
  - discriminate.
  - vm_compute; repeat constructor.
  - exact Hp.
Defined.

(** X22 on [[]any{1, "a", 1, "a", true}]. *)
Lemma Slice_Unique_result_witness :
  Forall (λ v, hashable v = true) (load heap0 (mkSlice 4 0 5))
  ∧ ∃ sl' h',
      Slice_Unique type_of_opaque ctx_slices (VSlice TAny (mkSlice 4 0 5)) heap0
      = (Ok (VSlice TAny sl'), h')
      ∧ sublist (load h' sl') (load heap0 (mkSlice 4 0 5))
      ∧ (∀ i j x y, (i < j)%nat → load h' sl' !! i = Some x →
                    load h' sl' !! j = Some y → go_eq x y = false)
      ∧ (∀ x, x ∈ load heap0 (mkSlice 4 0 5) →
              x ∈ load h' sl' ∨ ∃ y, y ∈ load h' sl' ∧ go_eq x y = true).
Proof.
  assert (Forall (λ v, hashable v = true) (load heap0 (mkSlice 4 0 5))) as Hh
    by (vm_compute; repeat constructor).
  split; [exact Hh|].
  apply (Slice_Unique_result type_of_opaque ctx_slices TAny (mkSlice 4 0 5)
           heap0).
  - vm_compute; reflexivity.
  - reflexivity.
  - exact Hh.
Defined.

(** X23 on the same slice. *)
Lemma Slice_Unique_idempotent_witness :
  Forall (λ v, hashable v = true) (load heap0 (mkSlice 4 0 5))
  ∧ ∃ sl1 h1 sl2 h2,
      Slice_Unique type_of_opaque ctx_slices (VSlice TAny (mkSlice 4 0 5)) heap0
      = (Ok (VSlice TAny sl1), h1)
      ∧ Slice_Unique type_of_opaque ctx_slices (VSlice TAny sl1) h1
        = (Ok (VSlice TAny sl2), h2)
      ∧ load h2 sl2 = load h1 sl1.
Proof.
  assert (Forall (λ v, hashable v = true) (load heap0 (mkSlice 4 0 5))) as Hh
    by (vm_compute; repeat constructor).
  split; [exact Hh|].
  apply (Slice_Unique_idempotent type_of_opaque ctx_slices TAny
           (mkSlice 4 0 5) heap0).
  - vm_compute; reflexivity.
  - reflexivity.
  - exact Hh.
Defined.

(** X24 on [[]int{3, 1, 2, 1}]. *)
Lemma Slice_Compact_spec_witness :
  IsPermitted (allowedFunctionSet ctx_slices) SliceCompact = true
  ∧ is_Some (heap0 !! s_ptr (mkSlice 1 0 4))
  ∧ ∃ sl' h',
      Slice_Compact ctx_slices (VSlice (TInt KInt) (mkSlice 1 0 4)) heap0
      = (Ok (VSlice (TInt KInt) sl'), h')
      ∧ load h' sl' = compact (load heap0 (mkSlice 1 0 4))
      ∧ sublist (load h' sl') (load heap0 (mkSlice 1 0 4))
      ∧ head (load h' sl') = head (load heap0 (mkSlice 1 0 4))
      ∧ (∀ i x y, load h' sl' !! i = Some x → load h' sl' !! S i = Some y →
                  go_eq y x = false)
      ∧ (∀ p a, heap0 !! p = Some a → h' !! p = Some a)
      ∧ load h' (mkSlice 1 0 4) = load heap0 (mkSlice 1 0 4)
      ∧ ((0 < s_len (mkSlice 1 0 4))%nat → s_ptr sl' ∉ dom heap0).
Proof.
  split; [vm_compute; reflexivity|].
  split; [vm_compute; eexists; reflexivity|].
  apply (Slice_Compact_spec ctx_slices (TInt KInt) (mkSlice 1 0 4) heap0).
  - vm_compute; reflexivity.
  - reflexivity.
  - vm_compute; eexists; reflexivity.
Defined.

(** X25 on the same slice. *)
Lemma Slice_Compact_after_Sort_witness :
  Forall (has_type (TInt KInt)) (load heap0 (mkSlice 1 0 4))
  ∧ ∃ v1 h1 sl2 h2,
      Slice_Sort ctx_slices (VSlice (TInt KInt) (mkSlice 1 0 4)) heap0
      = (Ok v1, h1)
      ∧ Slice_Compact ctx_slices v1 h1 = (Ok (VSlice (TInt KInt) sl2), h2)
      ∧ StronglySorted (λ a b, less (TInt KInt) b a = false) (load h2 sl2)
      ∧ (∀ i j x y, (i < j)%nat → load h2 sl2 !! i = Some x →
                    load h2 sl2 !! j = Some y → go_eq x y = false)
      ∧ (∀ x, x ∈ load heap0 (mkSlice 1 0 4) →
              x ∈ load h2 sl2 ∨ ∃ y, y ∈ load h2 sl2 ∧ go_eq x y = true).
Proof.
  assert (Forall (has_type (TInt KInt)) (load heap0 (mkSlice 1 0 4))) as Hty
    by (vm_compute; repeat constructor).
  split; [exact Hty|].
  apply (Slice_Compact_after_Sort ctx_slices (TInt KInt) (mkSlice 1 0 4)
           heap0).
  - vm_compute; reflexivity.
  - vm_compute; reflexivity.
  - reflexivity.
  - discriminate.
  - exact Hty.
Defined.

(** X26 on the same slice. *)
Lemma Slice_Len_of_results_witness :
  length (load heap0 (mkSlice 1 0 4)) = s_len (mkSlice 1 0 4)
  ∧ (∃ v h',
       Slice_Sort ctx_slices (VSlice (TInt KInt) (mkSlice 1 0 4)) heap0
       = (Ok v, h')
       ∧ Slice_Len ctx_slices v = Ok (Z.of_nat (s_len (mkSlice 1 0 4))))
  ∧ (∃ v h',
       Slice_Reverse ctx_slices (VSlice (TInt KInt) (mkSlice 1 0 4)) heap0
       = (Ok v, h')
       ∧ Slice_Len ctx_slices v = Ok (Z.of_nat (s_len (mkSlice 1 0 4)))).
Proof.
  assert (IsPermitted (allowedFunctionSet ctx_slices) SliceLen = true) as H1
    by (vm_compute; reflexivity).
  assert (Forall (has_type (TInt KInt)) (load heap0 (mkSlice 1 0 4))) as Hty
    by (vm_compute; repeat constructor).
  assert (length (load heap0 (mkSlice 1 0 4)) = s_len (mkSlice 1 0 4)) as Hfit
    by (vm_compute; reflexivity).
  assert (TInt KInt ≠ TAny) as Ht by discriminate.
  pose proof (Slice_Len_of_results type_of_opaque ctx_slices (TInt KInt)
                (mkSlice 1 0 4) heap0 H1 eq_refl Ht Hty Hfit) as (Hs & Hr & _).
  split; [exact Hfit|]. split.
  - apply Hs. vm_compute; reflexivity.
  - apply Hr. vm_compute; reflexivity.
Defined.

(** X27 on the sub-template ["getName"]: the value of the early return
    comes back as a string value. *)
Lemma Tmpl_Exec_variadic_arguments_witness :
  Tmpl_Exec_variadic ctx_safe "getName" [VNil] = Ok (VString "Anonymous").
Proof.
  exact (proj2 (proj2 (proj2
           (Tmpl_Exec_variadic_arguments Sprint_opaque ctx_safe "getName"
              VNil VNil [])))
           EmptyString
           (Wrapped "template: error calling return: %w" []
              (ReturnError (VString "Anonymous")))
           (VString "Anonymous") eq_refl eq_refl).
Defined.
